(** * Exam seating allocator: the four allocation strategies

    Shallow embedding of [src/components/ExamSeatingAllocator.tsx]:
    the data model, the four allocation strategies, the statistics
    calculator, the editing of the section form and what the two result
    displays compute, followed by the properties proved about them.

    Conventions.
    - Seat and student counts are JavaScript numbers holding integers; they
      are modelled as [Z]. Non-numeric values (NaN) are outside the model.
    - [roomUsage] is a JavaScript object used as a dictionary from room id to
      a number; it is a [gmap string Z]. Reading [roomUsage[k] || 0] is
      [usage u k].
    - Optional record fields ([startSeat?], [partial?], ...) are [option]s;
      a field that a strategy does not write is [None].
    - [Array.prototype.sort] with the comparator [(a, b) => b.k - a.k] is a
      stable sort by decreasing key; it is modelled by a stable insertion
      sort.
    - A function of the source that can read a field of [undefined] or whose
      loop needs fuel in the model returns an [option]; that it returns
      [Some] on the inputs of interest is proved, not assumed.
    - Room ids that collide with properties inherited by every JavaScript
      object (["constructor"], ["__proto__"], ...) are outside the model. *)

From Stdlib Require Import QArith Ascii.
From stdpp Require Import gmap strings list fin_maps.

Local Open Scope string_scope.
Local Open Scope list_scope.
Local Open Scope Z_scope.

(** ** Data model *)

(** [interface Section]: the keyword-free name [Group] is used for the
    record, the fields keep their source names behind the prefix [s_]. *)
Record Group := mkGroup {
  s_id : Z;
  s_branch : string;
  s_section : string;
  s_students : Z
}.

(** [interface Room]. *)
Record Room := mkRoom {
  no : string;
  capacity : Z;
  rows : list Z
}.

(** [interface RoomBlock]. *)
Record RoomBlock := mkBlock {
  name : string;
  rooms : list Room
}.

(** [Room & { blockName: string }], an element of [allRooms]. *)
Record FlatRoom := mkFlat {
  fr_room : Room;
  fr_blockName : string
}.

Definition fr_no (r : FlatRoom) : string := no (fr_room r).
Definition fr_capacity (r : FlatRoom) : Z := capacity (fr_room r).

(** [interface Allocation]. *)
Record Allocation := mkAlloc {
  branch : string;
  section : string;
  roomNo : string;
  students : Z;
  startSeat : option Z;
  endSeat : option Z;
  partial : option bool;
  emergency : option bool;
  error : option bool;
  blockName : option string
}.

(** What every strategy returns: [{ result, roomUsage }]. *)
Record AllocResult := mkResult {
  result : list Allocation;
  roomUsage : gmap string Z
}.

Definition NO_SPACE : string := "NO SPACE".

(** [r.error] read as a condition: a missing field is falsy. *)
Definition is_error (a : Allocation) : bool :=
  match error a with Some true => true | _ => false end.

(** [roomUsage[k] || 0]. *)
Definition usage (u : gmap string Z) (k : string) : Z := default 0 (u !! k).

(** ** Shared helpers *)

(** Stable sort by decreasing key. *)
Fixpoint insert_desc {A} (key : A → Z) (x : A) (l : list A) : list A :=
  match l with
  | [] => [x]
  | y :: l' => if key y <=? key x then x :: y :: l' else y :: insert_desc key x l'
  end.

Definition sort_desc {A} (key : A → Z) (l : list A) : list A :=
  foldr (insert_desc key) [] l.

(** [roomBlocks.flatMap(block => block.rooms.map(room => ({ ...room,
    blockName: block.name })))]. *)
Definition flattenRooms (roomBlocks : list RoomBlock) : list FlatRoom :=
  flat_map (λ b, map (λ r, mkFlat r (name b)) (rooms b)) roomBlocks.

(** [.sort((a, b) => b.capacity - a.capacity)] of the flattened catalog. *)
Definition sortedRooms (roomBlocks : list RoomBlock) : list FlatRoom :=
  sort_desc fr_capacity (flattenRooms roomBlocks).

(** The filter [s => s.branch && s.section && s.students > 0]. *)
Definition validGroup (s : Group) : bool :=
  negb (String.eqb (s_branch s) "") && negb (String.eqb (s_section s) "")
  && (0 <? s_students s).

(** [sections.filter(...).map(s => ({ ...s }))] then
    [.sort((a, b) => b.students - a.students)]. *)
Definition sectionLeft0 (sections : list Group) : list Group :=
  sort_desc s_students (List.filter validGroup sections).

(** [allRooms.some(r => (roomUsage[r.no] || 0) > 0)]. *)
Definition anyRoomHasStudents (allRooms : list FlatRoom) (u : gmap string Z) : bool :=
  existsb (λ r, 0 <? usage u (fr_no r)) allRooms.

(** The record pushed for a placement of [n] students of [s] in [room]
    whose fill level was [used]. *)
Definition seatRecord (s : Group) (room : FlatRoom) (used n : Z)
    (part : option bool) : Allocation :=
  {| branch := s_branch s; section := s_section s; roomNo := fr_no room;
     students := n; startSeat := Some (used + 1); endSeat := Some (used + n);
     partial := part; emergency := None; error := None;
     blockName := Some (fr_blockName room) |}.

(** The record pushed for an unseatable remainder. *)
Definition errorRecord (s : Group) (n : Z) : Allocation :=
  {| branch := s_branch s; section := s_section s; roomNo := NO_SPACE;
     students := n; startSeat := None; endSeat := None;
     partial := None; emergency := None; error := Some true;
     blockName := None |}.

(** [toAllocate !== section.students] as the [partial] flag. *)
Definition partialFlag (s : Group) (n : Z) : option bool :=
  Some (negb (n =? s_students s)).

(** The min-chunk guard of the room scans (strategies 1, 2 and the
    first-fit pass of strategy 4); [true] means [continue]. *)
Definition guardSkips (minChunk : Z) (allRooms : list FlatRoom)
    (u : gmap string Z) (used toAllocate remaining : Z) : bool :=
  if (used =? 0) && (toAllocate <? minChunk) && (remaining =? toAllocate)
  then anyRoomHasStudents allRooms u
  else (toAllocate <? minChunk) && (minChunk <? remaining).

(** [result.push(rec); roomUsage[room.no] = used + n]. *)
Definition place (st : AllocResult) (rec : Allocation) (k : string) (v : Z) : AllocResult :=
  {| result := result st ++ [rec]; roomUsage := <[k := v]> (roomUsage st) |}.

Definition pushError (st : AllocResult) (s : Group) (n : Z) : AllocResult :=
  {| result := result st ++ [errorRecord s n]; roomUsage := roomUsage st |}.

Definition emptyResult : AllocResult := {| result := []; roomUsage := ∅ |}.

(** ** Strategies 1 and 2: Simple Greedy and Greedy with Min Chunk *)

(** The inner [for (const room of allRooms)] loop for one section; returns
    the state and what is left of [remaining]. *)
Fixpoint greedyRooms (minChunk : Z) (allRooms : list FlatRoom) (s : Group)
    (todo : list FlatRoom) (st : AllocResult) (remaining : Z) : AllocResult * Z :=
  match todo with
  | [] => (st, remaining)
  | room :: rest =>
    if remaining =? 0 then (st, remaining) else
    let used := usage (roomUsage st) (fr_no room) in
    let available := fr_capacity room - used in
    if available <=? 0 then greedyRooms minChunk allRooms s rest st remaining else
    let toAllocate := Z.min available remaining in
    if guardSkips minChunk allRooms (roomUsage st) used toAllocate remaining
    then greedyRooms minChunk allRooms s rest st remaining
    else greedyRooms minChunk allRooms s rest
           (place st (seatRecord s room used toAllocate (partialFlag s toAllocate))
                  (fr_no room) (used + toAllocate))
           (remaining - toAllocate)
  end.

(** The body of [for (const section of sectionLeft)]. *)
Definition greedySection (minChunk : Z) (allRooms : list FlatRoom)
    (st : AllocResult) (s : Group) : AllocResult :=
  let '(st', remaining) := greedyRooms minChunk allRooms s allRooms st (s_students s) in
  if 0 <? remaining then pushError st' s remaining else st'.

Definition greedyRun (roomBlocks : list RoomBlock) (sections : list Group)
    (minChunk : Z) : AllocResult :=
  foldl (greedySection minChunk (sortedRooms roomBlocks)) emptyResult
        (sectionLeft0 sections).

(** [allocateSimpleGreedy] and [allocateGreedyMinChunk] have the same body
    in the source, statement for statement. *)
Definition allocateSimpleGreedy := greedyRun.
Definition allocateGreedyMinChunk := greedyRun.

(** ** Strategy 3: Greedy Lookahead *)

(** [sectionLeft.findIndex(p)]; [None] is the source's [-1]. *)
Fixpoint findIndex {A} (p : A → bool) (l : list A) : option nat :=
  match l with
  | [] => None
  | x :: l' => if p x then Some 0%nat else S <$> findIndex p l'
  end.

(** The scan [for (let i = 0; i < sectionLeft.length; ++i)] that looks for
    the largest section fitting in [seatsLeft]; [i] is the index of the head
    of [todo]. *)
Fixpoint bestWhole (seatsLeft : Z) (todo : list Group) (i : nat)
    (bestIdx : option nat) (bestChunk : Z) : option nat :=
  match todo with
  | [] => bestIdx
  | s :: rest =>
    if (s_students s <=? seatsLeft) && (bestChunk <? s_students s)
    then bestWhole seatsLeft rest (S i) (Some i) (s_students s)
    else bestWhole seatsLeft rest (S i) bestIdx bestChunk
  end.

(** [s.students -= chunk] on an element of [sectionLeft]. *)
Definition setStudents (s : Group) (n : Z) : Group :=
  {| s_id := s_id s; s_branch := s_branch s; s_section := s_section s;
     s_students := n |}.

(** The state of the [while] loop that fills one room: [sectionLeft],
    [seatsLeft] and [allocationsForRoom]. *)
Record FillState := mkFill {
  sectionLeft : list Group;
  seatsLeft : Z;
  allocationsForRoom : list Allocation
}.

(** [while (seatsLeft > 0 && sectionLeft.length > 0) { ... }]. [u] is
    [roomUsage], which the loop only reads. The result is [None] when the
    fuel runs out or when the source would read a field of [undefined]. *)
Fixpoint lookaheadFill (fuel : nat) (minChunk : Z) (allRooms : list FlatRoom)
    (u : gmap string Z) (room : FlatRoom) (fs : FillState) : option FillState :=
  if negb ((0 <? seatsLeft fs) && negb (bool_decide (sectionLeft fs = [])))
  then Some fs else
  match fuel with
  | O => None
  | S fuel' =>
    let filled := fr_capacity room - seatsLeft fs in
    match bestWhole (seatsLeft fs) (sectionLeft fs) 0 None 0 with
    | Some bestIdx =>
      s ← sectionLeft fs !! bestIdx;
      let same := s_students s =? s_students s in
      let stop :=
        if (filled =? 0) && (s_students s <? minChunk) && same
        then anyRoomHasStudents allRooms u
        else (s_students s <? minChunk) && negb same in
      if stop then Some fs else
      lookaheadFill fuel' minChunk allRooms u room
        {| sectionLeft := delete bestIdx (sectionLeft fs);
           seatsLeft := seatsLeft fs - s_students s;
           allocationsForRoom := allocationsForRoom fs ++
             [seatRecord s room filled (s_students s) None] |}
    | None =>
      let sorted := sort_desc s_students (sectionLeft fs) in
      let broke := {| sectionLeft := sorted; seatsLeft := seatsLeft fs;
                      allocationsForRoom := allocationsForRoom fs |} in
      s ← head sorted;
      if (0 <? s_students s - seatsLeft fs)
         && (s_students s - seatsLeft fs <? minChunk)
         && (seatsLeft fs <? minChunk)
      then Some broke else
      let chunk := Z.min (seatsLeft fs) (s_students s) in
      let stop :=
        if (filled =? 0) && (chunk <? minChunk) && (s_students s =? chunk)
        then anyRoomHasStudents allRooms u
        else (chunk <? minChunk) && (minChunk <? s_students s) in
      if stop then Some broke else
      let s' := setStudents s (s_students s - chunk) in
      lookaheadFill fuel' minChunk allRooms u room
        {| sectionLeft := if s_students s' =? 0 then tail sorted else s' :: tail sorted;
           seatsLeft := seatsLeft fs - chunk;
           allocationsForRoom := allocationsForRoom fs ++
             [seatRecord s room filled chunk (Some true)] |}
    end
  end.

(** The perfect-fit step that opens the body of [for (const room of
    allRooms)]. *)
Definition perfectFit (room : FlatRoom) (pending : list Group) : option FillState :=
  let seats := fr_capacity room in
  match findIndex (λ s, s_students s =? seats) pending with
  | Some perfectIdx =>
    s ← pending !! perfectIdx;
    Some {| sectionLeft := delete perfectIdx pending;
            seatsLeft := 0;
            allocationsForRoom :=
              [ {| branch := s_branch s; section := s_section s;
                   roomNo := fr_no room; students := seats;
                   startSeat := Some 1; endSeat := Some seats;
                   partial := None; emergency := None; error := None;
                   blockName := Some (fr_blockName room) |} ] |}
  | None => Some {| sectionLeft := pending; seatsLeft := seats; allocationsForRoom := [] |}
  end.

(** The state carried across rooms: [sectionLeft] and the output so far. *)
Record LookState := mkLook {
  l_sectionLeft : list Group;
  l_out : AllocResult
}.

(** Enough fuel for the loop of one room: a turn that seats a whole section
    removes it from [sectionLeft], and a turn that splits one fills the
    room. *)
Definition fillFuel (pending : list Group) : nat := S (S (length pending)).

(** The body of [for (const room of allRooms)]. *)
Definition lookaheadRoom (minChunk : Z) (allRooms : list FlatRoom)
    (st : LookState) (room : FlatRoom) : option LookState :=
  fs0 ← perfectFit room (l_sectionLeft st);
  fs ← lookaheadFill (fillFuel (sectionLeft fs0)) minChunk allRooms
         (roomUsage (l_out st)) room fs0;
  Some {| l_sectionLeft := sectionLeft fs;
          l_out :=
            {| result := result (l_out st) ++ allocationsForRoom fs;
               roomUsage :=
                 if bool_decide (allocationsForRoom fs = [])
                 then roomUsage (l_out st)
                 else <[fr_no room := fr_capacity room - seatsLeft fs]>
                        (roomUsage (l_out st)) |} |}.

Fixpoint lookaheadRooms (minChunk : Z) (allRooms : list FlatRoom)
    (todo : list FlatRoom) (st : LookState) : option LookState :=
  match todo with
  | [] => Some st
  | room :: rest =>
    st' ← lookaheadRoom minChunk allRooms st room;
    lookaheadRooms minChunk allRooms rest st'
  end.

(** The closing loop [for (const s of sectionLeft) if (s.students > 0)
    result.push(error record)]. *)
Definition leftoverErrors (pending : list Group) : list Allocation :=
  map (λ s, errorRecord s (s_students s))
      (List.filter (λ s, 0 <? s_students s) pending).

Definition allocateGreedyLookahead (roomBlocks : list RoomBlock)
    (sections : list Group) (minChunk : Z) : option AllocResult :=
  let allRooms := sortedRooms roomBlocks in
  st ← lookaheadRooms minChunk allRooms allRooms
         {| l_sectionLeft := sectionLeft0 sections; l_out := emptyResult |};
  Some {| result := result (l_out st) ++ leftoverErrors (l_sectionLeft st);
          roomUsage := roomUsage (l_out st) |}.

(** ** Strategy 4: Best-Fit / First-Fit Decreasing with block unlock *)

(** The room order written in the source. *)
Definition orderedRoomBlocks : list (list string) :=
  [ ["APJ-1";"APJ-2";"APJ-3";"APJ-4";"APJ-5";"APJ-6";"APJ-7";"APJ-8";"APJ-9";"APJ-10";"APJ-11"];
    ["S-01";"S-02";"S-03";"S-04"];
    ["002/8A";"003/8A";"102/8A";"103/8A";"110/8A"];
    ["13/5";"14/5";"15/5";"17/5";"22/5";"24/5";"27/5";"28/5"];
    ["116/5";"119/5";"138/5"];
    ["215/5";"216/5";"217/5";"219/5";"221/5";"222/5"];
    ["301/5";"305/5";"306/5";"307/5";"311/5";"312/5"];
    ["113/6";"114/6";"117/6";"127/6"];
    ["313/6";"314/6"];
    ["13/4";"14/4";"17/4";"24/4"];
    ["MPC-01";"MPC-02"] ].

(** The state of a run: the output so far and the block cursor. *)
Record FfdState := mkFfd {
  f_out : AllocResult;
  maxBlockIdx : nat
}.

(** What one turn of [while (remaining > 0)] does: it places a chunk and
    goes on with a new [remaining], or it leaves the loop by [break]. *)
Inductive Turn :=
  | Placed (st : FfdState) (remaining : Z)
  | Break.

Section BestFitFFD.

(** The block table; the strategy itself is [allocateBestFitFFD] below,
    which fixes it to [orderedRoomBlocks]. *)
Variable blocks : list (list string).

(** [roomToBlockIdx], filled by the nested [forEach]. *)
Definition roomToBlockIdx : gmap string nat :=
  foldl (λ m ib, foldl (λ m' roomNo, <[roomNo := ib.1]> m') m ib.2)
        ∅ (imap pair blocks).

(** [roomBlocks.find(b => b.rooms.some(r => r.no === roomNo))] followed by
    [blockObj?.rooms.find(r => r.no === roomNo)]. The source asserts that
    the room exists ([roomObj!]); [None] is the case where it does not. *)
Definition findRoom (roomBlocks : list RoomBlock) (roomNo : string) : option FlatRoom :=
  blockObj ← List.find (λ b, existsb (λ r, String.eqb (no r) roomNo) (rooms b)) roomBlocks;
  roomObj ← List.find (λ r, String.eqb (no r) roomNo) (rooms blockObj);
  Some (mkFlat roomObj (name blockObj)).

(** [allRooms]: the rooms of the table, in its order. When a room of the
    table is not in the catalog the source goes on with a room that has
    neither id nor capacity, and computes with NaN from there; such runs
    are not modelled, and the result is [None]. *)
Definition ffdRooms (roomBlocks : list RoomBlock) : option (list FlatRoom) :=
  mapM (findRoom roomBlocks) (concat blocks).

(** [if (blockIdx > maxBlockIdx) continue]; an id missing from the table
    reads [undefined], which compares false. *)
Definition blockLocked (cursor : nat) (room : FlatRoom) : bool :=
  match roomToBlockIdx !! fr_no room with
  | Some blockIdx => (cursor <? blockIdx)%nat
  | None => false
  end.

(** The best-fit scan; [bestRoomSpace = Infinity] is [None]. *)
Fixpoint bestFitScan (cursor : nat) (u : gmap string Z) (remaining : Z)
    (todo : list FlatRoom) (i : nat) (bestRoomIdx : option nat)
    (bestRoomSpace : option Z) : option nat :=
  match todo with
  | [] => bestRoomIdx
  | room :: rest =>
    if blockLocked cursor room
    then bestFitScan cursor u remaining rest (S i) bestRoomIdx bestRoomSpace else
    let available := fr_capacity room - usage u (fr_no room) in
    if (remaining <=? available)
       && match bestRoomSpace with None => true | Some b => available <? b end
    then bestFitScan cursor u remaining rest (S i) (Some i) (Some available)
    else bestFitScan cursor u remaining rest (S i) bestRoomIdx bestRoomSpace
  end.

(** The block unlock that follows every placement. Reading
    [orderedRoomBlocks[maxBlockIdx]] past the table is [None]. *)
Definition unlock (u : gmap string Z) (cursor : nat) : option nat :=
  currentBlockRooms ← blocks !! cursor;
  Some (if forallb (λ rn, 0 <? usage u rn) currentBlockRooms
           && (cursor <? length blocks - 1)%nat
        then S cursor else cursor).

(** A placement: push the record, update the usage, unlock. *)
Definition placeFfd (st : FfdState) (rec : Allocation) (k : string) (v : Z) : option FfdState :=
  let out := place (f_out st) rec k v in
  cursor ← unlock (roomUsage out) (maxBlockIdx st);
  Some {| f_out := out; maxBlockIdx := cursor |}.

(** The first-fit scan of one turn. *)
Fixpoint firstFitScan (minChunk : Z) (allRooms : list FlatRoom) (s : Group)
    (st : FfdState) (remaining : Z) (todo : list FlatRoom) : option Turn :=
  match todo with
  | [] => Some Break
  | room :: rest =>
    if blockLocked (maxBlockIdx st) room
    then firstFitScan minChunk allRooms s st remaining rest else
    let used := usage (roomUsage (f_out st)) (fr_no room) in
    let available := fr_capacity room - used in
    if available <=? 0 then firstFitScan minChunk allRooms s st remaining rest else
    let toAllocate := Z.min available remaining in
    if guardSkips minChunk allRooms (roomUsage (f_out st)) used toAllocate remaining
    then firstFitScan minChunk allRooms s st remaining rest else
    st' ← placeFfd st (seatRecord s room used toAllocate (partialFlag s toAllocate))
                   (fr_no room) (used + toAllocate);
    Some (Placed st' (remaining - toAllocate))
  end.

(** One turn of [while (remaining > 0)]. *)
Definition ffdTurn (minChunk : Z) (allRooms : list FlatRoom) (s : Group)
    (st : FfdState) (remaining : Z) : option Turn :=
  let u := roomUsage (f_out st) in
  match bestFitScan (maxBlockIdx st) u remaining allRooms 0 None None with
  | Some bestRoomIdx =>
    room ← allRooms !! bestRoomIdx;
    let used := usage u (fr_no room) in
    let stop :=
      if (used =? 0) && (remaining <? minChunk) && (remaining =? s_students s)
      then anyRoomHasStudents allRooms u
      else (remaining <? minChunk) && negb (remaining =? s_students s) in
    if stop then Some Break else
    st' ← placeFfd st (seatRecord s room used remaining None)
                   (fr_no room) (used + remaining);
    Some (Placed st' 0)
  | None => firstFitScan minChunk allRooms s st remaining allRooms
  end.

(** [while (remaining > 0) { ... }]; [None] when the fuel runs out or a
    turn fails. *)
Fixpoint ffdWhile (fuel : nat) (minChunk : Z) (allRooms : list FlatRoom)
    (s : Group) (st : FfdState) (remaining : Z) : option (FfdState * Z) :=
  if negb (0 <? remaining) then Some (st, remaining) else
  match fuel with
  | O => None
  | S fuel' =>
    t ← ffdTurn minChunk allRooms s st remaining;
    match t with
    | Break => Some (st, remaining)
    | Placed st' remaining' => ffdWhile fuel' minChunk allRooms s st' remaining'
    end
  end.

(** The body of [for (const section of sectionLeft)]. Every turn that goes
    on seats at least one student, so [remaining] turns are enough. *)
Definition ffdSection (minChunk : Z) (allRooms : list FlatRoom)
    (st : FfdState) (s : Group) : option FfdState :=
  r ← ffdWhile (Z.to_nat (s_students s)) minChunk allRooms s st (s_students s);
  Some (if 0 <? r.2
        then {| f_out := pushError (f_out r.1) s r.2; maxBlockIdx := maxBlockIdx r.1 |}
        else r.1).

Fixpoint ffdSections (minChunk : Z) (allRooms : list FlatRoom)
    (todo : list Group) (st : FfdState) : option FfdState :=
  match todo with
  | [] => Some st
  | s :: rest =>
    st' ← ffdSection minChunk allRooms st s;
    ffdSections minChunk allRooms rest st'
  end.

Definition ffdInit : FfdState := {| f_out := emptyResult; maxBlockIdx := 0 |}.

Definition ffdRun (roomBlocks : list RoomBlock) (sections : list Group)
    (minChunk : Z) : option FfdState :=
  allRooms ← ffdRooms roomBlocks;
  ffdSections minChunk allRooms (sectionLeft0 sections) ffdInit.

End BestFitFFD.

Definition allocateBestFitFFD (roomBlocks : list RoomBlock)
    (sections : list Group) (minChunk : Z) : option AllocResult :=
  f_out <$> ffdRun orderedRoomBlocks roomBlocks sections minChunk.

(** ** Statistics calculator (the tail of [allocateSeats]) *)

Record Stats := mkStats {
  totalStudents : Z;
  allocatedStudents : Z;
  roomsUsed : nat;
  blocksUsed : nat;
  totalCapacity : Z;
  wastedSeats : Z;
  efficiency : Q
}.

Definition sumZ (l : list Z) : Z := foldr Z.add 0 l.

Definition nonError (res : list Allocation) : list Allocation :=
  List.filter (λ a, negb (is_error a)) res.

(** [efficiency] is the value that the source formats with [toFixed(1)];
    the formatting itself is not modelled. *)
Definition calcStats (roomBlocks : list RoomBlock) (sections : list Group)
    (r : AllocResult) : Stats :=
  let allocated := sumZ (map students (nonError (result r))) in
  let cap :=
    foldr (λ kv acc,
             match List.find (λ rm, String.eqb (no rm) kv.1)
                             (flat_map rooms roomBlocks) with
             | Some rm => acc + capacity rm
             | None => acc
             end) 0 (map_to_list (roomUsage r)) in
  {| totalStudents := sumZ (map s_students sections);
     allocatedStudents := allocated;
     roomsUsed := size (list_to_set (map roomNo (nonError (result r))) : gset string);
     blocksUsed :=
       size (list_to_set
               (omap (λ a, match blockName a with
                           | Some b => if String.eqb b "" then None else Some b
                           | None => None
                           end) (nonError (result r))) : gset string);
     totalCapacity := cap;
     wastedSeats := cap - allocated;
     efficiency :=
       if 0 <? cap then (inject_Z allocated / inject_Z cap * 100)%Q else 0%Q |}.

(** ** The worked scenario of the specification *)

Definition scnA : Room := mkRoom "A" 50 [].
Definition scnB : Room := mkRoom "B" 30 [].
Definition scnC : Room := mkRoom "C" 20 [].
Definition scnCatalog : list RoomBlock := [mkBlock "Main Block" [scnA; scnB; scnC]].
Definition scnX : Group := mkGroup 1 "X" "1" 40.
Definition scnY : Group := mkGroup 2 "Y" "1" 60.

(** ** The dispatch of [allocateSeats] *)

(** [if (algorithm === 1) ... else if (algorithm === 2) ... else if
    (algorithm === 3) ... else allocateBestFitFFD()]. *)
Definition runStrategy (algorithm : Z) (roomBlocks : list RoomBlock)
    (sections : list Group) (minChunk : Z) : option AllocResult :=
  if algorithm =? 1 then Some (allocateSimpleGreedy roomBlocks sections minChunk)
  else if algorithm =? 2 then Some (allocateGreedyMinChunk roomBlocks sections minChunk)
  else if algorithm =? 3 then allocateGreedyLookahead roomBlocks sections minChunk
  else allocateBestFitFFD roomBlocks sections minChunk.

(** ** The whole of [allocateSeats] *)

(** What a click on "Allocate Seats" leaves in the component's state: the
    guard [if (!roomBlocks.length)] returns before anything is allocated;
    otherwise [allocation] and [stats] are replaced. *)
Inductive SeatsOutcome :=
  | NotLoaded
  | Allocated (allocation : list Allocation) (stats : Stats).

(** [None] is a run that the model does not cover (see [ffdRooms]). *)
Definition allocateSeats (algorithm : Z) (roomBlocks : list RoomBlock)
    (sections : list Group) (minChunk : Z) : option SeatsOutcome :=
  if bool_decide (roomBlocks = []) then Some NotLoaded else
  r ← runStrategy algorithm roomBlocks sections minChunk;
  Some (Allocated (result r) (calcStats roomBlocks sections r)).

(** ** Editing the list of sections *)

(** [addSection]: [Math.max(...sections.map(s => s.id), 0) + 1] is the new
    id; the new section has no branch, no section label and 50 students. *)
Definition newSectionId (sections : list Group) : Z :=
  foldr Z.max 0 (map s_id sections) + 1.

Definition addSection (sections : list Group) : list Group :=
  sections ++ [mkGroup (newSectionId sections) "" "" 50].

(** [removeSection]: [sections.filter(s => s.id !== id)]. *)
Definition removeSection (id : Z) (sections : list Group) : list Group :=
  List.filter (λ s, negb (s_id s =? id)) sections.

(** The fields that the form edits. [keyof Section] also holds [id], which
    no caller of [updateSection] passes. *)
Inductive SectionField := FieldBranch | FieldSection | FieldStudents.

(** [updateSection]. The form passes the text of an input as [value]. The
    built-in [parseInt] is a parameter: [None] is NaN, and
    [parseInt(value) || 0] is [default 0 (parseInt value)]. *)
Definition updateSection (parseInt : string → option Z) (id : Z)
    (field : SectionField) (value : string) (sections : list Group) : list Group :=
  map (λ s,
         if s_id s =? id then
           match field with
           | FieldBranch =>
             {| s_id := s_id s; s_branch := value; s_section := s_section s;
                s_students := s_students s |}
           | FieldSection =>
             {| s_id := s_id s; s_branch := s_branch s; s_section := value;
                s_students := s_students s |}
           | FieldStudents =>
             {| s_id := s_id s; s_branch := s_branch s; s_section := s_section s;
                s_students := default 0 (parseInt value) |}
           end
         else s) sections.

(** ** The results grouped by section *)

(** The key [`${item.branch}-${item.section}`]. *)
Definition sectionKey (a : Allocation) : string :=
  branch a +:+ "-" +:+ section a.

(** [if (!acc[key]) acc[key] = []; acc[key].push(item)] on an object whose
    entries are read back in insertion order (every key holds a ["-"], so
    none is an array index and none is inherited from [Object.prototype]). *)
Fixpoint pushGrouped (key : string) (item : Allocation)
    (acc : list (string * list Allocation)) : list (string * list Allocation) :=
  match acc with
  | [] => [(key, [item])]
  | (k, items) :: acc' =>
    if String.eqb k key then (k, items ++ [item]) :: acc'
    else (k, items) :: pushGrouped key item acc'
  end.

(** [groupedAllocation], as [Object.entries] lists it. *)
Definition groupedAllocation (allocation : list Allocation)
    : list (string * list Allocation) :=
  foldl (λ acc item, pushGrouped (sectionKey item) item acc) [] allocation.

(** [sectionKey.split('-')]. *)
Fixpoint splitDash (s : string) : list string :=
  match s with
  | EmptyString => [EmptyString]
  | String c s' =>
    if Ascii.eqb c "-"%char then EmptyString :: splitDash s'
    else match splitDash s' with
         | [] => [String c EmptyString]
         | h :: t => String c h :: t
         end
  end.

(** [const [branch, section] = sectionKey.split('-')]: a missing element
    is [undefined]. *)
Definition shownIdentity (key : string) : option string * option string :=
  let parts := splitDash key in (parts !! 0%nat, parts !! 1%nat).

(** The header of a group of results: [totalStudents], [hasPartial] and
    [hasError]. *)
Definition shownTotal (sectionAllocations : list Allocation) : Z :=
  sumZ (map students sectionAllocations).

(** Whether [alloc.partial] is truthy. *)
Definition flaggedPartial (alloc : Allocation) : bool :=
  match partial alloc with Some true => true | _ => false end.

Definition hasPartial (sectionAllocations : list Allocation) : bool :=
  existsb flaggedPartial sectionAllocations.

Definition hasError (sectionAllocations : list Allocation) : bool :=
  existsb is_error sectionAllocations.

(** ** The room-wise display *)

(** [allocation.filter(alloc => alloc.roomNo === room.no)]. *)
Definition roomAllocations (room : Room) (allocation : list Allocation)
    : list Allocation :=
  List.filter (λ alloc, String.eqb (roomNo alloc) (no room)) allocation.

(** [allocation.filter(alloc => block.rooms.some(room => room.no ===
    alloc.roomNo))]. *)
Definition blockAllocations (block : RoomBlock) (allocation : list Allocation)
    : list Allocation :=
  List.filter (λ alloc, existsb (λ room, String.eqb (no room) (roomNo alloc))
                                (rooms block)) allocation.

(** A row of the display: room id, [totalUsed], capacity, [wastedSeats]. *)
Record RoomRow := mkRow {
  row_no : string;
  row_totalUsed : Z;
  row_capacity : Z;
  row_wastedSeats : Z
}.

(** The body of [sortedRooms.map(room => ...)]: [None] is [return null]. *)
Definition roomRow (allocation : list Allocation) (room : Room) : option RoomRow :=
  let allocs := roomAllocations room allocation in
  if bool_decide (allocs = []) then None else
  let totalUsed := sumZ (map students allocs) in
  Some {| row_no := no room; row_totalUsed := totalUsed;
          row_capacity := capacity room;
          row_wastedSeats := capacity room - totalUsed |}.

(** The body of [roomBlocks.map((block, blockIdx) => ...)]: the block name
    and its rows, rooms by decreasing capacity; [None] is [return null]. *)
Definition blockRows (allocation : list Allocation) (block : RoomBlock)
    : option (string * list RoomRow) :=
  if bool_decide (blockAllocations block allocation = []) then None else
  Some (name block, omap (roomRow allocation) (sort_desc capacity (rooms block))).

(** The room-wise display, [allocation.length > 0 && ...]: the blocks
    that are drawn. *)
Definition roomWiseDisplay (roomBlocks : list RoomBlock)
    (allocation : list Allocation) : list (string * list RoomRow) :=
  if bool_decide (allocation = []) then []
  else omap (blockRows allocation) roomBlocks.

(** ** Vocabulary of the properties *)

(** The rooms of the catalog, block after block. *)
Definition catalogRooms (roomBlocks : list RoomBlock) : list Room :=
  flat_map rooms roomBlocks.

(** Room ids are unique in the catalog. *)
Definition uniqueRoomIds (roomBlocks : list RoomBlock) : Prop :=
  NoDup (map no (catalogRooms roomBlocks)).

(** Every room id of a block table names a room of the catalog: what the
    source assumes when it writes [roomObj!]. *)
Definition catalogCovers (blocks : list (list string)) (roomBlocks : list RoomBlock) : Prop :=
  Forall (λ k, k ∈ map no (catalogRooms roomBlocks)) (concat blocks).

(** What a strategy needs from the catalog to run inside the model: only
    strategy 4 reads the block table. *)
Definition strategyReady (algorithm : Z) (roomBlocks : list RoomBlock) : Prop :=
  if (algorithm =? 1) || (algorithm =? 2) || (algorithm =? 3) then True
  else catalogCovers orderedRoomBlocks roomBlocks.

(** The identity of a group. *)
Definition identity (s : Group) : string * string := (s_branch s, s_section s).

Definition ofGroup (i : string * string) (a : Allocation) : bool :=
  String.eqb (branch a) i.1 && String.eqb (section a) i.2.

(** Sum of [students] over all records (error or not) of an identity. *)
Definition groupSum (i : string * string) (res : list Allocation) : Z :=
  sumZ (map students (List.filter (ofGroup i) res)).

Definition hasIdentity (i : string * string) (s : Group) : bool :=
  String.eqb (s_branch s) i.1 && String.eqb (s_section s) i.2.

(** Sum of the sizes of the groups of a list that bear an identity. *)
Definition demand (i : string * string) (l : list Group) : Z :=
  sumZ (map s_students (List.filter (hasIdentity i) l)).

(** Non-error records that reference room [k], in emission order. *)
Definition inRoom (k : string) (a : Allocation) : bool :=
  negb (is_error a) && String.eqb (roomNo a) k.

Definition roomRecords (k : string) (res : list Allocation) : list Allocation :=
  List.filter (inRoom k) res.

Definition roomSum (k : string) (res : list Allocation) : Z :=
  sumZ (map students (roomRecords k res)).

(** Seat ranges chained from [prevEnd]: each record starts one seat after
    the previous end and ends at start + students - 1. The result is the
    last seat of the chain, [None] when the chain is broken. *)
Fixpoint chainEnd (prevEnd : Z) (l : list Allocation) : option Z :=
  match l with
  | [] => Some prevEnd
  | a :: l' =>
    match startSeat a, endSeat a with
    | Some st, Some en =>
      if (st =? prevEnd + 1) && (en =? st + students a - 1)
      then chainEnd en l' else None
    | _, _ => None
    end
  end.

Definition seatChain (l : list Allocation) : bool :=
  match chainEnd 0 l with Some _ => true | None => false end.


(** Nothing was seated when a record was emitted after [pre]. *)
Definition noneSeatedBefore (pre : list Allocation) : Prop := nonError pre = [].

(** Room [k] already had occupants when a record was emitted after [pre]. *)
Definition occupiedBefore (k : string) (pre : list Allocation) : Prop :=
  roomRecords k pre ≠ [].

(** Min-chunk respect in the words of the specification: a non-error
    record below the threshold is the first placement of the run or tops
    off an occupied room. *)
Definition minChunkRespect (minChunk : Z) (res : list Allocation) : Prop :=
  ∀ pre a post, res = pre ++ a :: post →
    is_error a = false → students a < minChunk →
    noneSeatedBefore pre ∨ occupiedBefore (roomNo a) pre.

(** The record fills a room of the catalog that was empty, to its
    capacity. *)
Definition fillsEmptyRoom (roomBlocks : list RoomBlock) (pre : list Allocation)
    (a : Allocation) : Prop :=
  roomRecords (roomNo a) pre = []
  ∧ ∃ room, room ∈ catalogRooms roomBlocks ∧ no room = roomNo a
            ∧ students a = capacity room.

(** Students of the record's group are left after it: a later record of
    the output, seat or error, bears the same branch and section. *)
Definition studentsLeftAfter (a : Allocation) (post : list Allocation) : Prop :=
  ∃ b, b ∈ post ∧ branch b = branch a ∧ section b = section a.

(** Min-chunk respect as the guard of the scans has it: the third way for a
    record to lie below the threshold is a room smaller than the threshold
    that the record fills while its group has students left. *)
Definition minChunkRespectAmended (roomBlocks : list RoomBlock) (minChunk : Z)
    (res : list Allocation) : Prop :=
  ∀ pre a post, res = pre ++ a :: post →
    is_error a = false → students a < minChunk →
    noneSeatedBefore pre ∨ occupiedBefore (roomNo a) pre
    ∨ (fillsEmptyRoom roomBlocks pre a ∧ studentsLeftAfter a post).

(** Where the rule is stated. The perfect-fit step of Greedy Lookahead seats
    a group whose size is the capacity of a room without consulting the
    guard; it cannot seat fewer than [minChunk] students when no room is
    smaller than [minChunk]. The other strategies need no condition. *)
Definition guardInForce (algorithm : Z) (roomBlocks : list RoomBlock)
    (minChunk : Z) : Prop :=
  if algorithm =? 3
  then Forall (λ room, minChunk ≤ capacity room) (catalogRooms roomBlocks)
  else True.

(** The scan of strategies 1 and 2 reaches [room] with [remaining] students
    to seat and places the chunk [min(spare, remaining)] there. *)
Definition scanPlaces (minChunk : Z) (allRooms : list FlatRoom) (s : Group)
    (room : FlatRoom) (rest : list FlatRoom) (st : AllocResult) (remaining : Z) : Prop :=
  let used := usage (roomUsage st) (fr_no room) in
  let toAllocate := Z.min (fr_capacity room - used) remaining in
  greedyRooms minChunk allRooms s (room :: rest) st remaining
  = greedyRooms minChunk allRooms s rest
      (place st (seatRecord s room used toAllocate (partialFlag s toAllocate))
             (fr_no room) (used + toAllocate))
      (remaining - toAllocate).

(** The scan reaches [room] and goes on without placing anything there. *)
Definition scanSkips (minChunk : Z) (allRooms : list FlatRoom) (s : Group)
    (room : FlatRoom) (rest : list FlatRoom) (st : AllocResult) (remaining : Z) : Prop :=
  greedyRooms minChunk allRooms s (room :: rest) st remaining
  = greedyRooms minChunk allRooms s rest st remaining.

(** The seated records of an output, as (group, room, students, first
    seat, last seat). *)
Definition placements (res : list Allocation)
    : list (string * string * Z * option Z * option Z) :=
  map (λ a, (branch a, roomNo a, students a, startSeat a, endSeat a)) (nonError res).

Definition errorRecords (res : list Allocation) : list Allocation :=
  List.filter is_error res.

(** A block is eligible in a state when its index is at most the cursor. *)
Definition eligibleBlock (st : FfdState) (blockIdx : nat) : Prop :=
  (blockIdx ≤ maxBlockIdx st)%nat.

(** The states that the loop of section [s] goes through when it starts
    from [st] with [remaining] students to seat. *)
Inductive visitsState (blocks : list (list string)) (minChunk : Z)
    (allRooms : list FlatRoom) (s : Group) : FfdState → Z → FfdState → Prop :=
  | visits_here st remaining : visitsState blocks minChunk allRooms s st remaining st
  | visits_next st remaining st' remaining' v :
      0 < remaining →
      ffdTurn blocks minChunk allRooms s st remaining = Some (Placed st' remaining') →
      visitsState blocks minChunk allRooms s st' remaining' v →
      visitsState blocks minChunk allRooms s st remaining v.

(** The unlock rule: a turn that places a chunk moves the cursor by one
    when every room of the block under the cursor has usage above 0 after
    the placement and the cursor is not on the last block; otherwise it
    leaves the cursor where it is. *)
Definition unlockRule (blocks : list (list string)) (minChunk : Z)
    (allRooms : list FlatRoom) : Prop :=
  ∀ s st remaining st' remaining',
    ffdTurn blocks minChunk allRooms s st remaining = Some (Placed st' remaining') →
    ∃ currentBlockRooms,
      blocks !! maxBlockIdx st = Some currentBlockRooms
      ∧ maxBlockIdx st'
        = if forallb (λ rn, 0 <? usage (roomUsage (f_out st')) rn) currentBlockRooms
             && (maxBlockIdx st <? length blocks - 1)%nat
          then S (maxBlockIdx st) else maxBlockIdx st.

(** The cursor along a run over the groups [pending] that ends in [final]: it
    never decreases from one group to the next, and every block eligible in
    a state that the loop of a group goes through is eligible in every
    state that the loop of the next group goes through. *)
Definition cursorMonotone (blocks : list (list string)) (minChunk : Z)
    (allRooms : list FlatRoom) (pending : list Group) (final : FfdState) : Prop :=
  ∀ done g g' todo, pending = done ++ g :: g' :: todo →
    ∃ before mid after,
      ffdSections blocks minChunk allRooms done ffdInit = Some before
      ∧ ffdSection blocks minChunk allRooms before g = Some mid
      ∧ ffdSection blocks minChunk allRooms mid g' = Some after
      ∧ (maxBlockIdx ffdInit ≤ maxBlockIdx before)%nat
      ∧ (maxBlockIdx before ≤ maxBlockIdx mid)%nat
      ∧ (maxBlockIdx mid ≤ maxBlockIdx after)%nat
      ∧ (maxBlockIdx after ≤ maxBlockIdx final)%nat
      ∧ ∀ v v',
          visitsState blocks minChunk allRooms g before (s_students g) v →
          visitsState blocks minChunk allRooms g' mid (s_students g') v' →
          ∀ blockIdx, eligibleBlock v blockIdx → eligibleBlock v' blockIdx.

(** ** Placement steps

    Every strategy changes its output in two ways only: it seats [n]
    students in a room at the room's fill level, or it records an unseatable
    remainder. The properties of the output are proved once, for every
    output reachable by such steps. *)

Section StepDefinitions.

Variable minChunk : Z.
Variable allRooms : list FlatRoom.

(** A record below [minChunk] is justified by what was emitted before it. *)
Definition smallOk (pre : list Allocation) (a : Allocation) : Prop :=
  is_error a = false → students a < minChunk →
  nonError pre = []
  ∨ roomRecords (roomNo a) pre ≠ []
  ∨ (roomRecords (roomNo a) pre = []
     ∧ ∃ room, room ∈ allRooms ∧ fr_no room = roomNo a
               ∧ students a = fr_capacity room).

Definition allSmallOk (res : list Allocation) : Prop :=
  ∀ pre a post, res = pre ++ a :: post → smallOk pre a.

Inductive step : AllocResult → AllocResult → Prop :=
  | step_seat st s room n part :
      room ∈ allRooms →
      0 < n →
      n ≤ fr_capacity room - usage (roomUsage st) (fr_no room) →
      (minChunk ≤ n
       ∨ 0 < usage (roomUsage st) (fr_no room)
       ∨ nonError (result st) = []
       ∨ (usage (roomUsage st) (fr_no room) = 0 ∧ n = fr_capacity room)) →
      step st (place st
                 (seatRecord s room (usage (roomUsage st) (fr_no room)) n part)
                 (fr_no room) (usage (roomUsage st) (fr_no room) + n))
  | step_error st s n :
      0 < n → step st (pushError st s n).

Definition reach : AllocResult → Prop := rtc step emptyResult.

(** What every output reachable by placement steps satisfies. *)
Record Inv (st : AllocResult) : Prop := mkInv {
  inv_chain : ∀ k, chainEnd 0 (roomRecords k (result st)) = Some (usage (roomUsage st) k);
  inv_pos : ∀ a, a ∈ result st → 0 < students a;
  inv_upos : ∀ k v, roomUsage st !! k = Some v → 0 < v;
  inv_keys : ∀ k, is_Some (roomUsage st !! k) → ∃ r, r ∈ allRooms ∧ fr_no r = k;
  inv_cap : ∀ r v, r ∈ allRooms → roomUsage st !! fr_no r = Some v → v ≤ fr_capacity r;
  inv_err : ∀ a, a ∈ result st → is_error a = true → roomNo a = NO_SPACE;
  inv_small : allSmallOk (result st)
}.

End StepDefinitions.

Arguments inv_chain {minChunk allRooms st}.
Arguments inv_pos {minChunk allRooms st}.
Arguments inv_upos {minChunk allRooms st}.
Arguments inv_keys {minChunk allRooms st}.
Arguments inv_cap {minChunk allRooms st}.
Arguments inv_err {minChunk allRooms st}.
Arguments inv_small {minChunk allRooms st}.

(** ** What the loops of strategies 3 and 4 maintain

    [U] stands for the uniqueness of room ids in the catalog: the outputs
    are reachable by placement steps when it holds; termination, the
    accounting of students and the block cursor do not depend on it. *)

Section LoopDefinitions.

Variable blocks : list (list string).
Variable minChunk : Z.
Variable allRooms : list FlatRoom.
Variable U : Prop.

Abbreviation reachU st := (U → reach minChunk allRooms st).

(** What a turn of the loop guarantees when it places a chunk. *)
Definition turnOk (s : Group) (st : FfdState) (remaining : Z) (t : Turn) : Prop :=
  match t with
  | Break => True
  | Placed st' remaining' =>
    reachU (f_out st') ∧ 0 ≤ remaining' < remaining
    ∧ unlock blocks (roomUsage (f_out st')) (maxBlockIdx st) = Some (maxBlockIdx st')
    ∧ ∀ i, groupSum i (result (f_out st')) + (if hasIdentity i s then remaining' else 0)
           = groupSum i (result (f_out st)) + (if hasIdentity i s then remaining else 0)
  end.

(** What the loop of one section guarantees. *)
Definition whileOk (s : Group) (st : FfdState) (remaining : Z)
    (r : FfdState * Z) : Prop :=
  reachU (f_out r.1) ∧ 0 ≤ r.2
  ∧ (maxBlockIdx st ≤ maxBlockIdx r.1)%nat
  ∧ (maxBlockIdx r.1 < length blocks)%nat
  ∧ ∀ i, groupSum i (result (f_out r.1)) + (if hasIdentity i s then r.2 else 0)
         = groupSum i (result (f_out st)) + (if hasIdentity i s then remaining else 0).

(** What processing one section guarantees. *)
Definition sectionOk (s : Group) (st st' : FfdState) : Prop :=
  reachU (f_out st')
  ∧ (maxBlockIdx st ≤ maxBlockIdx st')%nat
  ∧ (maxBlockIdx st' < length blocks)%nat
  ∧ ∀ i, groupSum i (result (f_out st'))
         = groupSum i (result (f_out st)) + (if hasIdentity i s then s_students s else 0).

(** The output as it stands while a room is being filled: what the body of
    the room loop writes at its end, read at any turn of the fill loop. *)
Definition ghost (out : AllocResult) (room : FlatRoom) (fs : FillState) : AllocResult :=
  {| result := result out ++ allocationsForRoom fs;
     roomUsage :=
       if bool_decide (allocationsForRoom fs = []) then roomUsage out
       else <[fr_no room := fr_capacity room - seatsLeft fs]> (roomUsage out) |}.

Record fillInv (K : string * string → Z) (out : AllocResult) (room : FlatRoom)
    (fs : FillState) : Prop := mkFillInv {
  fi_reach : reachU (ghost out room fs);
  fi_fresh : U → roomUsage out !! fr_no room = None;
  fi_empty : allocationsForRoom fs = [] → seatsLeft fs = fr_capacity room;
  fi_filled : allocationsForRoom fs ≠ [] → 0 < fr_capacity room - seatsLeft fs;
  fi_pool : Forall (λ s, 0 < s_students s) (sectionLeft fs);
  fi_acc : ∀ i, groupSum i (result (ghost out room fs)) + demand i (sectionLeft fs) = K i
}.

(** What holds between two rooms. *)
Record lookInv (K : string * string → Z) (st : LookState) : Prop := mkLookInv {
  li_reach : reachU (l_out st);
  li_pool : Forall (λ s, 0 < s_students s) (l_sectionLeft st);
  li_acc : ∀ i, groupSum i (result (l_out st)) + demand i (l_sectionLeft st) = K i
}.

End LoopDefinitions.

Arguments fi_reach {minChunk allRooms U K out room fs}.
Arguments fi_fresh {minChunk allRooms U K out room fs}.
Arguments fi_empty {minChunk allRooms U K out room fs}.
Arguments fi_filled {minChunk allRooms U K out room fs}.
Arguments fi_pool {minChunk allRooms U K out room fs}.
Arguments fi_acc {minChunk allRooms U K out room fs}.
Arguments li_reach {minChunk allRooms U K st}.
Arguments li_pool {minChunk allRooms U K st}.
Arguments li_acc {minChunk allRooms U K st}.

(** ** What the guard of the scans maintains, record by record *)

Section GuardDefinitions.

Variable minChunk : Z.
Variable allRooms : list FlatRoom.

(** The group whose students are being seated, while it has some left. *)
Definition leftOf (s : Group) (remaining : Z) : option (string * string) :=
  if 0 <? remaining then Some (s_branch s, s_section s) else None.

(** A record below the threshold that fills an empty room has a later
    record of its group, or its group is the one being seated. *)
Definition guardedOk (cur : option (string * string)) (pre : list Allocation)
    (a : Allocation) (post : list Allocation) : Prop :=
  is_error a = false → students a < minChunk →
  nonError pre = []
  ∨ roomRecords (roomNo a) pre ≠ []
  ∨ (roomRecords (roomNo a) pre = []
     ∧ (∃ room, room ∈ allRooms ∧ fr_no room = roomNo a
                ∧ students a = fr_capacity room)
     ∧ (studentsLeftAfter a post ∨ cur = Some (branch a, section a))).

Definition allGuardedOk (cur : option (string * string))
    (res : list Allocation) : Prop :=
  ∀ pre a post, res = pre ++ a :: post → guardedOk cur pre a post.

End GuardDefinitions.

(** ** Vocabulary of the further properties *)

(** A well-formed placement: it names a room of a block of the catalog
    together with that block's name, its seats lie in the room, and it is
    not marked as an emergency. *)
Definition placementIn (roomBlocks : list RoomBlock) (a : Allocation) : Prop :=
  ∃ block room st en,
    block ∈ roomBlocks ∧ room ∈ rooms block
    ∧ roomNo a = no room ∧ blockName a = Some (name block)
    ∧ startSeat a = Some st ∧ endSeat a = Some en
    ∧ 1 ≤ st ∧ st ≤ en ∧ en = st + students a - 1 ∧ en ≤ capacity room
    ∧ emergency a = None.

(** A well-formed error record: the marker as room, a positive number of
    students, no seats, no block, no partial and no emergency flag. *)
Definition unseatedRemainder (a : Allocation) : Prop :=
  roomNo a = NO_SPACE ∧ 0 < students a
  ∧ startSeat a = None ∧ endSeat a = None ∧ blockName a = None ∧ partial a = None
  ∧ emergency a = None.

(** The shape of a record in terms of the flattened rooms. *)
Definition recordShape (allRooms : list FlatRoom) (a : Allocation) : Prop :=
  emergency a = None
  ∧ ((is_error a = false
      ∧ ∃ room, room ∈ allRooms ∧ roomNo a = fr_no room
                ∧ blockName a = Some (fr_blockName room))
     ∨ (is_error a = true ∧ roomNo a = NO_SPACE
        ∧ startSeat a = None ∧ endSeat a = None ∧ blockName a = None
        ∧ partial a = None)).

(** A flattened room comes from a block of the catalog and carries its
    name. *)
Definition fromBlock (roomBlocks : list RoomBlock) (r : FlatRoom) : Prop :=
  ∃ block, block ∈ roomBlocks ∧ fr_room r ∈ rooms block ∧ fr_blockName r = name block.

(** The identity that a record carries. *)
Definition recordIdentity (a : Allocation) : string * string := (branch a, section a).

(** What the partial flag of a seat record says, [size] giving the size of
    the group of an identity: a flagged record holds fewer students than
    its group has; a record without the flag holds the whole group, or what
    was left of it after a flagged record of [res]. *)
Definition flagOk (size : string * string → Z) (res : list Allocation)
    (a : Allocation) : Prop :=
  is_error a = false →
  if flaggedPartial a then students a < size (recordIdentity a)
  else students a = size (recordIdentity a)
       ∨ ∃ b, b ∈ res ∧ recordIdentity b = recordIdentity a ∧ flaggedPartial b = true.

(** Every record of an output bears its partial flag rightly. *)
Definition flagsOk (size : string * string → Z) (res : list Allocation) : Prop :=
  ∀ a, a ∈ res → flagOk size res a.

(** A flagged record with the identity [i] is on the output. *)
Definition splitOn (res : list Allocation) (i : string * string) : Prop :=
  ∃ b, b ∈ res ∧ recordIdentity b = i ∧ flaggedPartial b = true.

(** What holds of the partial flags at the head of the loop of strategy 4
    for the section [s]: a section that is not whole any more has a flagged
    record on the output. *)
Definition whileFlags (size : string * string → Z) (s : Group) (st : FfdState)
    (remaining : Z) : Prop :=
  flagsOk size (result (f_out st)) ∧ 0 ≤ remaining ≤ s_students s
  ∧ (0 < remaining →
     remaining = s_students s ∨ splitOn (result (f_out st)) (identity s)).

(** What holds of a section that strategy 3 still has to seat: its count
    is positive and at most the size of its group, and when it is less a
    flagged record of the group is on the output. *)
Definition pendingOk (size : string * string → Z) (res : list Allocation)
    (s : Group) : Prop :=
  0 < s_students s ≤ size (identity s)
  ∧ (s_students s = size (identity s) ∨ splitOn res (identity s)).

(** The key under which the results of a group are shown. *)
Definition groupKey (g : Group) : string := s_branch g +:+ "-" +:+ s_section g.

(** The blocks of the table are taken in order: every placement is in a
    room that the table puts in a block up to the cursor, and every room of
    a block before the cursor holds at least one student. *)
Definition blocksInOrder (blocks : list (list string)) (st : FfdState) : Prop :=
  (∀ a, a ∈ result (f_out st) → is_error a = false →
        ∃ j, roomToBlockIdx blocks !! roomNo a = Some j ∧ (j ≤ maxBlockIdx st)%nat)
  ∧ (∀ i rns rn, (i < maxBlockIdx st)%nat → blocks !! i = Some rns → rn ∈ rns →
        0 < usage (roomUsage (f_out st)) rn).

(** The seats of a room that are still free. *)
Definition spare (u : gmap string Z) (room : FlatRoom) : Z :=
  fr_capacity room - usage u (fr_no room).

(** A room that the best-fit scan may choose: its block is unlocked and it
    has room for all the students that remain. *)
Definition fitsWhole (blocks : list (list string)) (cursor : nat)
    (u : gmap string Z) (remaining : Z) (room : FlatRoom) : Prop :=
  blockLocked blocks cursor room = false ∧ remaining ≤ spare u room.

(** All rows that the room-wise display draws, block after block. *)
Definition displayedRows (roomBlocks : list RoomBlock)
    (allocation : list Allocation) : list RoomRow :=
  concat (map snd (roomWiseDisplay roomBlocks allocation)).

(** A string without ["-"]. *)
Fixpoint dashFree (s : string) : bool :=
  match s with
  | EmptyString => true
  | String c s' => negb (Ascii.eqb c "-"%char) && dashFree s'
  end.

(** ** Catalogs and groups of the examples *)

(** A room too small for the threshold next to a large one. *)
Definition tinyCatalog (cap : Z) : list RoomBlock :=
  [mkBlock "Main Block" [mkRoom "A" 50 []; mkRoom "B" cap []]].
Definition bigX : Group := mkGroup 1 "X" "1" 50.
Definition smallY : Group := mkGroup 2 "Y" "1" 5.

(** Two rooms and two groups for the topping-off example. *)
Definition topCatalog : list RoomBlock :=
  [mkBlock "Main Block" [mkRoom "A" 50 []; mkRoom "B" 30 []]].
Definition topX : Group := mkGroup 1 "X" "1" 47.
Definition topY : Group := mkGroup 2 "Y" "1" 20.

Definition demoCatalog (cap : Z) : list RoomBlock :=
  imap (λ i b, mkBlock (default "" (head b)) (map (λ n, mkRoom n cap []) b)) orderedRoomBlocks.

(** The rooms of the block table with 30 seats each, except for one room
    of the first block that has none. *)
Definition deadRoomCatalog : list RoomBlock :=
  imap (λ i b, mkBlock (default "" (head b))
                 (map (λ n, mkRoom n (if String.eqb n "APJ-3" then 0 else 30) []) b))
       orderedRoomBlocks.

Definition topRooms : list FlatRoom := sortedRooms topCatalog.
Definition topRoomA : FlatRoom := mkFlat (mkRoom "A" 50 []) "Main Block".
Definition topRoomB : FlatRoom := mkFlat (mkRoom "B" 30 []) "Main Block".
(** The output once X = 47 is seated in room A. *)
Definition topState : AllocResult := greedySection 10 topRooms emptyResult topX.

#[local] Instance uniqueRoomIds_dec roomBlocks : Decision (uniqueRoomIds roomBlocks).
Proof. unfold uniqueRoomIds. apply _. Defined.

#[local] Instance catalogCovers_dec blocks roomBlocks :
  Decision (catalogCovers blocks roomBlocks).
Proof. unfold catalogCovers. apply _. Defined.

Ltac by_evaluation := apply (bool_decide_unpack _); vm_compute; exact I.

(** A catalog with one room of capacity 0 next to the rooms of the
    scenario. *)
Definition scnEmptyRoom : Room := mkRoom "Z" 0 [].
Definition scnCatalogZ : list RoomBlock :=
  [mkBlock "Main Block" [scnA; scnB; scnC]; mkBlock "Annex" [scnEmptyRoom]].

(** * Properties *)

(** ** Sums, filters and the stable sort *)

Lemma sumZ_app l1 l2 : sumZ (l1 ++ l2) = sumZ l1 + sumZ l2.
Proof. induction l1 as [|x l1 IH]; simpl; lia. Qed.

Lemma roomRecords_app k l1 l2 :
  roomRecords k (l1 ++ l2) = roomRecords k l1 ++ roomRecords k l2.
Proof. apply List.filter_app. Qed.

Lemma nonError_app l1 l2 : nonError (l1 ++ l2) = nonError l1 ++ nonError l2.
Proof. apply List.filter_app. Qed.

Lemma roomSum_app k l1 l2 : roomSum k (l1 ++ l2) = roomSum k l1 + roomSum k l2.
Proof. unfold roomSum. by rewrite roomRecords_app, map_app, sumZ_app. Qed.

Lemma groupSum_app i l1 l2 : groupSum i (l1 ++ l2) = groupSum i l1 + groupSum i l2.
Proof. unfold groupSum. by rewrite List.filter_app, map_app, sumZ_app. Qed.

Lemma demand_app i l1 l2 : demand i (l1 ++ l2) = demand i l1 + demand i l2.
Proof. unfold demand. by rewrite List.filter_app, map_app, sumZ_app. Qed.

Lemma demand_cons i s l :
  demand i (s :: l) = (if hasIdentity i s then s_students s else 0) + demand i l.
Proof. unfold demand. simpl. destruct (hasIdentity i s); simpl; lia. Qed.

Lemma insert_desc_perm {A} (key : A → Z) x l : insert_desc key x l ≡ₚ x :: l.
Proof.
  induction l as [|y l IH]; simpl; [done|].
  destruct (key y <=? key x); [done|].
  rewrite IH. apply Permutation_swap.
Qed.

Lemma sort_desc_perm {A} (key : A → Z) l : sort_desc key l ≡ₚ l.
Proof.
  induction l as [|x l IH]; simpl; [done|].
  unfold sort_desc in *. simpl. by rewrite insert_desc_perm, IH.
Qed.

Lemma demand_perm i l1 l2 : l1 ≡ₚ l2 → demand i l1 = demand i l2.
Proof.
  induction 1 as [|x l l' _ IH|x y l|l l' l'' _ IH1 _ IH2].
  - done.
  - rewrite !demand_cons. lia.
  - rewrite !demand_cons. lia.
  - congruence.
Qed.

Lemma usage_insert u k v k' :
  usage (<[k := v]> u) k' = if decide (k = k') then v else usage u k'.
Proof.
  unfold usage. rewrite lookup_insert. by destruct (decide (k = k')).
Qed.

Lemma chainEnd_app p l1 l2 :
  chainEnd p (l1 ++ l2) = chainEnd p l1 ≫= λ e, chainEnd e l2.
Proof.
  revert p. induction l1 as [|a l1 IH]; intros p; simpl; [done|].
  destruct (startSeat a) as [st|]; [|done].
  destruct (endSeat a) as [en|]; [|done].
  destruct ((st =? p + 1) && (en =? st + students a - 1)); [apply IH|done].
Qed.

Lemma chainEnd_sum p l e :
  chainEnd p l = Some e → e = p + sumZ (map students l).
Proof.
  revert p. induction l as [|a l IH]; intros p; simpl.
  - intros [= <-]. lia.
  - destruct (startSeat a) as [st|]; [|done].
    destruct (endSeat a) as [en|]; [|done].
    destruct ((st =? p + 1) && (en =? st + students a - 1)) eqn:E; [|done].
    intros H. apply IH in H. apply andb_prop in E as [E1 E2]. lia.
Qed.

(** ** Placement steps and what they preserve

    Every strategy changes its output in two ways only: it seats [n]
    students in a room at the room's fill level, or it records an unseatable
    remainder. The properties of the output are proved once, for every
    output reachable by such steps. *)

Section Steps.

Variable minChunk : Z.
Variable allRooms : list FlatRoom.

Local Abbreviation smallOk := (smallOk minChunk allRooms).
Local Abbreviation allSmallOk := (allSmallOk minChunk allRooms).
Local Abbreviation step := (step minChunk allRooms).
Local Abbreviation reach := (reach minChunk allRooms).
Local Abbreviation Inv := (Inv minChunk allRooms).

(** Rooms that share an id share a capacity (true of a catalog with unique
    ids, and of rooms looked up by id). *)
Hypothesis idCapacity : ∀ r r', r ∈ allRooms → r' ∈ allRooms →
  fr_no r = fr_no r' → fr_capacity r = fr_capacity r'.


Lemma Inv_usage_nonneg st k : Inv st → 0 ≤ usage (roomUsage st) k.
Proof.
  intros I. unfold usage. destruct (roomUsage st !! k) as [v|] eqn:E; simpl; [|lia].
  pose proof (inv_upos I _ _ E). lia.
Qed.

Lemma Inv_roomSum st k : Inv st → roomSum k (result st) = usage (roomUsage st) k.
Proof.
  intros I. pose proof (chainEnd_sum _ _ _ (inv_chain I k)). unfold roomSum. lia.
Qed.

Lemma sum_pos_nonneg (l : list Allocation) :
  (∀ a, a ∈ l → 0 < students a) → 0 ≤ sumZ (map students l).
Proof.
  induction l as [|b l IH]; simpl; intros H; [lia|].
  assert (0 < students b) by (apply H; apply list_elem_of_here).
  assert (0 ≤ sumZ (map students l)); [|lia].
  apply IH. intros c Hc. apply H. by apply list_elem_of_further.
Qed.

Lemma sum_pos_nil (l : list Allocation) :
  (∀ a, a ∈ l → 0 < students a) → sumZ (map students l) ≤ 0 → l = [].
Proof.
  destruct l as [|a l]; [done|]. intros H. simpl.
  assert (0 ≤ sumZ (map students l)).
  { apply sum_pos_nonneg. intros c Hc. apply H. by apply list_elem_of_further. }
  assert (0 < students a) by (apply H; apply list_elem_of_here). lia.
Qed.

Lemma roomRecords_elem k res a : a ∈ roomRecords k res → a ∈ res.
Proof.
  unfold roomRecords. rewrite !list_elem_of_In, List.filter_In. tauto.
Qed.

Lemma Inv_empty_room st k :
  Inv st → usage (roomUsage st) k = 0 → roomRecords k (result st) = [].
Proof.
  intros I E. apply sum_pos_nil.
  - intros a Ha. apply (inv_pos I). by eapply roomRecords_elem.
  - pose proof (Inv_roomSum st k I). unfold roomSum in *. lia.
Qed.

Lemma Inv_occupied_room st k :
  Inv st → 0 < usage (roomUsage st) k → roomRecords k (result st) ≠ [].
Proof.
  intros I E Hnil. pose proof (Inv_roomSum st k I) as H.
  unfold roomSum in H. rewrite Hnil in H. simpl in H. lia.
Qed.

Lemma nonError_nil res :
  (∀ k, roomRecords k res = []) → nonError res = [].
Proof.
  intros H. induction res as [|a res IH]; [done|].
  assert (∀ k, roomRecords k res = []) as H'.
  { intros k. specialize (H k). unfold roomRecords in *. simpl in H.
    destruct (inRoom k a); [done|exact H]. }
  unfold nonError. simpl. destruct (is_error a) eqn:E; simpl; [by apply IH|].
  specialize (H (roomNo a)). unfold roomRecords in H. simpl in H.
  unfold inRoom in H. rewrite E, String.eqb_refl in H. simpl in H. done.
Qed.

(** When [allRooms.some(r => usage > 0)] is false, nothing is seated yet. *)
Lemma Inv_none_seated st :
  Inv st → anyRoomHasStudents allRooms (roomUsage st) = false →
  nonError (result st) = [].
Proof.
  intros I Hany. apply nonError_nil. intros k. apply Inv_empty_room; [done|].
  unfold usage. destruct (roomUsage st !! k) as [v|] eqn:E; [|done]. simpl.
  destruct (inv_keys I k) as (r & Hr & <-); [by eexists|].
  pose proof (inv_upos I _ _ E) as Hv.
  unfold anyRoomHasStudents in Hany.
  assert (existsb (λ r, 0 <? usage (roomUsage st) (fr_no r)) allRooms = true) as Ht.
  { apply existsb_exists. exists r. split; [by apply list_elem_of_In|].
    unfold usage. rewrite E. simpl. lia. }
  congruence.
Qed.

Lemma Inv_init : Inv emptyResult.
Proof.
  split; simpl.
  - intros k. unfold usage. by rewrite lookup_empty.
  - intros a Ha. by apply elem_of_nil in Ha.
  - intros k v. by rewrite lookup_empty.
  - intros k [v Hv]. by rewrite lookup_empty in Hv.
  - intros r v _. by rewrite lookup_empty.
  - intros a Ha. by apply elem_of_nil in Ha.
  - intros pre a post H. by destruct pre.
Qed.

Lemma snoc_split {A} (res pre post : list A) (x a : A) :
  res ++ [x] = pre ++ a :: post →
  (post = [] ∧ pre = res ∧ a = x) ∨ ∃ post', post = post' ++ [x] ∧ res = pre ++ a :: post'.
Proof.
  destruct (decide (post = [])) as [->|Hne].
  - intros H. apply app_inj_tail in H as [-> ->]. by left.
  - destruct (exists_last Hne) as (post' & y & ->). intros H. right.
    replace (pre ++ a :: post' ++ [y]) with ((pre ++ a :: post') ++ [y]) in H
      by (by rewrite <- app_assoc).
    apply app_inj_tail in H as [-> ->]. by exists post'.
Qed.

Lemma allSmallOk_snoc res x :
  allSmallOk res → smallOk res x → allSmallOk (res ++ [x]).
Proof.
  intros H Hx pre a post E. apply snoc_split in E as [(-> & -> & ->)|(post' & -> & ->)].
  - done.
  - by eapply H.
Qed.

Lemma step_Inv st st' : step st st' → Inv st → Inv st'.
Proof.
  intros Hs I. destruct Hs as [st s room n part Hroom Hn Hfit Hsmall | st s n Hn].
  - set (used := usage (roomUsage st) (fr_no room)) in *.
    assert (0 ≤ used) as Hused by (by apply Inv_usage_nonneg).
    split; simpl.
    + intros k. rewrite roomRecords_app, chainEnd_app, (inv_chain I k), usage_insert.
      simpl. unfold inRoom, is_error. simpl.
      destruct (decide (fr_no room = k)) as [<-|Hk].
      * rewrite String.eqb_refl. simpl. fold used.
        rewrite Z.eqb_refl. simpl.
        replace (used + n =? used + 1 + n - 1) with true by lia. done.
      * apply String.eqb_neq in Hk. by rewrite Hk.
    + intros a Ha. apply elem_of_app in Ha as [Ha|Ha]; [by apply (inv_pos I)|].
      apply list_elem_of_singleton in Ha as ->. done.
    + intros k v. rewrite lookup_insert. destruct (decide (fr_no room = k)).
      * intros [= <-]. lia.
      * apply (inv_upos I).
    + intros k. rewrite lookup_insert. destruct (decide (fr_no room = k)) as [<-|].
      * intros _. by exists room.
      * apply (inv_keys I).
    + intros r v Hr. rewrite lookup_insert.
      destruct (decide (fr_no room = fr_no r)) as [E|].
      * intros [= <-]. rewrite <- (idCapacity room r Hroom Hr E). lia.
      * by apply (inv_cap I).
    + intros a Ha. apply elem_of_app in Ha as [Ha|Ha]; [by apply (inv_err I)|].
      apply list_elem_of_singleton in Ha as ->. done.
    + apply allSmallOk_snoc; [apply (inv_small I)|].
      intros _ Hlt. simpl in *.
      destruct Hsmall as [H|[H|[H|[H1 H2]]]].
      * lia.
      * right; left. by apply Inv_occupied_room.
      * by left.
      * right; right. split; [by apply Inv_empty_room|]. by exists room.
  - split; simpl.
    + intros k. rewrite roomRecords_app. simpl.
      rewrite app_nil_r. apply (inv_chain I).
    + intros a Ha. apply elem_of_app in Ha as [Ha|Ha]; [by apply (inv_pos I)|].
      apply list_elem_of_singleton in Ha as ->. done.
    + apply (inv_upos I).
    + apply (inv_keys I).
    + apply (inv_cap I).
    + intros a Ha. apply elem_of_app in Ha as [Ha|Ha]; [by apply (inv_err I)|].
      apply list_elem_of_singleton in Ha as ->. done.
    + apply allSmallOk_snoc; [apply (inv_small I)|]. intros H. done.
Qed.

Lemma reach_Inv st : reach st → Inv st.
Proof.
  unfold reach. revert st. apply rtc_ind_r.
  - apply Inv_init.
  - intros y z _ Hs I. by eapply step_Inv.
Qed.

Lemma reach_step st st' : reach st → step st st' → reach st'.
Proof. intros H Hs. by eapply rtc_r. Qed.

End Steps.

(** ** Facts about the inputs *)

Lemma cons_subseteq_inv {A} (x : A) (l m : list A) :
  x :: l ⊆ m → x ∈ m ∧ l ⊆ m.
Proof.
  intros H. split; [apply H, list_elem_of_here|].
  intros y Hy. by apply H, list_elem_of_further.
Qed.

Lemma validGroup_pos s : validGroup s = true → 0 < s_students s.
Proof. unfold validGroup. intros H. apply andb_prop in H as [_ H]. lia. Qed.

Lemma sectionLeft0_valid sections s :
  s ∈ sectionLeft0 sections → s ∈ sections ∧ validGroup s = true.
Proof.
  unfold sectionLeft0. rewrite sort_desc_perm, list_elem_of_In, List.filter_In.
  by rewrite <- list_elem_of_In.
Qed.

Lemma sectionLeft0_pos sections :
  Forall (λ s, 0 < s_students s) (sectionLeft0 sections).
Proof.
  apply Forall_forall. intros s Hs.
  apply validGroup_pos. by apply sectionLeft0_valid in Hs as [_ ?].
Qed.

Lemma map_fr_no_flatten roomBlocks :
  map fr_no (flattenRooms roomBlocks) = map no (catalogRooms roomBlocks).
Proof.
  unfold flattenRooms, catalogRooms.
  induction roomBlocks as [|b bs IH]; simpl; [done|].
  rewrite !map_app, IH. f_equal. rewrite map_map. done.
Qed.

Lemma sortedRooms_NoDup roomBlocks :
  uniqueRoomIds roomBlocks → NoDup (map fr_no (sortedRooms roomBlocks)).
Proof.
  unfold uniqueRoomIds, sortedRooms. intros H.
  rewrite sort_desc_perm, map_fr_no_flatten. done.
Qed.

Lemma sortedRooms_elem roomBlocks r :
  r ∈ sortedRooms roomBlocks → fr_room r ∈ catalogRooms roomBlocks.
Proof.
  unfold sortedRooms. rewrite sort_desc_perm. unfold flattenRooms, catalogRooms.
  rewrite !list_elem_of_In, !in_flat_map. intros (b & Hb & Hr).
  exists b. split; [done|]. apply in_map_iff in Hr as (x & <- & Hx). done.
Qed.

Lemma catalog_in_sortedRooms roomBlocks room :
  room ∈ catalogRooms roomBlocks →
  ∃ r, r ∈ sortedRooms roomBlocks ∧ fr_room r = room.
Proof.
  unfold sortedRooms, flattenRooms, catalogRooms.
  rewrite list_elem_of_In, in_flat_map. intros (b & Hb & Hr).
  exists (mkFlat room (name b)). split; [|done].
  rewrite sort_desc_perm, list_elem_of_In, in_flat_map.
  exists b. split; [done|]. apply in_map_iff. by exists room.
Qed.

Lemma NoDup_map_inj {A B} (f : A → B) (l : list A) x y :
  NoDup (map f l) → x ∈ l → y ∈ l → f x = f y → x = y.
Proof.
  induction l as [|z l IH]; simpl; intros Hnd Hx Hy E.
  - by apply elem_of_nil in Hx.
  - apply NoDup_cons in Hnd as [Hz Hnd].
    apply elem_of_cons in Hx as [->|Hx]; apply elem_of_cons in Hy as [->|Hy].
    + done.
    + exfalso. apply Hz. rewrite E. by apply list_elem_of_fmap_2.
    + exfalso. apply Hz. rewrite <- E. by apply list_elem_of_fmap_2.
    + by apply IH.
Qed.

Lemma sortedRooms_idCapacity roomBlocks r r' :
  uniqueRoomIds roomBlocks →
  r ∈ sortedRooms roomBlocks → r' ∈ sortedRooms roomBlocks →
  fr_no r = fr_no r' → fr_capacity r = fr_capacity r'.
Proof.
  intros H Hr Hr' E.
  by rewrite (NoDup_map_inj fr_no _ r r' (sortedRooms_NoDup _ H) Hr Hr' E).
Qed.

(** ** Strategies 1 and 2: every output is reachable by placement steps *)

Section GreedyProofs.

Variable minChunk : Z.
Variable allRooms : list FlatRoom.
Hypothesis idCapacity : ∀ r r', r ∈ allRooms → r' ∈ allRooms →
  fr_no r = fr_no r' → fr_capacity r = fr_capacity r'.

Abbreviation reachG := (reach minChunk allRooms).
Abbreviation InvG := (Inv minChunk allRooms).

(** What a passed guard says about a chunk. *)
Lemma guard_justifies st room remaining :
  InvG st → 0 < remaining →
  0 < fr_capacity room - usage (roomUsage st) (fr_no room) →
  guardSkips minChunk allRooms (roomUsage st) (usage (roomUsage st) (fr_no room))
    (Z.min (fr_capacity room - usage (roomUsage st) (fr_no room)) remaining)
    remaining = false →
  let n := Z.min (fr_capacity room - usage (roomUsage st) (fr_no room)) remaining in
  minChunk ≤ n
  ∨ 0 < usage (roomUsage st) (fr_no room)
  ∨ nonError (result st) = []
  ∨ (usage (roomUsage st) (fr_no room) = 0 ∧ n = fr_capacity room).
Proof.
  intros I Hrem Hav Hg n. fold n in Hg.
  pose proof (Inv_usage_nonneg _ _ st (fr_no room) I) as Hu.
  set (used := usage (roomUsage st) (fr_no room)) in *.
  destruct (decide (minChunk ≤ n)) as [|Hsmall]; [by left|]. right.
  destruct (decide (0 < used)) as [|Hzero]; [by left|]. right.
  assert (used = 0) as E0 by lia.
  unfold guardSkips in Hg.
  destruct (decide (remaining = n)) as [E|Hne].
  - left. apply (Inv_none_seated minChunk allRooms); [done|].
    replace ((used =? 0) && (n <? minChunk) && (remaining =? n)) with true in Hg by lia.
    done.
  - right. split; [done|]. unfold n in *. lia.
Qed.

Lemma greedyRooms_reach s todo st remaining :
  todo ⊆ allRooms → reachG st → 0 ≤ remaining →
  reachG (greedyRooms minChunk allRooms s todo st remaining).1.
Proof.
  revert st remaining. induction todo as [|room rest IH]; intros st remaining Hsub Hr Hrem; simpl.
  - done.
  - apply cons_subseteq_inv in Hsub as [Hroom Hrest].
    destruct (remaining =? 0) eqn:E0; [done|].
    destruct (fr_capacity room - usage (roomUsage st) (fr_no room) <=? 0) eqn:Eav;
      [by apply IH|].
    destruct (guardSkips _ _ _ _ _ _) eqn:Eg; [by apply IH|].
    apply IH; [done| |lia].
    eapply reach_step; [exact Hr|].
    apply step_seat; [done|lia|lia|].
    apply guard_justifies; [by apply reach_Inv|lia|lia|done].
Qed.

Lemma greedySection_reach st s :
  reachG st → 0 ≤ s_students s → reachG (greedySection minChunk allRooms st s).
Proof.
  intros Hr Hs. unfold greedySection.
  pose proof (greedyRooms_reach s allRooms st (s_students s) (reflexivity _) Hr Hs) as H.
  destruct (greedyRooms _ _ _ _ _ _) as [st' rem]. simpl in H.
  destruct (0 <? rem) eqn:E; [|done].
  eapply reach_step; [exact H|]. apply step_error. lia.
Qed.

Lemma greedy_foldl_reach l st :
  reachG st → Forall (λ s, 0 < s_students s) l →
  reachG (foldl (greedySection minChunk allRooms) st l).
Proof.
  revert st. induction l as [|s l IH]; intros st Hr Hl; simpl; [done|].
  apply Forall_cons in Hl as [Hs Hl].
  apply IH; [|done]. apply greedySection_reach; [done|lia].
Qed.

(** Accounting of one section: what is seated plus what remains. *)
Lemma groupSum_snoc_seat i res s room used n part :
  groupSum i (res ++ [seatRecord s room used n part]) =
  groupSum i res + (if hasIdentity i s then n else 0).
Proof.
  rewrite groupSum_app. f_equal. unfold groupSum, ofGroup, hasIdentity. simpl.
  destruct (_ && _); simpl; lia.
Qed.

Lemma groupSum_snoc_error i res s n :
  groupSum i (res ++ [errorRecord s n]) =
  groupSum i res + (if hasIdentity i s then n else 0).
Proof.
  rewrite groupSum_app. f_equal. unfold groupSum, ofGroup, hasIdentity. simpl.
  destruct (_ && _); simpl; lia.
Qed.

Lemma greedyRooms_account i s todo st remaining :
  0 ≤ remaining →
  let r := greedyRooms minChunk allRooms s todo st remaining in
  0 ≤ r.2 ∧
  groupSum i (result r.1) + (if hasIdentity i s then r.2 else 0) =
  groupSum i (result st) + (if hasIdentity i s then remaining else 0).
Proof.
  revert st remaining. induction todo as [|room rest IH]; intros st remaining Hrem; simpl.
  - done.
  - destruct (remaining =? 0) eqn:E0; [done|].
    destruct (fr_capacity room - usage (roomUsage st) (fr_no room) <=? 0) eqn:Eav;
      [by apply IH|].
    destruct (guardSkips _ _ _ _ _ _) eqn:Eg; [by apply IH|].
    set (n := Z.min _ remaining).
    destruct (IH (place st (seatRecord s room (usage (roomUsage st) (fr_no room)) n
                                  (partialFlag s n)) (fr_no room)
                        (usage (roomUsage st) (fr_no room) + n)) (remaining - n))
      as [H1 H2]; [unfold n; lia|].
    split; [done|]. rewrite H2. simpl. rewrite groupSum_snoc_seat.
    destruct (hasIdentity i s); lia.
Qed.

Lemma greedySection_account i st s :
  0 ≤ s_students s →
  groupSum i (result (greedySection minChunk allRooms st s)) =
  groupSum i (result st) + (if hasIdentity i s then s_students s else 0).
Proof.
  intros Hs. unfold greedySection.
  pose proof (greedyRooms_account i s allRooms st (s_students s) Hs) as [H1 H2].
  destruct (greedyRooms _ _ _ _ _ _) as [st' rem]. simpl in *.
  destruct (0 <? rem) eqn:E; simpl.
  - rewrite groupSum_snoc_error. lia.
  - assert (rem = 0) as -> by lia. destruct (hasIdentity i s); lia.
Qed.

Lemma greedy_foldl_account i l st :
  Forall (λ s, 0 < s_students s) l →
  groupSum i (result (foldl (greedySection minChunk allRooms) st l)) =
  groupSum i (result st) + demand i l.
Proof.
  revert st. induction l as [|s l IH]; intros st Hl; simpl.
  - unfold demand. simpl. lia.
  - apply Forall_cons in Hl as [Hs Hl].
    rewrite IH, greedySection_account, demand_cons by (done || lia). lia.
Qed.

End GreedyProofs.

(** ** Strategy 4: placement steps, termination, accounting and the cursor *)

Section FfdProofs.

Variable blocks : list (list string).
Variable minChunk : Z.
Variable allRooms : list FlatRoom.

(** [U] stands for the uniqueness of room ids in the catalog: the outputs
    are reachable by placement steps when it holds; termination, the
    accounting and the cursor do not depend on it. *)
Variable U : Prop.
Hypothesis idCapacity : U → ∀ r r', r ∈ allRooms → r' ∈ allRooms →
  fr_no r = fr_no r' → fr_capacity r = fr_capacity r'.

Abbreviation reachF st := (U → reach minChunk allRooms st).
Local Abbreviation turnOk := (turnOk blocks minChunk allRooms U).
Local Abbreviation whileOk := (whileOk blocks minChunk allRooms U).
Local Abbreviation sectionOk := (sectionOk blocks minChunk allRooms U).

Lemma unlock_bounds u cursor :
  (cursor < length blocks)%nat →
  ∃ c, unlock blocks u cursor = Some c ∧ (cursor ≤ c)%nat ∧ (c < length blocks)%nat.
Proof.
  intros H. unfold unlock.
  destruct (lookup_lt_is_Some_2 blocks cursor H) as [b ->]. simpl.
  destruct (forallb _ b); simpl.
  - destruct (cursor <? length blocks - 1)%nat eqn:E.
    + exists (S cursor). split; [done|]. apply Nat.ltb_lt in E. lia.
    + exists cursor. split; [done|]. lia.
  - exists cursor. split; [done|]. lia.
Qed.

Lemma unlock_mono u cursor c :
  unlock blocks u cursor = Some c →
  (cursor ≤ c)%nat ∧ ((cursor < length blocks)%nat → (c < length blocks)%nat).
Proof.
  unfold unlock. destruct (blocks !! cursor) as [b|]; [|done]. simpl.
  destruct (forallb _ b && (cursor <? length blocks - 1)%nat) eqn:E; intros [= <-].
  - apply andb_prop in E as [_ E]. apply Nat.ltb_lt in E. lia.
  - lia.
Qed.

Lemma bestFitScan_keeps cursor u remaining todo i j space :
  ∃ j', bestFitScan blocks cursor u remaining todo i (Some j) space = Some j'.
Proof.
  revert i j space. induction todo as [|room rest IH]; intros i j space; simpl.
  - by eexists.
  - destruct (blockLocked blocks cursor room); [apply IH|].
    destruct (_ && _); apply IH.
Qed.

Lemma bestFitScan_spec cursor u remaining todo i best space j :
  bestFitScan blocks cursor u remaining todo i best space = Some j →
  best = Some j
  ∨ ∃ room, todo !! (j - i)%nat = Some room ∧ (i ≤ j)%nat
            ∧ remaining ≤ fr_capacity room - usage u (fr_no room).
Proof.
  revert i best space. induction todo as [|room rest IH]; intros i best space; simpl.
  - intros ->. by left.
  - assert (∀ best' space',
      bestFitScan blocks cursor u remaining rest (S i) best' space' = Some j →
      best' = Some j ∨ ∃ room0, (room :: rest) !! (j - i)%nat = Some room0 ∧ (i ≤ j)%nat
        ∧ remaining ≤ fr_capacity room0 - usage u (fr_no room0)) as Hnext.
    { intros best' space' H. apply IH in H as [H|(room0 & H1 & H2 & H3)]; [by left|].
      right. exists room0. split; [|split; [lia|done]].
      replace (j - i)%nat with (S (j - S i)) by lia. done. }
    destruct (blockLocked blocks cursor room); [apply Hnext|].
    destruct (_ && _) eqn:E; [|apply Hnext].
    intros H. apply Hnext in H as [[= <-]|H]; [|by right].
    right. exists room. rewrite Nat.sub_diag. split; [done|]. split; [done|].
    apply andb_prop in E as [E _]. lia.
Qed.

Lemma firstFitScan_ok s st remaining todo :
  todo ⊆ allRooms → reachF (f_out st) → 0 < remaining →
  (maxBlockIdx st < length blocks)%nat →
  ∃ t, firstFitScan blocks minChunk allRooms s st remaining todo = Some t
       ∧ turnOk s st remaining t.
Proof.
  intros Hsub Hr Hrem Hc. induction todo as [|room rest IH]; simpl.
  - by exists Break.
  - apply cons_subseteq_inv in Hsub as [Hroom Hrest].
    destruct (blockLocked blocks (maxBlockIdx st) room); [by apply IH|].
    destruct (fr_capacity room - usage (roomUsage (f_out st)) (fr_no room) <=? 0) eqn:Eav;
      [by apply IH|].
    destruct (guardSkips _ _ _ _ _ _) eqn:Eg; [by apply IH|].
    set (used := usage (roomUsage (f_out st)) (fr_no room)) in *.
    set (n := Z.min (fr_capacity room - used) remaining) in *.
    unfold placeFfd.
    destruct (unlock_bounds
                (roomUsage (place (f_out st) (seatRecord s room used n (partialFlag s n))
                                  (fr_no room) (used + n)))
                (maxBlockIdx st) Hc) as (c & Hu & _).
    rewrite Hu. simpl. eexists. split; [done|]. simpl.
    split; [|split; [unfold n; lia|split; [done|]]].
    + intros HU. eapply reach_step; [exact (Hr HU)|].
      apply step_seat; [done|unfold n; lia|unfold n; lia|].
      apply (guard_justifies minChunk allRooms);
        [by apply (reach_Inv _ _ (idCapacity HU)), Hr|lia|fold used; lia|done].
    + intros i. rewrite groupSum_snoc_seat. destruct (hasIdentity i s); lia.
Qed.

Lemma ffdTurn_ok s st remaining :
  reachF (f_out st) → 0 < remaining → (maxBlockIdx st < length blocks)%nat →
  ∃ t, ffdTurn blocks minChunk allRooms s st remaining = Some t
       ∧ turnOk s st remaining t.
Proof.
  intros Hr Hrem Hc. unfold ffdTurn.
  destruct (bestFitScan _ _ _ _ _ _ _ _) as [j|] eqn:Eb;
    [|by apply firstFitScan_ok].
  apply bestFitScan_spec in Eb as [?|(room & Hj & _ & Hfit)]; [done|].
  rewrite Nat.sub_0_r in Hj. rewrite Hj. simpl.
  assert (room ∈ allRooms) as Hroom by (by eapply list_elem_of_lookup_2).
  set (used := usage (roomUsage (f_out st)) (fr_no room)) in *.
  destruct (if (used =? 0) && (remaining <? minChunk) && (remaining =? s_students s)
            then anyRoomHasStudents allRooms (roomUsage (f_out st))
            else (remaining <? minChunk) && negb (remaining =? s_students s)) eqn:Estop;
    [by exists Break|].
  unfold placeFfd.
  destruct (unlock_bounds
              (roomUsage (place (f_out st) (seatRecord s room used remaining None)
                                (fr_no room) (used + remaining)))
              (maxBlockIdx st) Hc) as (c & Hu & _).
  rewrite Hu. simpl. eexists. split; [done|]. simpl.
  split; [|split; [lia|split; [done|]]].
  - intros HU. pose proof (reach_Inv _ _ (idCapacity HU) _ (Hr HU)) as Iinv.
    eapply reach_step; [exact (Hr HU)|].
    apply step_seat; [done|lia|fold used; lia|]. fold used.
    pose proof (Inv_usage_nonneg _ _ _ (fr_no room) Iinv) as Hu0.
    fold used in Hu0.
    destruct (decide (minChunk ≤ remaining)) as [|Hsmall]; [by left|]. right.
    destruct (decide (0 < used)) as [|Hzero]; [by left|]. right. left.
    apply (Inv_none_seated minChunk allRooms); [done|].
    destruct (remaining =? s_students s) eqn:Es.
    + replace ((used =? 0) && (remaining <? minChunk)) with true in Estop by lia. done.
    + replace ((used =? 0) && (remaining <? minChunk) && false) with false in Estop
        by (by rewrite andb_false_r).
      simpl in Estop. lia.
  - intros i. rewrite groupSum_snoc_seat. destruct (hasIdentity i s); lia.
Qed.

Lemma ffdWhile_ok s fuel st remaining :
  reachF (f_out st) → 0 ≤ remaining → (maxBlockIdx st < length blocks)%nat →
  (Z.to_nat remaining ≤ fuel)%nat →
  ∃ r, ffdWhile blocks fuel minChunk allRooms s st remaining = Some r
       ∧ whileOk s st remaining r.
Proof.
  revert st remaining. induction fuel as [|fuel IH]; intros st remaining Hr Hrem Hc Hfuel.
  - simpl. replace (0 <? remaining) with false by lia. simpl.
    eexists. split; [done|]. by repeat split.
  - simpl. destruct (0 <? remaining) eqn:E; simpl;
      [|eexists; split; [done|]; by repeat split].
    destruct (ffdTurn_ok s st remaining Hr) as (t & Ht & Hok); [lia|done|].
    rewrite Ht. simpl. destruct t as [st' rem'|];
      [|eexists; split; [done|]; by repeat split].
    destruct Hok as (Hr' & Hrem' & Hu & Hacc).
    apply unlock_mono in Hu as [Hm Hb].
    destruct (IH st' rem') as (r & Hrun & Hr2 & Hpos & Hmono & Hlt & Hacc2);
      [done|lia|by apply Hb|lia|].
    exists r. split; [done|]. repeat split; [done|done|lia|done|].
    intros i. rewrite Hacc2. apply Hacc.
Qed.

Lemma ffdSection_ok st s :
  reachF (f_out st) → 0 ≤ s_students s → (maxBlockIdx st < length blocks)%nat →
  ∃ st', ffdSection blocks minChunk allRooms st s = Some st' ∧ sectionOk s st st'.
Proof.
  intros Hr Hs Hc. unfold ffdSection.
  destruct (ffdWhile_ok s (Z.to_nat (s_students s)) st (s_students s))
    as ([st1 rem] & -> & Hr1 & Hpos & Hmono & Hlt & Hacc); [done..|].
  simpl in *. eexists. split; [done|].
  destruct (0 <? rem) eqn:E; repeat split; simpl; try done.
  - intros HU. eapply reach_step; [exact (Hr1 HU)|]. apply step_error. lia.
  - intros i. rewrite groupSum_snoc_error. apply Hacc.
  - intros i. specialize (Hacc i). assert (rem = 0) as -> by lia.
    destruct (hasIdentity i s); lia.
Qed.

Lemma ffdSections_ok todo st :
  reachF (f_out st) → Forall (λ s, 0 < s_students s) todo →
  (maxBlockIdx st < length blocks)%nat →
  ∃ st', ffdSections blocks minChunk allRooms todo st = Some st'
         ∧ reachF (f_out st')
         ∧ (maxBlockIdx st ≤ maxBlockIdx st')%nat
         ∧ ∀ i, groupSum i (result (f_out st'))
                = groupSum i (result (f_out st)) + demand i todo.
Proof.
  revert st. induction todo as [|s rest IH]; intros st Hr Hpos Hc; simpl.
  - exists st. split; [done|]. repeat split; [done|done|].
    intros i. unfold demand. simpl. lia.
  - apply Forall_cons in Hpos as [Hs Hpos].
    destruct (ffdSection_ok st s Hr) as (st1 & -> & Hr1 & Hm1 & Hc1 & Hacc1); [lia|done|].
    simpl. destruct (IH st1 Hr1 Hpos Hc1) as (st' & Hrun & Hr' & Hm & Hacc).
    exists st'. split; [done|]. repeat split; [done|lia|].
    intros i. rewrite Hacc, Hacc1, demand_cons. lia.
Qed.

End FfdProofs.

(** ** Strategy 3: the scans *)

Lemma findIndex_spec {A} (p : A → bool) (l : list A) i :
  findIndex p l = Some i → ∃ x, l !! i = Some x ∧ p x = true.
Proof.
  revert i. induction l as [|y l IH]; intros i; simpl; [done|].
  destruct (p y) eqn:E.
  - intros [= <-]. by exists y.
  - destruct (findIndex p l) as [j|]; simpl; [|done].
    intros [= <-]. by apply IH.
Qed.

Lemma findIndex_none {A} (p : A → bool) (l : list A) x :
  findIndex p l = None → x ∈ l → p x = false.
Proof.
  induction l as [|y l IH]; simpl; intros H Hx; [by apply elem_of_nil in Hx|].
  destruct (p y) eqn:E; [done|].
  destruct (findIndex p l); [done|].
  apply elem_of_cons in Hx as [->|Hx]; [done|by apply IH].
Qed.

Lemma bestWhole_keeps seats todo i j chunk :
  ∃ j', bestWhole seats todo i (Some j) chunk = Some j'.
Proof.
  revert i j chunk. induction todo as [|s rest IH]; intros i j chunk; simpl.
  - by eexists.
  - destruct (_ && _); apply IH.
Qed.

Lemma bestWhole_spec seats todo i best chunk j :
  bestWhole seats todo i best chunk = Some j →
  best = Some j
  ∨ ∃ s, todo !! (j - i)%nat = Some s ∧ (i ≤ j)%nat
         ∧ s_students s ≤ seats ∧ chunk < s_students s.
Proof.
  revert i best chunk. induction todo as [|s0 rest IH]; intros i best chunk; simpl.
  - intros ->. by left.
  - destruct ((s_students s0 <=? seats) && (chunk <? s_students s0)) eqn:E; intros H.
    + apply andb_prop in E as [E1 E2].
      apply IH in H as [[= <-]|(s & H1 & H2 & H3 & H4)]; right.
      * exists s0. rewrite Nat.sub_diag. split; [done|]. lia.
      * exists s. replace (j - i)%nat with (S (j - S i)) by lia.
        split; [done|]. lia.
    + apply IH in H as [H|(s & H1 & H2 & H3 & H4)]; [by left|right].
      exists s. replace (j - i)%nat with (S (j - S i)) by lia.
      split; [done|]. lia.
Qed.

Lemma bestWhole_none seats todo i chunk s :
  bestWhole seats todo i None chunk = None → s ∈ todo →
  ¬ (s_students s ≤ seats ∧ chunk < s_students s).
Proof.
  revert i. induction todo as [|s0 rest IH]; intros i; simpl; intros H Hs;
    [by apply elem_of_nil in Hs|].
  destruct ((s_students s0 <=? seats) && (chunk <? s_students s0)) eqn:E.
  - destruct (bestWhole_keeps seats rest (S i) i (s_students s0)) as [j' Hj].
    congruence.
  - apply elem_of_cons in Hs as [->|Hs]; [|by eapply IH].
    apply andb_false_iff in E. lia.
Qed.

(** ** Strategy 3: placement steps, termination and accounting *)

Section LookProofs.

Variable minChunk : Z.
Variable allRooms : list FlatRoom.

(** [U] stands for the uniqueness of room ids in the catalog: the outputs
    are reachable by placement steps when it holds; termination and the
    accounting do not depend on it. *)
Variable U : Prop.
Hypothesis uniqueIds : U → NoDup (map fr_no allRooms).

Abbreviation reachL st := (U → reach minChunk allRooms st).
Local Abbreviation fillInv := (fillInv minChunk allRooms U).
Local Abbreviation lookInv := (lookInv minChunk allRooms U).

Lemma look_idCapacity :
  U → ∀ r r', r ∈ allRooms → r' ∈ allRooms → fr_no r = fr_no r' →
              fr_capacity r = fr_capacity r'.
Proof.
  intros HU r r' Hr Hr' E. by rewrite (NoDup_map_inj fr_no _ r r' (uniqueIds HU) Hr Hr' E).
Qed.

Lemma ghost_usage K out room fs :
  fillInv K out room fs → U →
  usage (roomUsage (ghost out room fs)) (fr_no room) = fr_capacity room - seatsLeft fs.
Proof.
  intros I HU. unfold ghost. simpl. case_bool_decide as E.
  - unfold usage. rewrite (fi_fresh I HU). simpl.
    rewrite (fi_empty I E). lia.
  - rewrite usage_insert. by rewrite decide_True.
Qed.

Lemma ghost_place out room fs p n rec :
  ghost out room {| sectionLeft := p; seatsLeft := seatsLeft fs - n;
                    allocationsForRoom := allocationsForRoom fs ++ [rec] |}
  = place (ghost out room fs) rec (fr_no room) (fr_capacity room - seatsLeft fs + n).
Proof.
  unfold ghost, place. simpl. f_equal.
  - by rewrite app_assoc.
  - rewrite bool_decide_eq_false_2 by (by destruct (allocationsForRoom fs)).
    replace (fr_capacity room - (seatsLeft fs - n))
      with (fr_capacity room - seatsLeft fs + n) by lia.
    case_bool_decide; [done|]. by rewrite insert_insert_eq.
Qed.

Lemma ghost_pool out room fs p :
  ghost out room {| sectionLeft := p; seatsLeft := seatsLeft fs;
                    allocationsForRoom := allocationsForRoom fs |}
  = ghost out room fs.
Proof. done. Qed.

Lemma lookaheadFill_done fuel u room fs :
  seatsLeft fs ≤ 0 → lookaheadFill fuel minChunk allRooms u room fs = Some fs.
Proof.
  intros H. destruct fuel; simpl; by replace (0 <? seatsLeft fs) with false by lia.
Qed.

Lemma pool_head_max (l : list Group) s bound :
  Forall (λ x, 0 < s_students x) l →
  (∀ x, x ∈ l → ¬ (s_students x ≤ bound ∧ 0 < s_students x)) →
  s ∈ l → bound < s_students s.
Proof.
  intros Hpos Hno Hs. rewrite Forall_forall in Hpos.
  specialize (Hpos s Hs). specialize (Hno s Hs). lia.
Qed.

Lemma lookaheadFill_ok K fuel out room fs :
  room ∈ allRooms →
  fillInv K out room fs → (length (sectionLeft fs) < fuel)%nat →
  ∃ fs', lookaheadFill fuel minChunk allRooms (roomUsage out) room fs = Some fs'
         ∧ fillInv K out room fs'.
Proof.
  intros Hroom. revert fs. induction fuel as [|fuel IH]; intros fs I Hfuel; [lia|].
  simpl.
  destruct (negb ((0 <? seatsLeft fs) && negb (bool_decide (sectionLeft fs = [])))) eqn:Econd;
    [by exists fs|].
  apply negb_false_iff, andb_prop in Econd as [Hseats Hne].
  apply Z.ltb_lt in Hseats.
  assert (0 ≤ fr_capacity room - seatsLeft fs) as Hfilled.
  { destruct (decide (allocationsForRoom fs = [])) as [E|E].
    - rewrite (fi_empty I E). lia.
    - pose proof (fi_filled I E). lia. }
  assert (U → usage (roomUsage (ghost out room fs)) (fr_no room)
                = fr_capacity room - seatsLeft fs
              ∧ Inv minChunk allRooms (ghost out room fs)
              ∧ 0 ≤ usage (roomUsage (ghost out room fs)) (fr_no room)) as Hfacts.
  { intros HU.
    pose proof (reach_Inv _ _ (look_idCapacity HU) _ (fi_reach I HU)) as Iinv.
    split; [by eapply ghost_usage|]. split; [done|].
    by apply (Inv_usage_nonneg minChunk allRooms). }
  destruct (bestWhole (seatsLeft fs) (sectionLeft fs) 0 None 0) as [bestIdx|] eqn:Ebest.
  - (* a whole section fits *)
    apply bestWhole_spec in Ebest as [?|(s & Hs & _ & Hfit & Hpos)]; [done|].
    rewrite Nat.sub_0_r in Hs. rewrite Hs. simpl.
    rewrite Z.eqb_refl, andb_true_r, andb_false_r.
    destruct (if (fr_capacity room - seatsLeft fs =? 0) && (s_students s <? minChunk)
              then anyRoomHasStudents allRooms (roomUsage out) else false) eqn:Estop;
      [by exists fs|].
    apply IH.
    + split.
      * intros HU. destruct (Hfacts HU) as (Hused & Iinv & Hnonneg).
        rewrite ghost_place. rewrite <- Hused.
        eapply reach_step; [exact (fi_reach I HU)|].
        apply step_seat; [done|lia|lia|].
        destruct (decide (minChunk ≤ s_students s)) as [|Hsmall]; [by left|]. right.
        destruct (decide (0 < usage (roomUsage (ghost out room fs)) (fr_no room)))
          as [|Hzero]; [by left|]. right. left.
        assert (allocationsForRoom fs = []) as Hnil.
        { destruct (decide (allocationsForRoom fs = [])) as [|Hn]; [done|].
          pose proof (fi_filled I Hn). lia. }
        replace ((fr_capacity room - seatsLeft fs =? 0) && (s_students s <? minChunk))
          with true in Estop by lia.
        apply (Inv_none_seated minChunk allRooms); [done|].
        unfold ghost. simpl. by rewrite bool_decide_eq_true_2.
      * apply (fi_fresh I).
      * simpl. intros H. by destruct (allocationsForRoom fs).
      * simpl. intros _. lia.
      * simpl. apply Forall_delete, (fi_pool I).
      * intros i. rewrite ghost_place. simpl. rewrite groupSum_snoc_seat.
        rewrite <- (fi_acc I i).
        rewrite (demand_perm i (sectionLeft fs) (s :: delete bestIdx (sectionLeft fs)))
          by (by apply delete_Permutation).
        rewrite demand_cons. unfold ghost. simpl. destruct (hasIdentity i s); lia.
    + simpl. rewrite length_delete by (by eexists).
      apply lookup_lt_Some in Hs. lia.
  - (* no whole section fits: split the largest one *)
    set (sorted := sort_desc s_students (sectionLeft fs)).
    assert (sorted ≡ₚ sectionLeft fs) as Hperm by apply sort_desc_perm.
    assert (∀ i, demand i sorted = demand i (sectionLeft fs)) as Hdem
      by (intros i; by apply demand_perm).
    assert (Forall (λ s, 0 < s_students s) sorted) as Hpos
      by (rewrite Hperm; apply (fi_pool I)).
    assert (fillInv K out room {| sectionLeft := sorted; seatsLeft := seatsLeft fs;
                                  allocationsForRoom := allocationsForRoom fs |}) as Ibroke.
    { split; try apply I; [exact Hpos|].
      intros i. simpl sectionLeft. rewrite Hdem. apply (fi_acc I). }
    destruct sorted as [|s tl] eqn:Esorted.
    { apply Permutation_nil_l in Hperm. apply negb_true_iff in Hne.
      by rewrite <- Hperm, bool_decide_eq_true_2 in Hne. }
    simpl.
    assert (seatsLeft fs < s_students s) as Hbig.
    { apply (pool_head_max (sectionLeft fs)); [apply (fi_pool I)| |].
      - intros x Hx. by eapply bestWhole_none.
      - rewrite <- Hperm. apply list_elem_of_here. }
    destruct ((0 <? s_students s - seatsLeft fs)
              && (s_students s - seatsLeft fs <? minChunk)
              && (seatsLeft fs <? minChunk)) eqn:Echeck; [by eexists|].
    replace (Z.min (seatsLeft fs) (s_students s)) with (seatsLeft fs) by lia.
    replace (s_students s =? seatsLeft fs) with false by lia.
    rewrite andb_false_r.
    destruct ((seatsLeft fs <? minChunk) && (minChunk <? s_students s)) eqn:Estop;
      [by eexists|].
    replace (s_students s - seatsLeft fs =? 0) with false by lia.
    rewrite lookaheadFill_done by (simpl; lia).
    eexists. split; [done|].
    split.
    + intros HU. destruct (Hfacts HU) as (Hused & Iinv & Hnonneg).
      rewrite ghost_place. rewrite <- Hused.
      eapply reach_step; [exact (fi_reach I HU)|].
      apply step_seat; [done|lia|lia|]. left.
      destruct (decide (minChunk ≤ seatsLeft fs)) as [|Hsmall]; [done|].
      exfalso.
      replace (0 <? s_students s - seatsLeft fs) with true in Echeck by lia.
      replace (seatsLeft fs <? minChunk) with true in Echeck, Estop by lia.
      simpl in Echeck, Estop. rewrite andb_true_r in Echeck. lia.
    + apply (fi_fresh I).
    + simpl. intros H. by destruct (allocationsForRoom fs).
    + simpl. intros _. lia.
    + simpl. apply Forall_cons in Hpos as [Hs Htl].
      apply Forall_cons. split; [simpl; lia|done].
    + intros i. rewrite ghost_place. simpl. rewrite groupSum_snoc_seat.
      rewrite <- (fi_acc I i), <- Hdem, !demand_cons.
      unfold ghost, hasIdentity. simpl.
      destruct (String.eqb (s_branch s) i.1 && String.eqb (s_section s) i.2); lia.
Qed.

Lemma ghost_start out room p :
  ghost out room {| sectionLeft := p; seatsLeft := fr_capacity room; allocationsForRoom := [] |}
  = out.
Proof. unfold ghost. simpl. rewrite app_nil_r. by destruct out. Qed.

Lemma perfectFit_ok K st room :
  room ∈ allRooms → lookInv K st →
  (U → roomUsage (l_out st) !! fr_no room = None) →
  ∃ fs0, perfectFit room (l_sectionLeft st) = Some fs0
         ∧ fillInv K (l_out st) room fs0
         ∧ (length (sectionLeft fs0) ≤ length (l_sectionLeft st))%nat.
Proof.
  intros Hroom I Hfresh. unfold perfectFit.
  destruct (findIndex _ (l_sectionLeft st)) as [perfectIdx|] eqn:Efind.
  - apply findIndex_spec in Efind as (s & Hs & Heq). apply Z.eqb_eq in Heq.
    rewrite Hs. simpl. eexists. split; [done|].
    assert (0 < s_students s) as Hpos.
    { pose proof (li_pool I) as Hp. rewrite Forall_forall in Hp.
      apply Hp. by eapply list_elem_of_lookup_2. }
    match goal with |- fillInv _ _ _ ?f ∧ _ => set (fs0 := f) end.
    assert (usage (roomUsage (l_out st)) (fr_no room) = 0 →
            ghost (l_out st) room fs0
            = place (l_out st)
                (seatRecord s room (usage (roomUsage (l_out st)) (fr_no room))
                            (fr_capacity room) None)
                (fr_no room)
                (usage (roomUsage (l_out st)) (fr_no room) + fr_capacity room)) as Hg.
    { intros Hu0. unfold ghost, place, seatRecord. simpl. rewrite Hu0. simpl.
      f_equal. f_equal. lia. }
    split; [split|].
    + intros HU.
      assert (usage (roomUsage (l_out st)) (fr_no room) = 0) as Hu0
        by (unfold usage; by rewrite (Hfresh HU)).
      rewrite (Hg Hu0). eapply reach_step; [exact (li_reach I HU)|].
      apply step_seat; [done|lia|lia|]. right; right; right. done.
    + done.
    + done.
    + simpl. intros _. lia.
    + simpl. apply Forall_delete, (li_pool I).
    + intros i. unfold ghost. simpl. rewrite groupSum_app.
      replace (groupSum i [_]) with (if hasIdentity i s then fr_capacity room else 0)
        by (unfold groupSum, ofGroup, hasIdentity; simpl; destruct (_ && _); simpl; lia).
      rewrite <- (li_acc I i).
      rewrite (demand_perm i (l_sectionLeft st) (s :: delete perfectIdx (l_sectionLeft st)))
        by (by apply delete_Permutation).
      rewrite demand_cons. destruct (hasIdentity i s); lia.
    + simpl. rewrite length_delete by (by eexists). lia.
  - eexists. split; [done|]. split; [split|]; simpl.
    + rewrite ghost_start. apply (li_reach I).
    + done.
    + done.
    + done.
    + apply (li_pool I).
    + intros i. rewrite app_nil_r. apply (li_acc I).
    + done.
Qed.

Lemma lookaheadRoom_ok K st room :
  room ∈ allRooms → lookInv K st →
  (U → roomUsage (l_out st) !! fr_no room = None) →
  ∃ st', lookaheadRoom minChunk allRooms st room = Some st'
         ∧ lookInv K st'
         ∧ ∀ k, k ≠ fr_no room →
                roomUsage (l_out st') !! k = roomUsage (l_out st) !! k.
Proof.
  intros Hroom I Hfresh. unfold lookaheadRoom.
  destruct (perfectFit_ok K st room Hroom I Hfresh) as (fs0 & -> & I0 & _).
  cbn [mbind option_bind].
  destruct (lookaheadFill_ok K (fillFuel (sectionLeft fs0)) (l_out st) room fs0 Hroom I0)
    as (fs & -> & If); [unfold fillFuel; lia|].
  cbn [mbind option_bind]. eexists. split; [done|]. split; [split|]; simpl.
  - apply (fi_reach If).
  - apply (fi_pool If).
  - apply (fi_acc If).
  - intros k Hk. case_bool_decide; [done|]. by rewrite lookup_insert_ne.
Qed.

Lemma lookaheadRooms_ok K todo st :
  todo ⊆ allRooms → (U → NoDup (map fr_no todo)) →
  (U → ∀ r, r ∈ todo → roomUsage (l_out st) !! fr_no r = None) →
  lookInv K st →
  ∃ st', lookaheadRooms minChunk allRooms todo st = Some st' ∧ lookInv K st'.
Proof.
  revert st. induction todo as [|room rest IH]; intros st Hsub Hnd Hfresh I; simpl.
  - by exists st.
  - apply cons_subseteq_inv in Hsub as [Hroom Hrest].
    destruct (lookaheadRoom_ok K st room Hroom I) as (st1 & -> & I1 & Hother).
    { intros HU. apply (Hfresh HU), list_elem_of_here. }
    simpl. apply IH; [done| | |done].
    + intros HU. specialize (Hnd HU). by apply NoDup_cons in Hnd as [_ ?].
    + intros HU r Hr. specialize (Hnd HU). apply NoDup_cons in Hnd as [Hnotin _].
      rewrite Hother.
      * by apply (Hfresh HU), list_elem_of_further.
      * intros E. apply Hnotin. rewrite <- E. by apply list_elem_of_fmap_2.
Qed.

Lemma leftoverErrors_pos l :
  Forall (λ s, 0 < s_students s) l →
  leftoverErrors l = map (λ s, errorRecord s (s_students s)) l.
Proof.
  intros H. unfold leftoverErrors. f_equal.
  induction H as [|s l Hs _ IH]; simpl; [done|].
  replace (0 <? s_students s) with true by lia. by rewrite IH.
Qed.

Lemma errors_reach l st :
  reachL st → Forall (λ s, 0 < s_students s) l →
  reachL {| result := result st ++ map (λ s, errorRecord s (s_students s)) l;
            roomUsage := roomUsage st |}.
Proof.
  revert st. induction l as [|s l IH]; intros st Hr Hl; simpl.
  - rewrite app_nil_r. by destruct st.
  - apply Forall_cons in Hl as [Hs Hl].
    specialize (IH (pushError st s (s_students s))). simpl in IH.
    rewrite <- app_assoc in IH. simpl in IH. apply IH; [|done].
    intros HU. eapply reach_step; [exact (Hr HU)|]. by apply step_error.
Qed.

Lemma errors_account i l :
  groupSum i (map (λ s, errorRecord s (s_students s)) l) = demand i l.
Proof.
  induction l as [|s l IH]; [done|].
  rewrite demand_cons, <- IH. unfold groupSum, ofGroup, hasIdentity. simpl.
  destruct (_ && _); simpl; lia.
Qed.

End LookProofs.

(** ** Looking rooms up by id (strategy 4) *)

Lemma findRoom_spec roomBlocks k r :
  findRoom roomBlocks k = Some r → fr_room r ∈ catalogRooms roomBlocks ∧ fr_no r = k.
Proof.
  unfold findRoom.
  destruct (List.find _ roomBlocks) as [b|] eqn:Eb; [|done]. simpl.
  destruct (List.find _ (rooms b)) as [rm|] eqn:Er; [|done]. simpl.
  intros [= <-]. apply find_some in Eb as [Hb _]. apply find_some in Er as [Hr Hk].
  apply String.eqb_eq in Hk. split; [|done].
  unfold catalogRooms. rewrite list_elem_of_In, in_flat_map. by exists b.
Qed.

Lemma findRoom_is_Some roomBlocks k :
  k ∈ map no (catalogRooms roomBlocks) → is_Some (findRoom roomBlocks k).
Proof.
  unfold catalogRooms. rewrite list_elem_of_In, in_map_iff.
  intros (rm & Hk & Hrm). apply in_flat_map in Hrm as (b & Hb & Hrm).
  unfold findRoom.
  destruct (List.find (λ b0, existsb (λ r, String.eqb (no r) k) (rooms b0)) roomBlocks)
    as [b'|] eqn:Eb.
  - simpl. apply find_some in Eb as [_ Hex]. apply existsb_exists in Hex as (r & Hr & Hk').
    destruct (List.find (λ r0, String.eqb (no r0) k) (rooms b')) as [r'|] eqn:Er.
    + by eexists.
    + by rewrite (find_none _ _ Er r Hr) in Hk'.
  - exfalso. pose proof (find_none _ _ Eb b Hb) as Hf. simpl in Hf.
    assert (existsb (λ r, String.eqb (no r) k) (rooms b) = true) as Ht.
    { apply existsb_exists. exists rm. split; [done|]. by apply String.eqb_eq. }
    congruence.
Qed.

Lemma ffdRooms_is_Some blocks roomBlocks :
  catalogCovers blocks roomBlocks → is_Some (ffdRooms blocks roomBlocks).
Proof.
  unfold catalogCovers, ffdRooms. intros H. apply mapM_is_Some.
  eapply Forall_impl; [exact H|]. intros k Hk. by apply findRoom_is_Some.
Qed.

Lemma ffdRooms_elem blocks roomBlocks allRooms r :
  ffdRooms blocks roomBlocks = Some allRooms → r ∈ allRooms →
  fr_room r ∈ catalogRooms roomBlocks.
Proof.
  unfold ffdRooms. intros H Hr. apply mapM_Some in H.
  apply list_elem_of_lookup in Hr as [i Hi].
  destruct (Forall2_lookup_r _ _ _ _ _ H Hi) as (k & _ & Hk).
  by apply findRoom_spec in Hk as [? _].
Qed.

(** ** What every run delivers

    Whatever the strategy, the run ends, its output is reachable by
    placement steps over rooms of the catalog, and every identity is
    accounted for. *)

Lemma catalog_idCapacity roomBlocks (allRooms : list FlatRoom) r r' :
  uniqueRoomIds roomBlocks →
  (∀ x, x ∈ allRooms → fr_room x ∈ catalogRooms roomBlocks) →
  r ∈ allRooms → r' ∈ allRooms → fr_no r = fr_no r' → fr_capacity r = fr_capacity r'.
Proof.
  intros Hu Hin Hr Hr' E. unfold fr_capacity.
  by rewrite (NoDup_map_inj no _ (fr_room r) (fr_room r') Hu (Hin _ Hr) (Hin _ Hr') E).
Qed.

Lemma greedyRun_ok roomBlocks sections minChunk :
  (uniqueRoomIds roomBlocks →
   reach minChunk (sortedRooms roomBlocks) (greedyRun roomBlocks sections minChunk))
  ∧ ∀ i, groupSum i (result (greedyRun roomBlocks sections minChunk))
         = demand i (List.filter validGroup sections).
Proof.
  unfold greedyRun. split.
  - intros Hu. apply greedy_foldl_reach.
    + intros r r' Hr Hr'. by apply (sortedRooms_idCapacity roomBlocks).
    + apply rtc_refl.
    + apply sectionLeft0_pos.
  - intros i. rewrite greedy_foldl_account by apply sectionLeft0_pos.
    simpl. unfold groupSum at 1. simpl.
    apply demand_perm, sort_desc_perm.
Qed.

Lemma lookahead_ok roomBlocks sections minChunk :
  ∃ res, allocateGreedyLookahead roomBlocks sections minChunk = Some res
         ∧ (uniqueRoomIds roomBlocks → reach minChunk (sortedRooms roomBlocks) res)
         ∧ ∀ i, groupSum i (result res) = demand i (List.filter validGroup sections).
Proof.
  unfold allocateGreedyLookahead.
  destruct (lookaheadRooms_ok minChunk (sortedRooms roomBlocks)
              (uniqueRoomIds roomBlocks) (sortedRooms_NoDup roomBlocks)
              (λ i, demand i (List.filter validGroup sections))
              (sortedRooms roomBlocks)
              {| l_sectionLeft := sectionLeft0 sections; l_out := emptyResult |})
    as (st & -> & I); [done|apply sortedRooms_NoDup|by intros|..].
  { split; simpl.
    - intros _. apply rtc_refl.
    - apply sectionLeft0_pos.
    - intros i. unfold groupSum at 1. simpl. apply demand_perm, sort_desc_perm. }
  cbn [mbind option_bind]. eexists. split; [done|].
  rewrite (leftoverErrors_pos _ (li_pool I)). split.
  - apply errors_reach; apply I.
  - intros i. simpl. rewrite groupSum_app, errors_account. apply (li_acc I).
Qed.

Lemma ffd_ok blocks roomBlocks sections minChunk :
  (0 < length blocks)%nat → catalogCovers blocks roomBlocks →
  ∃ allRooms st,
    ffdRooms blocks roomBlocks = Some allRooms
    ∧ ffdRun blocks roomBlocks sections minChunk = Some st
    ∧ (uniqueRoomIds roomBlocks → reach minChunk allRooms (f_out st))
    ∧ ∀ i, groupSum i (result (f_out st)) = demand i (List.filter validGroup sections).
Proof.
  intros Hlen Hcov. unfold ffdRun.
  destruct (ffdRooms_is_Some _ _ Hcov) as [allRooms Hrooms].
  rewrite Hrooms. cbn [mbind option_bind]. exists allRooms.
  assert (uniqueRoomIds roomBlocks →
          ∀ r r', r ∈ allRooms → r' ∈ allRooms → fr_no r = fr_no r' →
                  fr_capacity r = fr_capacity r') as Hid.
  { intros Hu r r'. apply (catalog_idCapacity roomBlocks); [done|].
    intros x Hx. by eapply ffdRooms_elem. }
  destruct (ffdSections_ok blocks minChunk allRooms _ Hid (sectionLeft0 sections) ffdInit)
    as (st & Hrun & Hr & _ & Hacc).
  { intros _. apply rtc_refl. }
  { apply sectionLeft0_pos. }
  { simpl. lia. }
  exists st. repeat split; try done.
  intros i. rewrite Hacc. simpl. unfold groupSum at 1. simpl.
  apply demand_perm, sort_desc_perm.
Qed.

Lemma run_ok algorithm roomBlocks sections minChunk :
  strategyReady algorithm roomBlocks →
  ∃ allRooms res,
    runStrategy algorithm roomBlocks sections minChunk = Some res
    ∧ (∀ r, r ∈ allRooms → fr_room r ∈ catalogRooms roomBlocks)
    ∧ (uniqueRoomIds roomBlocks → reach minChunk allRooms res)
    ∧ ∀ i, groupSum i (result res) = demand i (List.filter validGroup sections).
Proof.
  unfold strategyReady, runStrategy. intros Hready.
  destruct (greedyRun_ok roomBlocks sections minChunk) as [Hg1 Hg2].
  destruct (algorithm =? 1).
  { exists (sortedRooms roomBlocks). eexists. split; [done|].
    split; [apply sortedRooms_elem|]. by split. }
  destruct (algorithm =? 2).
  { exists (sortedRooms roomBlocks). eexists. split; [done|].
    split; [apply sortedRooms_elem|]. by split. }
  destruct (algorithm =? 3).
  { destruct (lookahead_ok roomBlocks sections minChunk) as (res & Hrun & Hr & Hacc).
    exists (sortedRooms roomBlocks), res. split; [done|].
    split; [apply sortedRooms_elem|]. by split. }
  simpl in Hready. unfold allocateBestFitFFD.
  destruct (ffd_ok orderedRoomBlocks roomBlocks sections minChunk)
    as (allRooms & st & Hrooms & Hrun & Hr & Hacc); [simpl; lia|done|].
  exists allRooms, (f_out st). rewrite Hrun. split; [done|].
  split; [|by split]. intros r Hr'. by eapply ffdRooms_elem.
Qed.

(** With unique room ids the output of every run satisfies the placement
    invariant over rooms of the catalog. *)
Lemma run_Inv algorithm roomBlocks sections minChunk :
  uniqueRoomIds roomBlocks → strategyReady algorithm roomBlocks →
  ∃ allRooms res,
    runStrategy algorithm roomBlocks sections minChunk = Some res
    ∧ (∀ r, r ∈ allRooms → fr_room r ∈ catalogRooms roomBlocks)
    ∧ Inv minChunk allRooms res.
Proof.
  intros Hu Hready.
  destruct (run_ok algorithm roomBlocks sections minChunk Hready)
    as (allRooms & res & Hrun & Hin & Hr & _).
  exists allRooms, res. split; [done|]. split; [done|].
  apply reach_Inv; [|by apply Hr].
  intros r r'. by apply (catalog_idCapacity roomBlocks).
Qed.

Lemma hasIdentity_true i s : hasIdentity i s = true ↔ identity s = i.
Proof.
  unfold hasIdentity, identity. destruct i as [b c]. simpl.
  rewrite andb_true_iff, !String.eqb_eq. split; [by intros [-> ->]|by intros [= -> ->]].
Qed.

Lemma demand_unique (l : list Group) g :
  NoDup (map identity l) → g ∈ l → demand (identity g) l = s_students g.
Proof.
  induction l as [|s l IH]; simpl; intros Hnd Hg; [by apply elem_of_nil in Hg|].
  apply NoDup_cons in Hnd as [Hs Hnd]. rewrite demand_cons.
  assert (∀ x, x ∈ l → hasIdentity (identity x) s = false) as Hfresh.
  { intros x Hx. destruct (hasIdentity (identity x) s) eqn:E; [|done].
    apply hasIdentity_true in E. exfalso. apply Hs. rewrite E.
    by apply list_elem_of_fmap_2. }
  apply elem_of_cons in Hg as [->|Hg].
  - replace (hasIdentity (identity s) s) with true
      by (symmetry; by apply hasIdentity_true).
    assert (demand (identity s) l = 0) as ->; [|lia].
    unfold demand. clear IH Hnd Hfresh. induction l as [|x l IH]; [done|].
    simpl. destruct (hasIdentity (identity s) x) eqn:E.
    + apply hasIdentity_true in E. exfalso. apply Hs. rewrite <- E. simpl. by left.
    + apply IH. intros H. apply Hs. simpl. by right.
  - rewrite (Hfresh g Hg), IH by done. lia.
Qed.

(** ** Reading the invariant on the catalog *)

Section CatalogFacts.

Variable roomBlocks : list RoomBlock.
Variable minChunk : Z.
Variable allRooms : list FlatRoom.
Variable res : AllocResult.
Hypothesis unique : uniqueRoomIds roomBlocks.
Hypothesis fromCatalog : ∀ r, r ∈ allRooms → fr_room r ∈ catalogRooms roomBlocks.
Hypothesis inv : Inv minChunk allRooms res.

Lemma usage_le_capacity room v :
  room ∈ catalogRooms roomBlocks → roomUsage res !! no room = Some v →
  v ≤ capacity room.
Proof.
  intros Hroom Hv.
  destruct (inv_keys inv (no room)) as (r & Hr & Hno); [by eexists|].
  assert (fr_room r = room) as E
    by (by apply (NoDup_map_inj no _ _ _ unique); [apply fromCatalog|..]).
  pose proof (inv_cap inv r v Hr) as Hcap. rewrite Hno in Hcap.
  unfold fr_capacity in Hcap. rewrite E in Hcap. by apply Hcap.
Qed.

Lemma roomSum_le_capacity room :
  room ∈ catalogRooms roomBlocks → 0 ≤ capacity room →
  roomSum (no room) (result res) ≤ capacity room.
Proof.
  intros Hroom Hcap. rewrite (Inv_roomSum _ _ _ _ inv). unfold usage.
  destruct (roomUsage res !! no room) as [v|] eqn:E; simpl; [|done].
  by apply usage_le_capacity.
Qed.

Lemma no_usage_without_capacity room :
  room ∈ catalogRooms roomBlocks → capacity room ≤ 0 →
  roomUsage res !! no room = None.
Proof.
  intros Hroom Hcap. destruct (roomUsage res !! no room) as [v|] eqn:E; [|done].
  pose proof (usage_le_capacity room v Hroom E).
  pose proof (inv_upos inv _ _ E). lia.
Qed.

Lemma record_in_roomRecords a :
  a ∈ result res → is_error a = false → a ∈ roomRecords (roomNo a) (result res).
Proof.
  intros Ha He. unfold roomRecords. rewrite list_elem_of_In, List.filter_In.
  split; [by apply list_elem_of_In|]. unfold inRoom. by rewrite He, String.eqb_refl.
Qed.

Lemma no_record_without_usage k a :
  roomUsage res !! k = None → a ∈ result res → is_error a = false → roomNo a ≠ k.
Proof.
  intros Hk Ha He <-.
  pose proof (record_in_roomRecords a Ha He) as Hin.
  rewrite (Inv_empty_room _ _ _ _ inv) in Hin; [by apply elem_of_nil in Hin|].
  unfold usage. by rewrite Hk.
Qed.

Lemma usage_iff_record k :
  is_Some (roomUsage res !! k)
  ↔ ∃ a, a ∈ result res ∧ is_error a = false ∧ roomNo a = k.
Proof.
  split.
  - intros [v Hv]. pose proof (inv_upos inv _ _ Hv) as Hpos.
    assert (0 < usage (roomUsage res) k) as Hu by (unfold usage; by rewrite Hv).
    pose proof (Inv_occupied_room _ _ _ _ inv Hu) as Hne.
    destruct (roomRecords k (result res)) as [|a l] eqn:E; [done|].
    assert (a ∈ roomRecords k (result res)) as Ha by (rewrite E; apply list_elem_of_here).
    unfold roomRecords in Ha. rewrite list_elem_of_In, List.filter_In in Ha.
    destruct Ha as [Ha Hin]. unfold inRoom in Hin.
    apply andb_prop in Hin as [He Hk]. apply negb_true_iff in He.
    apply String.eqb_eq in Hk. exists a. by rewrite <- list_elem_of_In in Ha.
  - intros (a & Ha & He & Hk).
    destruct (roomUsage res !! k) as [v|] eqn:E; [by eexists|].
    exfalso. by eapply (no_record_without_usage k a).
Qed.

End CatalogFacts.

(** ** Strategy 4: the block cursor *)

Section Cursor.

Variable blocks : list (list string).
Variable minChunk : Z.
Variable allRooms : list FlatRoom.

Abbreviation visits := (visitsState blocks minChunk allRooms).

Lemma placeFfd_cursor st rec k v st' :
  placeFfd blocks st rec k v = Some st' →
  unlock blocks (roomUsage (f_out st')) (maxBlockIdx st) = Some (maxBlockIdx st').
Proof.
  unfold placeFfd. destruct (unlock _ _ _) as [c|] eqn:E; [|done].
  simpl. intros [= <-]. done.
Qed.

Lemma placeFfd_out st rec k v st' :
  placeFfd blocks st rec k v = Some st' → f_out st' = place (f_out st) rec k v.
Proof.
  unfold placeFfd. destruct (unlock _ _ _) as [c|]; [|done].
  simpl. by intros [= <-].
Qed.

Lemma firstFitScan_cursor s st remaining todo st' remaining' :
  firstFitScan blocks minChunk allRooms s st remaining todo = Some (Placed st' remaining') →
  unlock blocks (roomUsage (f_out st')) (maxBlockIdx st) = Some (maxBlockIdx st').
Proof.
  induction todo as [|room rest IH]; simpl; [done|].
  destruct (blockLocked blocks (maxBlockIdx st) room); [done|].
  destruct (_ <=? 0); [done|].
  destruct (guardSkips _ _ _ _ _ _); [done|].
  destruct (placeFfd _ _ _ _ _) as [st1|] eqn:E; [|done].
  simpl. intros [= <- _]. by eapply placeFfd_cursor.
Qed.

Lemma ffdTurn_cursor s st remaining st' remaining' :
  ffdTurn blocks minChunk allRooms s st remaining = Some (Placed st' remaining') →
  unlock blocks (roomUsage (f_out st')) (maxBlockIdx st) = Some (maxBlockIdx st').
Proof.
  unfold ffdTurn. destruct (bestFitScan _ _ _ _ _ _ _ _) as [j|];
    [|apply firstFitScan_cursor].
  destruct (allRooms !! j) as [room|]; [|done]. simpl.
  match goal with |- context [if ?c then Some Break else _] => destruct c end; [done|].
  destruct (placeFfd _ _ _ _ _) as [st1|] eqn:E; [|done].
  simpl. intros [= <- _]. by eapply placeFfd_cursor.
Qed.

Lemma ffdTurn_mono s st remaining st' remaining' :
  ffdTurn blocks minChunk allRooms s st remaining = Some (Placed st' remaining') →
  (maxBlockIdx st ≤ maxBlockIdx st')%nat.
Proof. intros H. by apply ffdTurn_cursor, unlock_mono in H as [? _]. Qed.

Lemma visits_mono s st remaining v :
  visits s st remaining v → (maxBlockIdx st ≤ maxBlockIdx v)%nat.
Proof.
  induction 1 as [|st remaining st' remaining' v _ Ht _ IH]; [done|].
  apply ffdTurn_mono in Ht. lia.
Qed.

Lemma ffdWhile_visits s fuel st remaining r :
  ffdWhile blocks fuel minChunk allRooms s st remaining = Some r →
  visits s st remaining r.1.
Proof.
  revert st remaining. induction fuel as [|fuel IH]; intros st remaining; simpl.
  - destruct (0 <? remaining); simpl; [done|]. intros [= <-]. apply visits_here.
  - destruct (0 <? remaining) eqn:E; simpl; [|intros [= <-]; apply visits_here].
    destruct (ffdTurn _ _ _ _ _ _) as [[st' remaining'|]|] eqn:Et; simpl; [| |done].
    + intros H. eapply visits_next; [lia|exact Et|by apply IH].
    + intros [= <-]. apply visits_here.
Qed.

(** Whatever the loop has gone through lies behind the state it ends in. *)
Lemma ffdWhile_last s fuel st remaining r v :
  ffdWhile blocks fuel minChunk allRooms s st remaining = Some r →
  visits s st remaining v → (maxBlockIdx v ≤ maxBlockIdx r.1)%nat.
Proof.
  intros Hrun Hv. revert fuel Hrun.
  induction Hv as [st remaining|st remaining st' remaining' v Hpos Ht _ IH];
    intros fuel Hrun.
  - by apply ffdWhile_visits, visits_mono in Hrun.
  - destruct fuel as [|fuel]; simpl in Hrun.
    + by replace (0 <? remaining) with true in Hrun by lia.
    + replace (0 <? remaining) with true in Hrun by lia. simpl in Hrun.
      rewrite Ht in Hrun. simpl in Hrun. by eapply IH.
Qed.

Lemma ffdSection_last s st st' v :
  ffdSection blocks minChunk allRooms st s = Some st' →
  visits s st (s_students s) v → (maxBlockIdx v ≤ maxBlockIdx st')%nat.
Proof.
  unfold ffdSection. destruct (ffdWhile _ _ _ _ _ _ _) as [r|] eqn:E; [|done].
  simpl. intros [= <-] Hv. pose proof (ffdWhile_last _ _ _ _ _ _ E Hv).
  by destruct (0 <? r.2).
Qed.

Lemma ffdSection_mono s st st' :
  ffdSection blocks minChunk allRooms st s = Some st' →
  (maxBlockIdx st ≤ maxBlockIdx st')%nat.
Proof. intros H. eapply ffdSection_last; [exact H|apply visits_here]. Qed.

Lemma ffdSections_mono todo st st' :
  ffdSections blocks minChunk allRooms todo st = Some st' →
  (maxBlockIdx st ≤ maxBlockIdx st')%nat.
Proof.
  revert st. induction todo as [|s rest IH]; intros st; simpl; [by intros [= <-]|].
  destruct (ffdSection _ _ _ _ _) as [st1|] eqn:E; [|done]. simpl.
  intros H. apply IH in H. apply ffdSection_mono in E. lia.
Qed.

Lemma ffdSections_app l1 l2 st :
  ffdSections blocks minChunk allRooms (l1 ++ l2) st
  = ffdSections blocks minChunk allRooms l1 st
      ≫= ffdSections blocks minChunk allRooms l2.
Proof.
  revert st. induction l1 as [|s l1 IH]; intros st; simpl; [done|].
  destruct (ffdSection _ _ _ _ _) as [st1|]; simpl; [apply IH|done].
Qed.

End Cursor.

(** ** The guard of the scans, record by record

    Strategies 1, 2 and 4 place a chunk below the threshold in an empty
    room only when the chunk fills the room and does not exhaust the
    group; what is left of the group then follows in a later record. *)

Section GuardProofs.

Variable minChunk : Z.
Variable allRooms : list FlatRoom.
Hypothesis idCapacity : ∀ r r', r ∈ allRooms → r' ∈ allRooms →
  fr_no r = fr_no r' → fr_capacity r = fr_capacity r'.

Local Abbreviation reachP := (reach minChunk allRooms).
Local Abbreviation guarded := (allGuardedOk minChunk allRooms).

Lemma guarded_nil cur : guarded cur [].
Proof. intros pre a post H. by destruct pre. Qed.

(** The same output, read while a group is being seated. *)
Lemma guarded_open cur res : guarded None res → guarded cur res.
Proof.
  intros H pre a post E He Hsmall.
  destruct (H pre a post E He Hsmall) as [?|[?|(H1 & H2 & [H3|H3])]];
    [by left|by right; left| |done].
  right; right. split; [done|]. split; [done|]. by left.
Qed.

(** One more record [x]: what was owed to the group being seated is paid
    by [x]. *)
Lemma guarded_snoc cur cur' res x :
  guarded cur res →
  (∀ i, cur = Some i → i = (branch x, section x)) →
  guardedOk minChunk allRooms cur' res x [] →
  guarded cur' (res ++ [x]).
Proof.
  intros H Hcur Hx pre a post E.
  apply snoc_split in E as [(-> & -> & ->)|(post' & -> & ->)]; [done|].
  intros He Hsmall.
  destruct (H pre a post' eq_refl He Hsmall) as [?|[?|(H1 & H2 & H3)]];
    [by left|by right; left|].
  right; right. split; [done|]. split; [done|]. left.
  destruct H3 as [(b & Hb & Hbr & Hsec)|Hopen].
  - exists b. split; [|done]. apply elem_of_app. by left.
  - exists x. split; [apply elem_of_app; right; apply list_elem_of_here|].
    specialize (Hcur _ Hopen). by injection Hcur as -> ->.
Qed.

(** What a passed guard says about a chunk below the threshold. *)
Lemma guard_justifies_left st room remaining :
  Inv minChunk allRooms st → 0 < remaining →
  0 < fr_capacity room - usage (roomUsage st) (fr_no room) →
  guardSkips minChunk allRooms (roomUsage st) (usage (roomUsage st) (fr_no room))
    (Z.min (fr_capacity room - usage (roomUsage st) (fr_no room)) remaining)
    remaining = false →
  let n := Z.min (fr_capacity room - usage (roomUsage st) (fr_no room)) remaining in
  minChunk ≤ n
  ∨ 0 < usage (roomUsage st) (fr_no room)
  ∨ nonError (result st) = []
  ∨ (usage (roomUsage st) (fr_no room) = 0 ∧ n = fr_capacity room ∧ n < remaining).
Proof.
  intros I Hrem Hav Hg n. fold n in Hg.
  pose proof (Inv_usage_nonneg _ _ st (fr_no room) I) as Hu.
  set (used := usage (roomUsage st) (fr_no room)) in *.
  destruct (decide (minChunk ≤ n)) as [|Hsmall]; [by left|]. right.
  destruct (decide (0 < used)) as [|Hzero]; [by left|]. right.
  assert (used = 0) as E0 by lia.
  unfold guardSkips in Hg.
  destruct (decide (remaining = n)) as [E|Hne].
  - left. apply (Inv_none_seated minChunk allRooms); [done|].
    replace ((used =? 0) && (n <? minChunk) && (remaining =? n)) with true in Hg by lia.
    done.
  - right. split; [done|]. unfold n in *. lia.
Qed.

(** The record of a scan that passed the guard. *)
Lemma scan_guardedOk st s room remaining :
  room ∈ allRooms → Inv minChunk allRooms st → 0 < remaining →
  0 < fr_capacity room - usage (roomUsage st) (fr_no room) →
  guardSkips minChunk allRooms (roomUsage st) (usage (roomUsage st) (fr_no room))
    (Z.min (fr_capacity room - usage (roomUsage st) (fr_no room)) remaining)
    remaining = false →
  let used := usage (roomUsage st) (fr_no room) in
  let n := Z.min (fr_capacity room - used) remaining in
  guardedOk minChunk allRooms (leftOf s (remaining - n)) (result st)
            (seatRecord s room used n (partialFlag s n)) [].
Proof.
  intros Hroom I Hrem Hav Hg used n _ Hsmall. simpl in Hsmall.
  destruct (guard_justifies_left st room remaining I Hrem Hav Hg)
    as [H|[H|[H|(H0 & Hcap & Hleft)]]].
  - fold used n in H. lia.
  - right. left. by apply (Inv_occupied_room minChunk allRooms).
  - by left.
  - right. right. simpl. split; [by apply (Inv_empty_room minChunk allRooms)|].
    split; [by exists room|]. right. unfold leftOf.
    fold used n in Hleft. by replace (0 <? remaining - n) with true by lia.
Qed.

Lemma leftOf_identity s remaining i x used n part :
  leftOf s remaining = Some i →
  i = (branch (seatRecord s x used n part), section (seatRecord s x used n part)).
Proof. unfold leftOf. destruct (0 <? remaining); [|done]. by intros [= <-]. Qed.

Lemma greedyRooms_guarded s todo st remaining :
  todo ⊆ allRooms → reachP st → 0 ≤ remaining →
  guarded (leftOf s remaining) (result st) →
  guarded (leftOf s (greedyRooms minChunk allRooms s todo st remaining).2)
          (result (greedyRooms minChunk allRooms s todo st remaining).1).
Proof.
  revert st remaining.
  induction todo as [|room rest IH]; intros st remaining Hsub Hr Hrem Hg; simpl.
  - done.
  - apply cons_subseteq_inv in Hsub as [Hroom Hrest].
    destruct (remaining =? 0) eqn:E0; [done|].
    destruct (fr_capacity room - usage (roomUsage st) (fr_no room) <=? 0) eqn:Eav;
      [by apply IH|].
    destruct (guardSkips _ _ _ _ _ _) eqn:Eg; [by apply IH|].
    pose proof (reach_Inv _ _ idCapacity _ Hr) as I.
    apply IH; [done| |lia|].
    + eapply reach_step; [exact Hr|].
      apply step_seat; [done|lia|lia|].
      apply (guard_justifies minChunk allRooms); [done|lia|lia|done].
    + simpl. eapply guarded_snoc; [exact Hg| |].
      * intros i. apply leftOf_identity.
      * apply scan_guardedOk; [done|done|lia|lia|done].
Qed.

Lemma greedySection_guarded st s :
  reachP st → 0 ≤ s_students s → guarded None (result st) →
  guarded None (result (greedySection minChunk allRooms st s)).
Proof.
  intros Hr Hs Hg. unfold greedySection.
  pose proof (greedyRooms_guarded s allRooms st (s_students s) (reflexivity _) Hr Hs
                (guarded_open _ _ Hg)) as H.
  destruct (greedyRooms _ _ _ _ _ _) as [st' rem]. simpl in H.
  unfold leftOf in H. destruct (0 <? rem) eqn:E; [|done]. simpl.
  eapply guarded_snoc; [exact H| |].
  - by intros i [= <-].
  - intros He. done.
Qed.

Lemma greedy_foldl_guarded l st :
  reachP st → Forall (λ s, 0 < s_students s) l → guarded None (result st) →
  guarded None (result (foldl (greedySection minChunk allRooms) st l)).
Proof.
  revert st. induction l as [|s l IH]; intros st Hr Hl Hg; simpl; [done|].
  apply Forall_cons in Hl as [Hs Hl].
  apply IH; [|done|].
  - apply greedySection_reach; [done|done|lia].
  - apply greedySection_guarded; [done|lia|done].
Qed.

Section Ffd.

Variable blocks : list (list string).

(** A placement of strategy 4 is a placement step. *)
Lemma firstFitScan_guarded s st remaining todo st' remaining' :
  firstFitScan blocks minChunk allRooms s st remaining todo
  = Some (Placed st' remaining') →
  todo ⊆ allRooms → reachP (f_out st) → 0 < remaining →
  guarded (leftOf s remaining) (result (f_out st)) →
  reachP (f_out st') ∧ 0 ≤ remaining'
  ∧ guarded (leftOf s remaining') (result (f_out st')).
Proof.
  intros Hscan Hsub Hr Hrem Hg.
  induction todo as [|room rest IH]; simpl in Hscan; [done|].
  apply cons_subseteq_inv in Hsub as [Hroom Hrest].
  destruct (blockLocked blocks (maxBlockIdx st) room); [by apply IH|].
  destruct (fr_capacity room - usage (roomUsage (f_out st)) (fr_no room) <=? 0) eqn:Eav;
    [by apply IH|].
  destruct (guardSkips _ _ _ _ _ _) eqn:Eg; [by apply IH|].
  destruct (placeFfd _ _ _ _ _) as [st1|] eqn:Ep; [|done].
  simpl in Hscan. injection Hscan as <- <-.
  apply placeFfd_out in Ep. rewrite Ep.
  pose proof (reach_Inv _ _ idCapacity _ Hr) as I.
  split; [|split; [lia|]].
  - eapply reach_step; [exact Hr|].
    apply step_seat; [done|lia|lia|].
    apply (guard_justifies minChunk allRooms); [done|lia|lia|done].
  - simpl. eapply guarded_snoc; [exact Hg| |].
    + intros i. apply leftOf_identity.
    + apply scan_guardedOk; [done|done|lia|lia|done].
Qed.

Lemma ffdTurn_guarded s st remaining st' remaining' :
  ffdTurn blocks minChunk allRooms s st remaining = Some (Placed st' remaining') →
  reachP (f_out st) → 0 < remaining →
  guarded (leftOf s remaining) (result (f_out st)) →
  reachP (f_out st') ∧ 0 ≤ remaining'
  ∧ guarded (leftOf s remaining') (result (f_out st')).
Proof.
  unfold ffdTurn. intros Hturn Hr Hrem Hg.
  destruct (bestFitScan _ _ _ _ _ _ _ _) as [j|] eqn:Eb;
    [|by apply (firstFitScan_guarded s st remaining allRooms)].
  apply bestFitScan_spec in Eb as [?|(room & Hj & _ & Hfit)]; [done|].
  rewrite Nat.sub_0_r in Hj. rewrite Hj in Hturn. simpl in Hturn.
  assert (room ∈ allRooms) as Hroom by (by eapply list_elem_of_lookup_2).
  set (used := usage (roomUsage (f_out st)) (fr_no room)) in *.
  destruct (if (used =? 0) && (remaining <? minChunk) && (remaining =? s_students s)
            then anyRoomHasStudents allRooms (roomUsage (f_out st))
            else (remaining <? minChunk) && negb (remaining =? s_students s)) eqn:Estop;
    [done|].
  destruct (placeFfd _ _ _ _ _) as [st1|] eqn:Ep; [|done].
  simpl in Hturn. injection Hturn as <- <-.
  apply placeFfd_out in Ep. rewrite Ep.
  pose proof (reach_Inv _ _ idCapacity _ Hr) as I.
  pose proof (Inv_usage_nonneg _ _ _ (fr_no room) I) as Hu0. fold used in Hu0.
  assert (minChunk ≤ remaining ∨ 0 < used ∨ nonError (result (f_out st)) = [])
    as Hwhy.
  { destruct (decide (minChunk ≤ remaining)) as [|Hsmall]; [by left|]. right.
    destruct (decide (0 < used)) as [|Hzero]; [by left|]. right.
    apply (Inv_none_seated minChunk allRooms); [done|].
    destruct (remaining =? s_students s) eqn:Es.
    - replace ((used =? 0) && (remaining <? minChunk)) with true in Estop by lia. done.
    - replace ((used =? 0) && (remaining <? minChunk) && false) with false in Estop
        by (by rewrite andb_false_r).
      simpl in Estop. lia. }
  split; [|split; [lia|]].
  - eapply reach_step; [exact Hr|].
    apply step_seat; [done|lia|fold used; lia|]. fold used.
    destruct Hwhy as [?|[?|?]]; [by left|by right; left|by right; right; left].
  - simpl. eapply guarded_snoc; [exact Hg| |].
    + intros i. apply leftOf_identity.
    + intros _ Hsmall. simpl in Hsmall.
      destruct Hwhy as [?|[?|?]]; [lia| |by left].
      right. left. by apply (Inv_occupied_room minChunk allRooms).
Qed.

Lemma ffdWhile_guarded s fuel st remaining r :
  ffdWhile blocks fuel minChunk allRooms s st remaining = Some r →
  reachP (f_out st) → 0 ≤ remaining →
  guarded (leftOf s remaining) (result (f_out st)) →
  reachP (f_out r.1) ∧ 0 ≤ r.2 ∧ guarded (leftOf s r.2) (result (f_out r.1)).
Proof.
  revert st remaining. induction fuel as [|fuel IH]; intros st remaining; simpl.
  - destruct (0 <? remaining); simpl; [done|]. by intros [= <-].
  - destruct (0 <? remaining) eqn:E; simpl; [|by intros [= <-]].
    destruct (ffdTurn _ _ _ _ _ _) as [[st1 remaining1|]|] eqn:Et; simpl; [| |done].
    + intros H Hr Hrem Hg.
      apply ffdTurn_guarded in Et as (H1 & H2 & H3); [|done|lia|done].
      by apply (IH _ _ H).
    + by intros [= <-].
Qed.

Lemma ffdSection_guarded s st st' :
  ffdSection blocks minChunk allRooms st s = Some st' →
  reachP (f_out st) → 0 ≤ s_students s → guarded None (result (f_out st)) →
  reachP (f_out st') ∧ guarded None (result (f_out st')).
Proof.
  unfold ffdSection. destruct (ffdWhile _ _ _ _ _ _ _) as [r|] eqn:E; [|done].
  simpl. intros [= <-] Hr Hs Hg.
  apply ffdWhile_guarded in E as (H1 & H2 & H3); [|done|done|by apply guarded_open].
  unfold leftOf in H3. destruct (0 <? r.2) eqn:Epos; [|done]. simpl. split.
  - eapply reach_step; [exact H1|]. apply step_error. lia.
  - eapply guarded_snoc; [exact H3| |].
    + by intros i [= <-].
    + intros He. done.
Qed.

Lemma ffdSections_guarded todo st st' :
  ffdSections blocks minChunk allRooms todo st = Some st' →
  reachP (f_out st) → Forall (λ s, 0 < s_students s) todo →
  guarded None (result (f_out st)) →
  guarded None (result (f_out st')).
Proof.
  revert st. induction todo as [|s rest IH]; intros st; simpl; [by intros [= <-]|].
  destruct (ffdSection _ _ _ _ _) as [st1|] eqn:E; [|done]. simpl.
  intros H Hr Hl Hg. apply Forall_cons in Hl as [Hs Hl].
  apply ffdSection_guarded in E as [H1 H2]; [|done|lia|done].
  by apply (IH _ H).
Qed.

End Ffd.

End GuardProofs.

(** * The claims *)

(** ** C1: conservation *)

(** C1 (conservation). For each of the four strategies and every input
    group with non-empty identity and positive size, the [students] fields
    of all records (error or not) that bear the group's identity sum to the
    group's original size. Identities are what records carry, so the valid
    groups are taken to have pairwise distinct identities; strategy 4 is run
    on a catalog that holds the rooms of its block table. *)
Theorem conservation algorithm roomBlocks sections minChunk g :
  strategyReady algorithm roomBlocks →
  NoDup (map identity (List.filter validGroup sections)) →
  g ∈ sections → validGroup g = true →
  ∃ res, runStrategy algorithm roomBlocks sections minChunk = Some res
         ∧ groupSum (identity g) (result res) = s_students g.
Proof.
  intros Hready Hnd Hg Hvalid.
  destruct (run_ok algorithm roomBlocks sections minChunk Hready)
    as (allRooms & res & Hrun & _ & _ & Hacc).
  exists res. split; [done|]. rewrite Hacc. apply demand_unique; [done|].
  rewrite list_elem_of_In, List.filter_In. split; [by apply list_elem_of_In|done].
Qed.

Lemma conservation_witness :
  ∃ res, runStrategy 4 (demoCatalog 30) [scnX; scnY] 10 = Some res
         ∧ groupSum (identity scnX) (result res) = s_students scnX.
Proof.
  apply (conservation 4 (demoCatalog 30) [scnX; scnY] 10 scnX).
  - change (catalogCovers orderedRoomBlocks (demoCatalog 30)). by_evaluation.
  - by_evaluation.
  - apply list_elem_of_here.
  - reflexivity.
Defined.

(** ** C2: capacity safety *)

(** C2 (capacity safety). For each of the four strategies and every room
    of a catalog with unique room ids, the [students] fields of the
    non-error records that reference the room's id sum to at most the
    room's capacity (a capacity being a number of seats, hence not
    negative). *)
Theorem capacity_safety algorithm roomBlocks sections minChunk :
  uniqueRoomIds roomBlocks → strategyReady algorithm roomBlocks →
  ∃ res, runStrategy algorithm roomBlocks sections minChunk = Some res
         ∧ ∀ room, room ∈ catalogRooms roomBlocks → 0 ≤ capacity room →
                   roomSum (no room) (result res) ≤ capacity room.
Proof.
  intros Hu Hready.
  destruct (run_Inv algorithm roomBlocks sections minChunk Hu Hready)
    as (allRooms & res & Hrun & Hin & I).
  exists res. split; [done|]. intros room Hroom Hcap.
  by apply (roomSum_le_capacity roomBlocks minChunk allRooms).
Qed.

Lemma capacity_safety_witness :
  ∃ res, runStrategy 4 (demoCatalog 30) [scnX; scnY] 10 = Some res
         ∧ ∀ room, room ∈ catalogRooms (demoCatalog 30) → 0 ≤ capacity room →
                   roomSum (no room) (result res) ≤ capacity room.
Proof.
  apply (capacity_safety 4 (demoCatalog 30) [scnX; scnY] 10).
  - by_evaluation.
  - change (catalogCovers orderedRoomBlocks (demoCatalog 30)). by_evaluation.
Defined.

(** ** C3: min-chunk respect *)

Lemma tiny_greedy_run :
  result (allocateSimpleGreedy (tinyCatalog 3) [bigX; smallY] 10)
  = [ seatRecord bigX (mkFlat (mkRoom "A" 50 []) "Main Block") 0 50 (Some false);
      seatRecord smallY (mkFlat (mkRoom "B" 3 []) "Main Block") 0 3 (Some true);
      errorRecord smallY 2 ].
Proof. vm_compute. reflexivity. Qed.


Lemma run_guarded algorithm roomBlocks sections minChunk :
  uniqueRoomIds roomBlocks → strategyReady algorithm roomBlocks →
  guardInForce algorithm roomBlocks minChunk →
  ∃ allRooms res,
    runStrategy algorithm roomBlocks sections minChunk = Some res
    ∧ (∀ r, r ∈ allRooms → fr_room r ∈ catalogRooms roomBlocks)
    ∧ allGuardedOk minChunk allRooms None (result res).
Proof.
  unfold strategyReady, guardInForce, runStrategy. intros Hu Hready Hforce.
  assert (∀ res,
    greedyRun roomBlocks sections minChunk = res →
    allGuardedOk minChunk (sortedRooms roomBlocks) None (result res)) as Hgreedy.
  { intros res <-. unfold greedyRun. apply greedy_foldl_guarded.
    - intros r r'. by apply (sortedRooms_idCapacity roomBlocks).
    - apply rtc_refl.
    - apply sectionLeft0_pos.
    - apply guarded_nil. }
  destruct (algorithm =? 1).
  { exists (sortedRooms roomBlocks). eexists. split; [done|].
    split; [apply sortedRooms_elem|]. by apply Hgreedy. }
  destruct (algorithm =? 2).
  { exists (sortedRooms roomBlocks). eexists. split; [done|].
    split; [apply sortedRooms_elem|]. by apply Hgreedy. }
  destruct (algorithm =? 3).
  - destruct (lookahead_ok roomBlocks sections minChunk) as (res & Hrun & Hr & _).
    exists (sortedRooms roomBlocks), res. split; [done|].
    split; [apply sortedRooms_elem|].
    assert (Inv minChunk (sortedRooms roomBlocks) res) as I.
    { apply reach_Inv; [|by apply Hr].
      intros r r'. by apply (sortedRooms_idCapacity roomBlocks). }
    intros pre a post E He Hsmall.
    destruct (inv_small I pre a post E He Hsmall)
      as [H|[H|(_ & room & Hroom & _ & Hcap)]]; [by left|by right; left|].
    exfalso. rewrite Forall_forall in Hforce.
    specialize (Hforce (fr_room room) (sortedRooms_elem _ _ Hroom)).
    unfold fr_capacity in Hcap. lia.
  - simpl in Hready.
    destruct (ffd_ok orderedRoomBlocks roomBlocks sections minChunk)
      as (allRooms & st & Hrooms & Hrun & Hr & _); [simpl; lia|done|].
    exists allRooms, (f_out st). split.
    { unfold allocateBestFitFFD. by rewrite Hrun. }
    assert (∀ r, r ∈ allRooms → fr_room r ∈ catalogRooms roomBlocks) as Hin
      by (intros r Hr'; by eapply ffdRooms_elem).
    split; [done|].
    unfold ffdRun in Hrun. rewrite Hrooms in Hrun. cbn [mbind option_bind] in Hrun.
    apply (ffdSections_guarded minChunk allRooms) in Hrun; [done| | | |].
    + intros r r'. by apply (catalog_idCapacity roomBlocks).
    + apply rtc_refl.
    + apply sectionLeft0_pos.
    + apply guarded_nil.
Qed.



(** On the input of C5 the output of Greedy Lookahead breaks the rule: the
    perfect-fit step seats the 5 students of Y, all of them, in the empty
    room B while room A is occupied. *)
Lemma lookahead_outside_the_rule :
  ∃ res, runStrategy 3 (tinyCatalog 5) [bigX; smallY] 10 = Some res
         ∧ ¬ minChunkRespectAmended (tinyCatalog 5) 10 (result res).
Proof.
  eexists. split; [vm_compute; reflexivity|]. intros H.
  destruct (H [seatRecord bigX (mkFlat (mkRoom "A" 50 []) "Main Block") 0 50 None]
              (seatRecord smallY (mkFlat (mkRoom "B" 5 []) "Main Block") 0 5 None)
              [] eq_refl eq_refl) as [Hnone|[Hocc|[_ (b & Hb & _)]]].
  - simpl. lia.
  - unfold noneSeatedBefore in Hnone. vm_compute in Hnone. discriminate.
  - apply Hocc. vm_compute. reflexivity.
  - by apply elem_of_nil in Hb.
Qed.

(** ** C4: topping off in Simple Greedy *)

(** C4, the claim as written fails: room A holds 47 of its 50 seats, group
    Y has 20 students left and minChunk is 10; the scan of Simple Greedy
    goes past room A without placing the chunk of 3 there. *)
Lemma topping_off_skipped :
  topRooms = [topRoomA; topRoomB]
  ∧ 0 < usage (roomUsage topState) (fr_no topRoomA)
  ∧ 0 < fr_capacity topRoomA - usage (roomUsage topState) (fr_no topRoomA)
  ∧ 0 < s_students topY
  ∧ scanSkips 10 topRooms topY topRoomA [topRoomB] topState (s_students topY)
  ∧ ¬ scanPlaces 10 topRooms topY topRoomA [topRoomB] topState (s_students topY).
Proof.
  split; [by vm_compute|]. split; [by vm_compute|]. split; [by vm_compute|].
  split; [by vm_compute|]. split.
  - unfold scanSkips. vm_compute. reflexivity.
  - unfold scanPlaces. intros H.
    apply (f_equal (λ r, length (result r.1))) in H. vm_compute in H. discriminate.
Qed.

(** C4, amended. In the scan of Simple Greedy, when a room already has
    seats filled, has spare capacity, and the group has students left, the
    chunk min(spare, remaining) is placed in that room unless the chunk is
    below minChunk while more than minChunk students are left; in that case
    the room is skipped. *)
Theorem topping_off_amended minChunk allRooms s room rest st remaining :
  0 < usage (roomUsage st) (fr_no room) →
  0 < fr_capacity room - usage (roomUsage st) (fr_no room) →
  0 < remaining →
  let chunk := Z.min (fr_capacity room - usage (roomUsage st) (fr_no room)) remaining in
  if (chunk <? minChunk) && (minChunk <? remaining)
  then scanSkips minChunk allRooms s room rest st remaining
  else scanPlaces minChunk allRooms s room rest st remaining.
Proof.
  intros Hused Hspare Hrem chunk.
  unfold scanSkips, scanPlaces. simpl. fold chunk.
  replace (remaining =? 0) with false by lia.
  replace (fr_capacity room - usage (roomUsage st) (fr_no room) <=? 0) with false by lia.
  unfold guardSkips.
  replace (usage (roomUsage st) (fr_no room) =? 0) with false by lia. simpl.
  by destruct ((chunk <? minChunk) && (minChunk <? remaining)).
Qed.

Lemma topping_off_amended_witness :
  scanSkips 10 topRooms topY topRoomA [topRoomB] topState (s_students topY).
Proof.
  apply (topping_off_amended 10 topRooms topY topRoomA [topRoomB] topState
           (s_students topY)); by vm_compute.
Defined.

(** ** C5: the perfect-fit path of Greedy Lookahead *)

(** C5. With rooms A(50) and B(5), groups X = 50 and Y = 5 and
    minChunk = 10, Greedy Lookahead seats the whole of Y, 5 students, in
    the empty room B by the perfect-fit path although room A is occupied:
    the guard is not consulted on that path. *)
Theorem lookahead_perfect_fit_unguarded :
  ∃ res, allocateGreedyLookahead (tinyCatalog 5) [bigX; smallY] 10 = Some res
         ∧ placements (result res)
           = [ ("X", "A", 50, Some 1, Some 50); ("Y", "B", 5, Some 1, Some 5) ]
         ∧ ¬ minChunkRespect 10 (result res).
Proof.
  eexists. split; [vm_compute; reflexivity|]. split; [vm_compute; reflexivity|].
  intros H. cbn [result] in H.
  destruct (H [mkAlloc "X" "1" "A" 50 (Some 1) (Some 50) None None None
                       (Some "Main Block")]
              (mkAlloc "Y" "1" "B" 5 (Some 1) (Some 5) None None None
                       (Some "Main Block"))
              [] eq_refl eq_refl) as [Hn|Ho].
  - simpl. lia.
  - unfold noneSeatedBefore in Hn. vm_compute in Hn. discriminate.
  - apply Ho. vm_compute. reflexivity.
Qed.

(** ** C6: the worked scenario *)

(** C6, the claim as written fails: Simple Greedy does not seat X in room
    A; the groups are taken largest first, so Y comes before X. *)
Lemma scenario_not_as_written :
  placements (result (allocateSimpleGreedy scnCatalog [scnX; scnY] 10))
  ≠ [ ("X", "A", 40, Some 1, Some 40); ("Y", "A", 10, Some 41, Some 50);
      ("Y", "B", 30, Some 1, Some 30); ("Y", "C", 20, Some 1, Some 20) ].
Proof. vm_compute. discriminate. Qed.

(** C6, amended. With rooms A(50), B(30), C(20), groups X = 40 and Y = 60
    and minChunk = 10, Simple Greedy scans the rooms in the order A, B, C
    and takes the larger group Y first: Y gets 50 seats in A (1-50) and 10
    in B (1-10); X gets 20 seats in B (11-30) and 20 in C (1-20). There is
    no error record and the efficiency is 100%. *)
Theorem scenario_simple_greedy :
  let res := allocateSimpleGreedy scnCatalog [scnX; scnY] 10 in
  map fr_no (sortedRooms scnCatalog) = ["A"; "B"; "C"]
  ∧ placements (result res)
    = [ ("Y", "A", 50, Some 1, Some 50); ("Y", "B", 10, Some 1, Some 10);
        ("X", "B", 20, Some 11, Some 30); ("X", "C", 20, Some 1, Some 20) ]
  ∧ errorRecords (result res) = []
  ∧ Qeq (efficiency (calcStats scnCatalog [scnX; scnY] res)) 100.
Proof.
  split; [by vm_compute|]. split; [by vm_compute|]. split; [by vm_compute|].
  by vm_compute.
Qed.

(** ** C7: seat-range contiguity *)

(** C7 (seat-range contiguity). For each of the four strategies and every
    room id, the non-error records that reference the room, in emission
    order, form a chain of seat ranges: the first starts at seat 1, each
    start is the previous end plus one, and each end is start + students - 1.
    The chain ends at the room's usage. *)
Theorem seat_contiguity algorithm roomBlocks sections minChunk :
  uniqueRoomIds roomBlocks → strategyReady algorithm roomBlocks →
  ∃ res, runStrategy algorithm roomBlocks sections minChunk = Some res
         ∧ ∀ k, seatChain (roomRecords k (result res)) = true
                ∧ chainEnd 0 (roomRecords k (result res)) = Some (usage (roomUsage res) k).
Proof.
  intros Hu Hready.
  destruct (run_Inv algorithm roomBlocks sections minChunk Hu Hready)
    as (allRooms & res & Hrun & Hin & I).
  exists res. split; [done|]. intros k.
  pose proof (inv_chain I k) as Hc. unfold seatChain. by rewrite Hc.
Qed.

Lemma seat_contiguity_witness :
  ∃ res, runStrategy 3 scnCatalog [scnX; scnY] 10 = Some res
         ∧ ∀ k, seatChain (roomRecords k (result res)) = true
                ∧ chainEnd 0 (roomRecords k (result res)) = Some (usage (roomUsage res) k).
Proof.
  apply (seat_contiguity 3 scnCatalog [scnX; scnY] 10).
  - by_evaluation.
  - exact I.
Defined.

(** ** C8: block-unlock monotonicity *)

(** C8 (block-unlock monotonicity). In a run of the Best-Fit/FFD strategy
    on a catalog that holds the rooms of the block table, every placement
    moves the cursor by the unlock rule (one step forward exactly when all
    rooms of the block under the cursor have usage above 0 after the
    placement and the cursor is not on the last block), the cursor never
    decreases, and the blocks eligible while a group is processed remain
    eligible while the next group is processed. *)
Theorem block_unlock_monotone roomBlocks sections minChunk :
  catalogCovers orderedRoomBlocks roomBlocks →
  ∃ allRooms final,
    ffdRooms orderedRoomBlocks roomBlocks = Some allRooms
    ∧ ffdRun orderedRoomBlocks roomBlocks sections minChunk = Some final
    ∧ unlockRule orderedRoomBlocks minChunk allRooms
    ∧ cursorMonotone orderedRoomBlocks minChunk allRooms (sectionLeft0 sections) final.
Proof.
  intros Hcov.
  destruct (ffd_ok orderedRoomBlocks roomBlocks sections minChunk)
    as (allRooms & final & Hrooms & Hrun & _ & _); [simpl; lia|done|].
  exists allRooms, final. split; [done|]. split; [done|]. split.
  - intros s st remaining st' remaining' Ht.
    apply ffdTurn_cursor in Ht. unfold unlock in Ht.
    destruct (orderedRoomBlocks !! maxBlockIdx st) as [b|]; [|done].
    exists b. split; [done|]. simpl in Ht. by injection Ht as <-.
  - intros done g g' todo E. unfold ffdRun in Hrun. rewrite Hrooms in Hrun.
    cbn [mbind option_bind] in Hrun. rewrite E, ffdSections_app in Hrun.
    destruct (ffdSections orderedRoomBlocks minChunk allRooms done ffdInit)
      as [before|] eqn:E0; [|done].
    cbn [mbind option_bind] in Hrun. simpl in Hrun.
    destruct (ffdSection orderedRoomBlocks minChunk allRooms before g)
      as [mid|] eqn:E1; [|done].
    cbn [mbind option_bind] in Hrun.
    destruct (ffdSection orderedRoomBlocks minChunk allRooms mid g')
      as [after|] eqn:E2; [|done].
    cbn [mbind option_bind] in Hrun.
    exists before, mid, after. repeat split; try done.
    + by apply ffdSections_mono in E0.
    + by apply ffdSection_mono in E1.
    + by apply ffdSection_mono in E2.
    + by apply ffdSections_mono in Hrun.
    + intros v v' Hv Hv' b Hb. unfold eligibleBlock in *.
      pose proof (ffdSection_last _ _ _ _ _ _ _ E1 Hv).
      pose proof (visits_mono _ _ _ _ _ _ _ Hv'). lia.
Qed.

Lemma block_unlock_monotone_witness :
  ∃ allRooms final,
    ffdRooms orderedRoomBlocks (demoCatalog 30) = Some allRooms
    ∧ ffdRun orderedRoomBlocks (demoCatalog 30) [scnX; scnY] 10 = Some final
    ∧ unlockRule orderedRoomBlocks 10 allRooms
    ∧ cursorMonotone orderedRoomBlocks 10 allRooms (sectionLeft0 [scnX; scnY]) final.
Proof.
  apply (block_unlock_monotone (demoCatalog 30) [scnX; scnY] 10). by_evaluation.
Defined.

(** ** C9: rooms without capacity *)

(** C9 (rooms with non-positive capacity). For each of the four
    strategies, when a catalog with unique room ids holds a room whose
    capacity is at most 0, the run still ends with a result, no record
    carries the room's id, and the returned usage map has no entry for it.
    The id is taken to differ from the marker ["NO SPACE"] that error
    records carry as their room. *)
Theorem nonpositive_capacity_ineligible algorithm roomBlocks sections minChunk room :
  uniqueRoomIds roomBlocks → strategyReady algorithm roomBlocks →
  room ∈ catalogRooms roomBlocks → capacity room ≤ 0 → no room ≠ NO_SPACE →
  ∃ res, runStrategy algorithm roomBlocks sections minChunk = Some res
         ∧ (∀ a, a ∈ result res → roomNo a ≠ no room)
         ∧ roomUsage res !! no room = None.
Proof.
  intros Hu Hready Hroom Hcap Hmark.
  destruct (run_Inv algorithm roomBlocks sections minChunk Hu Hready)
    as (allRooms & res & Hrun & Hin & I).
  exists res. split; [done|].
  pose proof (no_usage_without_capacity roomBlocks minChunk allRooms res Hu Hin I
                room Hroom Hcap) as Hnone.
  split; [|done]. intros a Ha.
  destruct (is_error a) eqn:He.
  - rewrite (inv_err I a Ha He). congruence.
  - by apply (no_record_without_usage minChunk allRooms res I).
Qed.

Lemma nonpositive_capacity_ineligible_witness :
  ∃ res, runStrategy 3 scnCatalogZ [scnX; scnY] 10 = Some res
         ∧ (∀ a, a ∈ result res → roomNo a ≠ no scnEmptyRoom)
         ∧ roomUsage res !! no scnEmptyRoom = None.
Proof.
  apply (nonpositive_capacity_ineligible 3 scnCatalogZ [scnX; scnY] 10 scnEmptyRoom).
  - by_evaluation.
  - exact I.
  - simpl. repeat constructor.
  - simpl. lia.
  - by_evaluation.
Defined.

(** ** C10: consistency of the usage map *)

(** C10 (usage map). For each of the four strategies, on a catalog with
    unique room ids, the returned usage map has an entry exactly for the
    room ids that some non-error record references, and every entry is the
    sum of [students] over the non-error records of that room, hence
    positive. *)
Theorem usage_consistency algorithm roomBlocks sections minChunk :
  uniqueRoomIds roomBlocks → strategyReady algorithm roomBlocks →
  ∃ res, runStrategy algorithm roomBlocks sections minChunk = Some res
         ∧ ∀ k, (is_Some (roomUsage res !! k)
                 ↔ ∃ a, a ∈ result res ∧ is_error a = false ∧ roomNo a = k)
                ∧ ∀ v, roomUsage res !! k = Some v →
                       v = roomSum k (result res) ∧ 0 < v.
Proof.
  intros Hu Hready.
  destruct (run_Inv algorithm roomBlocks sections minChunk Hu Hready)
    as (allRooms & res & Hrun & Hin & I).
  exists res. split; [done|]. intros k. split.
  - by apply (usage_iff_record minChunk allRooms).
  - intros v Hv. split; [|by apply (inv_upos I k)].
    rewrite (Inv_roomSum _ _ _ _ I). unfold usage. by rewrite Hv.
Qed.

Lemma usage_consistency_witness :
  ∃ res, runStrategy 1 scnCatalog [scnX; scnY] 10 = Some res
         ∧ ∀ k, (is_Some (roomUsage res !! k)
                 ↔ ∃ a, a ∈ result res ∧ is_error a = false ∧ roomNo a = k)
                ∧ ∀ v, roomUsage res !! k = Some v →
                       v = roomSum k (result res) ∧ 0 < v.
Proof.
  apply (usage_consistency 1 scnCatalog [scnX; scnY] 10).
  - by_evaluation.
  - exact I.
Defined.

(** ** Further runs of the strategies *)

(** The second scenario of the specification: a single group of 5 with
    minChunk = 10 is seated whole in room A, as the first placement of the
    run. *)
Example first_placement_allowed :
  placements (result (allocateSimpleGreedy scnCatalog [mkGroup 1 "X" "1" 5] 10))
  = [ ("X", "A", 5, Some 1, Some 5) ].
Proof. by vm_compute. Qed.

(** The third scenario of the specification: 60 students and 50 seats
    leave one error record of 10. *)
Example overflow_reported :
  map (λ a, (branch a, roomNo a, students a))
      (errorRecords (result (allocateSimpleGreedy
                               [mkBlock "Main Block" [mkRoom "A" 50 []]]
                               [mkGroup 1 "X" "1" 60] 10)))
  = [ ("X", NO_SPACE, 10) ].
Proof. by vm_compute. Qed.

(** On the rooms and groups of the worked scenario it is Greedy Lookahead
    that seats X in A first and then splits Y over A, B and C. *)
Example scenario_lookahead :
  placements <$> (result <$> allocateGreedyLookahead scnCatalog [scnX; scnY] 10)
  = Some [ ("X", "A", 40, Some 1, Some 40); ("Y", "A", 10, Some 41, Some 50);
           ("Y", "B", 30, Some 1, Some 30); ("Y", "C", 20, Some 1, Some 20) ].
Proof. by vm_compute. Qed.

(** A group of 340 fills the eleven rooms of the first block of the table,
    30 seats each; the cursor then moves on and the last 10 students are
    seated in the first room of the second block. *)
Example ffd_unlocks_second_block :
  (λ st, (maxBlockIdx st, drop 11 (placements (result (f_out st)))))
    <$> ffdRun orderedRoomBlocks (demoCatalog 30) [mkGroup 1 "X" "1" 340] 10
  = Some (1%nat, [ ("X", "S-01", 10, Some 1, Some 10) ]).
Proof. by vm_compute. Qed.

(** * Further properties *)

(** ** Sums by key *)

Lemma sumZ_map_add {K} (g h : K → Z) (ks : list K) :
  sumZ (map (λ k, g k + h k) ks) = sumZ (map g ks) + sumZ (map h ks).
Proof. induction ks as [|k ks IH]; simpl; lia. Qed.

Lemma sumZ_map_ext {K} (g h : K → Z) (ks : list K) :
  (∀ k, k ∈ ks → g k = h k) → sumZ (map g ks) = sumZ (map h ks).
Proof.
  induction ks as [|k ks IH]; simpl; intros H; [done|].
  rewrite (H k) by apply list_elem_of_here. rewrite IH; [done|].
  intros x Hx. by apply H, list_elem_of_further.
Qed.

Lemma sumZ_indicator {K} `{EqDecision K} (x : K) (v : Z) (ks : list K) :
  NoDup ks →
  sumZ (map (λ k, if bool_decide (x = k) then v else 0) ks)
  = if bool_decide (x ∈ ks) then v else 0.
Proof.
  induction 1 as [|k ks Hk Hnd IH]; simpl; [done|].
  rewrite IH. destruct (decide (x = k)) as [->|Hne].
  - rewrite bool_decide_eq_true_2 by done.
    rewrite (bool_decide_eq_false_2 (k ∈ ks)) by done.
    rewrite bool_decide_eq_true_2 by apply list_elem_of_here. lia.
  - rewrite bool_decide_eq_false_2 by done.
    destruct (decide (x ∈ ks)) as [Hin|Hnin].
    + rewrite !bool_decide_eq_true_2; [lia|by apply list_elem_of_further|done].
    + rewrite !bool_decide_eq_false_2; [lia| |done].
      intros H. by apply elem_of_cons in H as [?|?].
Qed.

Lemma sumZ_map_zero {K} (ks : list K) : sumZ (map (λ _, 0) ks) = 0.
Proof. induction ks as [|k ks IH]; simpl; lia. Qed.

(** A sum over a list is the sum, key by key, of the sums over the elements
    that bear the key. *)
Lemma sum_by_key {A K} `{EqDecision K} (key : A → K) (f : A → Z)
    (ks : list K) (l : list A) :
  NoDup ks → (∀ a, a ∈ l → key a ∈ ks) →
  sumZ (map f l)
  = sumZ (map (λ k, sumZ (map f (List.filter (λ a, bool_decide (key a = k)) l))) ks).
Proof.
  intros Hnd. induction l as [|a l IH]; intros Hin; simpl.
  - by rewrite sumZ_map_zero.
  - rewrite (sumZ_map_ext _
      (λ k, (if bool_decide (key a = k) then f a else 0)
            + sumZ (map f (List.filter (λ a0, bool_decide (key a0 = k)) l))))
      by (intros k _; by case_bool_decide).
    rewrite sumZ_map_add, sumZ_indicator by done.
    rewrite bool_decide_eq_true_2 by apply Hin, list_elem_of_here.
    rewrite <- IH; [done|]. intros x Hx. by apply Hin, list_elem_of_further.
Qed.

Lemma sumZ_filter_split {A} (p : A → bool) (f : A → Z) (l : list A) :
  sumZ (map f l)
  = sumZ (map f (List.filter p l)) + sumZ (map f (List.filter (λ a, negb (p a)) l)).
Proof. induction l as [|a l IH]; simpl; [done|]. destruct (p a); simpl; lia. Qed.

(** ** The shape of the records *)

Lemma reach_shape minChunk allRooms st :
  reach minChunk allRooms st → ∀ a, a ∈ result st → recordShape allRooms a.
Proof.
  unfold reach. revert st.
  apply (rtc_ind_r (λ st, ∀ a, a ∈ result st → recordShape allRooms a)).
  - intros a Ha. by apply elem_of_nil in Ha.
  - intros y z _ Hs IH a Ha.
    destruct Hs as [st s room n part Hroom Hn Hfit Hsmall | st s n Hn]; simpl in Ha;
      apply elem_of_app in Ha as [Ha|Ha]; try (by apply IH);
      apply list_elem_of_singleton in Ha as ->.
    + split; [done|]. left. split; [done|]. by exists room.
    + split; [done|]. right. by repeat split.
Qed.

Lemma chainEnd_bounds p l e a :
  chainEnd p l = Some e → (∀ x, x ∈ l → 0 < students x) → a ∈ l →
  ∃ st en, startSeat a = Some st ∧ endSeat a = Some en
           ∧ p < st ∧ st ≤ en ∧ en = st + students a - 1 ∧ en ≤ e.
Proof.
  revert p. induction l as [|x l IH]; intros p Hc Hpos Ha;
    [by apply elem_of_nil in Ha|].
  simpl in Hc.
  destruct (startSeat x) as [st|] eqn:Est; [|done].
  destruct (endSeat x) as [en|] eqn:Een; [|done].
  destruct ((st =? p + 1) && (en =? st + students x - 1)) eqn:E; [|done].
  apply andb_prop in E as [E1 E2].
  assert (0 < students x) as Hx by apply Hpos, list_elem_of_here.
  assert (∀ y, y ∈ l → 0 < students y) as Hpos'
    by (intros y Hy; by apply Hpos, list_elem_of_further).
  pose proof (chainEnd_sum _ _ _ Hc) as Hsum.
  pose proof (sum_pos_nonneg l Hpos') as Hnn.
  apply elem_of_cons in Ha as [->|Ha].
  - exists st, en. rewrite Est, Een. repeat split; lia.
  - destruct (IH en Hc Hpos' Ha) as (st' & en' & H1 & H2 & H3 & H4 & H5 & H6).
    exists st', en'. repeat split; try done. lia.
Qed.

Lemma sortedRooms_fromBlock roomBlocks r :
  r ∈ sortedRooms roomBlocks → fromBlock roomBlocks r.
Proof.
  unfold sortedRooms. rewrite sort_desc_perm. unfold flattenRooms.
  rewrite list_elem_of_In, in_flat_map. intros (b & Hb & Hr).
  apply in_map_iff in Hr as (x & <- & Hx).
  exists b. by rewrite <- !list_elem_of_In in *.
Qed.

Lemma findRoom_fromBlock roomBlocks k r :
  findRoom roomBlocks k = Some r → fromBlock roomBlocks r.
Proof.
  unfold findRoom.
  destruct (List.find _ roomBlocks) as [b|] eqn:Eb; [|done]. simpl.
  destruct (List.find _ (rooms b)) as [rm|] eqn:Er; [|done]. simpl.
  intros [= <-]. apply find_some in Eb as [Hb _]. apply find_some in Er as [Hr _].
  exists b. by rewrite <- !list_elem_of_In in *.
Qed.

Lemma ffdRooms_fromBlock blocks roomBlocks allRooms r :
  ffdRooms blocks roomBlocks = Some allRooms → r ∈ allRooms →
  fromBlock roomBlocks r.
Proof.
  unfold ffdRooms. intros H Hr. apply mapM_Some in H.
  apply list_elem_of_lookup in Hr as [i Hi].
  destruct (Forall2_lookup_r _ _ _ _ _ H Hi) as (k & _ & Hk).
  by eapply findRoom_fromBlock.
Qed.

(** What every run delivers, with the blocks of the rooms. *)
Lemma run_blocks algorithm roomBlocks sections minChunk :
  strategyReady algorithm roomBlocks →
  ∃ allRooms res,
    runStrategy algorithm roomBlocks sections minChunk = Some res
    ∧ (∀ r, r ∈ allRooms → fromBlock roomBlocks r)
    ∧ (uniqueRoomIds roomBlocks → reach minChunk allRooms res)
    ∧ ∀ i, groupSum i (result res) = demand i (List.filter validGroup sections).
Proof.
  unfold strategyReady, runStrategy. intros Hready.
  destruct (greedyRun_ok roomBlocks sections minChunk) as [Hg1 Hg2].
  destruct (algorithm =? 1).
  { exists (sortedRooms roomBlocks). eexists. split; [done|].
    split; [apply sortedRooms_fromBlock|]. by split. }
  destruct (algorithm =? 2).
  { exists (sortedRooms roomBlocks). eexists. split; [done|].
    split; [apply sortedRooms_fromBlock|]. by split. }
  destruct (algorithm =? 3).
  { destruct (lookahead_ok roomBlocks sections minChunk) as (res & Hrun & Hr & Hacc).
    exists (sortedRooms roomBlocks), res. split; [done|].
    split; [apply sortedRooms_fromBlock|]. by split. }
  simpl in Hready. unfold allocateBestFitFFD.
  destruct (ffd_ok orderedRoomBlocks roomBlocks sections minChunk)
    as (allRooms & st & Hrooms & Hrun & Hr & Hacc); [simpl; lia|done|].
  exists allRooms, (f_out st). rewrite Hrun. split; [done|].
  split; [|by split]. intros r Hr'. by eapply ffdRooms_fromBlock.
Qed.

Lemma fromBlock_catalog roomBlocks r :
  fromBlock roomBlocks r → fr_room r ∈ catalogRooms roomBlocks.
Proof.
  intros (b & Hb & Hr & _). unfold catalogRooms.
  rewrite list_elem_of_In, in_flat_map. exists b. by rewrite <- !list_elem_of_In.
Qed.

(** Everything a run is known to deliver, at once. *)
Lemma run_full algorithm roomBlocks sections minChunk :
  uniqueRoomIds roomBlocks → strategyReady algorithm roomBlocks →
  ∃ allRooms res,
    runStrategy algorithm roomBlocks sections minChunk = Some res
    ∧ (∀ r, r ∈ allRooms → fromBlock roomBlocks r)
    ∧ (∀ r, r ∈ allRooms → fr_room r ∈ catalogRooms roomBlocks)
    ∧ Inv minChunk allRooms res
    ∧ (∀ a, a ∈ result res → recordShape allRooms a)
    ∧ ∀ i, groupSum i (result res) = demand i (List.filter validGroup sections).
Proof.
  intros Hu Hready.
  destruct (run_blocks algorithm roomBlocks sections minChunk Hready)
    as (allRooms & res & Hrun & Hblk & Hr & Hacc).
  assert (∀ r, r ∈ allRooms → fr_room r ∈ catalogRooms roomBlocks) as Hin
    by (intros r Hr'; by apply fromBlock_catalog, Hblk).
  exists allRooms, res. split; [done|]. split; [done|]. split; [done|].
  split; [|split; [|done]].
  - apply reach_Inv; [|by apply Hr]. intros r r'. by apply (catalog_idCapacity roomBlocks).
  - by apply (reach_shape minChunk), Hr.
Qed.

(** ** The records of a run *)

(** X1. For each of the four strategies, on a catalog with unique room
    ids, every record of the output is either a placement that names a room
    of a block of the catalog together with the name of that block, with
    seats from [startSeat] to [endSeat] that lie between 1 and the room's
    capacity and number [students], or an error record with the marker
    ["NO SPACE"] as room, a positive number of students and neither seats
    nor block nor partial flag. No record is marked as an emergency. *)
Theorem records_well_formed algorithm roomBlocks sections minChunk :
  uniqueRoomIds roomBlocks → strategyReady algorithm roomBlocks →
  ∃ res, runStrategy algorithm roomBlocks sections minChunk = Some res
         ∧ ∀ a, a ∈ result res →
                (is_error a = false ∧ placementIn roomBlocks a)
                ∨ (is_error a = true ∧ unseatedRemainder a).
Proof.
  intros Hu Hready.
  destruct (run_full algorithm roomBlocks sections minChunk Hu Hready)
    as (allRooms & res & Hrun & Hblk & Hin & I & Hshape & _).
  exists res. split; [done|]. intros a Ha.
  destruct (Hshape a Ha)
    as [Hem [(He & room & Hroom & Hno & Hbn)|(He & Hno & H1 & H2 & H3 & H4)]].
  - left. split; [done|].
    destruct (Hblk room Hroom) as (block & Hblock & Hrb & Hname).
    pose proof (record_in_roomRecords res a Ha He) as Hrec.
    destruct (chainEnd_bounds 0 _ _ a (inv_chain I (roomNo a))) as
      (st & en & Hst & Hen & Hlo & Hle & Heq & Hhi); [|done|].
    { intros x Hx. apply (inv_pos I). by eapply roomRecords_elem. }
    exists block, (fr_room room), st, en.
    split; [done|]. split; [done|]. split; [done|].
    split; [by rewrite Hbn, Hname|].
    split; [done|]. split; [done|]. split; [lia|]. split; [done|]. split; [done|].
    split; [|done].
    unfold usage in Hhi. destruct (roomUsage res !! roomNo a) as [v|] eqn:Ev;
      simpl in Hhi; [|lia].
    rewrite Hno in Ev. pose proof (inv_cap I room v Hroom Ev) as Hcap.
    unfold fr_capacity in Hcap. lia.
  - right. split; [done|]. repeat split; try done. by apply (inv_pos I).
Qed.

Lemma records_well_formed_witness :
  ∃ res, runStrategy 3 scnCatalog [scnX; scnY] 10 = Some res
         ∧ ∀ a, a ∈ result res →
                (is_error a = false ∧ placementIn scnCatalog a)
                ∨ (is_error a = true ∧ unseatedRemainder a).
Proof.
  apply (records_well_formed 3 scnCatalog [scnX; scnY] 10).
  - by_evaluation.
  - exact I.
Defined.

Lemma ofGroup_recordIdentity i a :
  ofGroup i a = bool_decide (recordIdentity a = i).
Proof.
  unfold ofGroup, recordIdentity. destruct i as [b c]. simpl.
  destruct (String.eqb (branch a) b) eqn:E1; destruct (String.eqb (section a) c) eqn:E2;
    simpl; symmetry.
  - apply String.eqb_eq in E1, E2. apply bool_decide_eq_true_2. congruence.
  - apply String.eqb_neq in E2. apply bool_decide_eq_false_2. congruence.
  - apply String.eqb_neq in E1. apply bool_decide_eq_false_2. congruence.
  - apply String.eqb_neq in E1. apply bool_decide_eq_false_2. congruence.
Qed.

Lemma hasIdentity_identity i s :
  hasIdentity i s = bool_decide (identity s = i).
Proof.
  destruct (hasIdentity i s) eqn:E; symmetry.
  - apply bool_decide_eq_true_2. by apply hasIdentity_true.
  - apply bool_decide_eq_false_2. intros H. apply hasIdentity_true in H. congruence.
Qed.

Lemma record_group minChunk allRooms res sections a :
  Inv minChunk allRooms res →
  (∀ i, groupSum i (result res) = demand i (List.filter validGroup sections)) →
  a ∈ result res →
  ∃ g, g ∈ sections ∧ validGroup g = true ∧ identity g = recordIdentity a.
Proof.
  intros I Hacc Ha.
  specialize (Hacc (recordIdentity a)).
  assert (List.filter (hasIdentity (recordIdentity a)) (List.filter validGroup sections)
          ≠ []) as Hne.
  { intros Hnil. unfold demand in Hacc. rewrite Hnil in Hacc. simpl in Hacc.
    unfold groupSum in Hacc.
    assert (List.filter (ofGroup (recordIdentity a)) (result res) = []) as Hempty.
    { apply sum_pos_nil; [|lia]. intros x Hx. apply (inv_pos I).
      apply list_elem_of_In, List.filter_In in Hx as [Hx _]. by apply list_elem_of_In. }
    assert (a ∈ List.filter (ofGroup (recordIdentity a)) (result res)) as Hin.
    { apply list_elem_of_In, List.filter_In. split; [by apply list_elem_of_In|].
      rewrite ofGroup_recordIdentity. by apply bool_decide_eq_true_2. }
    rewrite Hempty in Hin. by apply elem_of_nil in Hin. }
  destruct (List.filter (hasIdentity (recordIdentity a))
                        (List.filter validGroup sections)) as [|g l] eqn:E; [done|].
  assert (In g (List.filter (hasIdentity (recordIdentity a))
                            (List.filter validGroup sections))) as Hg
    by (rewrite E; apply in_eq).
  apply List.filter_In in Hg as [Hg Hid]. apply List.filter_In in Hg as [Hg Hv].
  exists g. split; [by apply list_elem_of_In|]. split; [done|].
  by apply hasIdentity_true.
Qed.

(** X2. For each of the four strategies, on a catalog with unique room
    ids, every record of the output, error or not, bears the identity of
    an input group that passes the filter (non-empty branch and section,
    positive size): nothing is emitted for the others. *)
Theorem records_of_valid_groups algorithm roomBlocks sections minChunk :
  uniqueRoomIds roomBlocks → strategyReady algorithm roomBlocks →
  ∃ res, runStrategy algorithm roomBlocks sections minChunk = Some res
         ∧ ∀ a, a ∈ result res →
                ∃ g, g ∈ sections ∧ validGroup g = true
                     ∧ identity g = recordIdentity a.
Proof.
  intros Hu Hready.
  destruct (run_full algorithm roomBlocks sections minChunk Hu Hready)
    as (allRooms & res & Hrun & _ & _ & I & _ & Hacc).
  exists res. split; [done|]. intros a Ha.
  by apply (record_group minChunk allRooms res sections a).
Qed.

Lemma records_of_valid_groups_witness :
  ∃ res, runStrategy 1 (tinyCatalog 3) [bigX; smallY] 10 = Some res
         ∧ ∀ a, a ∈ result res →
                ∃ g, g ∈ [bigX; smallY] ∧ validGroup g = true
                     ∧ identity g = recordIdentity a.
Proof.
  apply (records_of_valid_groups 1 (tinyCatalog 3) [bigX; smallY] 10).
  - by_evaluation.
  - exact I.
Defined.

(** ** Totals *)

Lemma total_students_conserved algorithm roomBlocks sections minChunk res :
  strategyReady algorithm roomBlocks →
  runStrategy algorithm roomBlocks sections minChunk = Some res →
  sumZ (map students (result res))
  = sumZ (map s_students (List.filter validGroup sections)).
Proof.
  intros Hready Hrun.
  destruct (run_blocks algorithm roomBlocks sections minChunk Hready)
    as (allRooms & res' & Hrun' & _ & _ & Hacc).
  assert (res' = res) as -> by congruence.
  set (valid := List.filter validGroup sections) in *.
  set (ks := remove_dups (map recordIdentity (result res) ++ map identity valid)).
  rewrite (sum_by_key recordIdentity students ks (result res)).
  - rewrite (sum_by_key identity s_students ks valid).
    + apply sumZ_map_ext. intros k _. specialize (Hacc k).
      unfold groupSum, demand in Hacc.
      rewrite (List.filter_ext _ (ofGroup k)) by (intros a; by rewrite ofGroup_recordIdentity).
      rewrite (List.filter_ext (λ a, bool_decide (identity a = k)) (hasIdentity k))
        by (intros a; by rewrite hasIdentity_identity).
      done.
    + apply NoDup_remove_dups.
    + intros g Hg. apply elem_of_remove_dups, elem_of_app. right.
      by apply list_elem_of_fmap_2.
  - apply NoDup_remove_dups.
  - intros a Ha. apply elem_of_remove_dups, elem_of_app. left.
    by apply list_elem_of_fmap_2.
Qed.

Lemma filter_nonError_room k res :
  List.filter (λ a, bool_decide (roomNo a = k)) (nonError res) = roomRecords k res.
Proof.
  unfold nonError, roomRecords, inRoom.
  induction res as [|a res IH]; simpl; [done|].
  destruct (is_error a); simpl; [done|].
  destruct (String.eqb (roomNo a) k) eqn:E.
  - apply String.eqb_eq in E. rewrite bool_decide_eq_true_2 by done. by rewrite IH.
  - apply String.eqb_neq in E. by rewrite bool_decide_eq_false_2.
Qed.

Lemma nonError_elem res a : a ∈ nonError res ↔ a ∈ res ∧ is_error a = false.
Proof.
  unfold nonError. rewrite !list_elem_of_In, List.filter_In, negb_true_iff. done.
Qed.

Section StatsFacts.

Variable roomBlocks : list RoomBlock.
Variable minChunk : Z.
Variable allRooms : list FlatRoom.
Variable res : AllocResult.
Hypothesis unique : uniqueRoomIds roomBlocks.
Hypothesis fromCatalog : ∀ r, r ∈ allRooms → fr_room r ∈ catalogRooms roomBlocks.
Hypothesis inv : Inv minChunk allRooms res.

(** The seated students are the sum of the usage map. *)
Lemma allocated_usage_sum :
  sumZ (map students (nonError (result res)))
  = sumZ (map snd (map_to_list (roomUsage res))).
Proof.
  rewrite (sum_by_key roomNo students (map fst (map_to_list (roomUsage res)))).
  - rewrite map_map. apply sumZ_map_ext. intros [k v] Hkv. simpl.
    rewrite filter_nonError_room.
    apply elem_of_map_to_list in Hkv.
    change (roomSum k (result res) = v).
    rewrite (Inv_roomSum _ _ _ _ inv). unfold usage. by rewrite Hkv.
  - apply NoDup_fst_map_to_list.
  - intros a Ha. apply nonError_elem in Ha as [Ha He].
    destruct (proj2 (usage_iff_record minChunk allRooms res inv (roomNo a))) as [v Hv];
      [by exists a|].
    apply list_elem_of_fmap. exists (roomNo a, v). split; [done|].
    by apply elem_of_map_to_list.
Qed.

Lemma find_catalog_room k v :
  roomUsage res !! k = Some v →
  ∃ rm, List.find (λ rm, String.eqb (no rm) k) (catalogRooms roomBlocks) = Some rm
        ∧ v ≤ capacity rm.
Proof.
  intros Hv.
  destruct (inv_keys inv k) as (r & Hr & Hno); [by eexists|].
  destruct (List.find (λ rm, String.eqb (no rm) k) (catalogRooms roomBlocks))
    as [rm|] eqn:E.
  - exists rm. split; [done|]. apply find_some in E as [Hin Hk].
    apply String.eqb_eq in Hk.
    apply (usage_le_capacity roomBlocks minChunk allRooms res unique fromCatalog inv);
      [by apply list_elem_of_In|by rewrite Hk].
  - exfalso. pose proof (find_none _ _ E (fr_room r)) as Hf. simpl in Hf.
    assert (In (fr_room r) (catalogRooms roomBlocks)) as Hin
      by (by apply list_elem_of_In, fromCatalog).
    specialize (Hf Hin). apply String.eqb_neq in Hf. done.
Qed.

Lemma usage_sum_le_capacity (kvs : list (string * Z)) :
  (∀ kv, kv ∈ kvs → roomUsage res !! kv.1 = Some kv.2) →
  sumZ (map snd kvs)
  ≤ foldr (λ kv acc,
             match List.find (λ rm, String.eqb (no rm) kv.1)
                             (flat_map rooms roomBlocks) with
             | Some rm => acc + capacity rm
             | None => acc
             end) 0 kvs.
Proof.
  induction kvs as [|[k v] kvs IH]; intros H; simpl; [done|].
  destruct (find_catalog_room k v) as (rm & Hfind & Hle);
    [apply (H (k, v)), list_elem_of_here|].
  unfold catalogRooms in Hfind. rewrite Hfind.
  assert (∀ kv, kv ∈ kvs → roomUsage res !! kv.1 = Some kv.2) as H'
    by (intros kv Hkv; by apply H, list_elem_of_further).
  specialize (IH H'). lia.
Qed.

Lemma allocated_nonneg : 0 ≤ sumZ (map students (nonError (result res))).
Proof.
  apply sum_pos_nonneg. intros a Ha. apply nonError_elem in Ha as [Ha _].
  by apply (inv_pos inv).
Qed.

Lemma rooms_used_set :
  (list_to_set (map roomNo (nonError (result res))) : gset string)
  = dom (roomUsage res).
Proof.
  apply set_eq. intros k. rewrite elem_of_list_to_set, elem_of_dom.
  rewrite (usage_iff_record minChunk allRooms res inv k). split.
  - intros Hk. apply list_elem_of_fmap in Hk as (a & -> & Ha).
    apply nonError_elem in Ha as [Ha He]. by exists a.
  - intros (a & Ha & He & <-). apply list_elem_of_fmap_2. by apply nonError_elem.
Qed.

End StatsFacts.

Lemma efficiency_bounds (allocated cap : Z) :
  0 ≤ allocated → allocated ≤ cap →
  let e := if 0 <? cap then (inject_Z allocated / inject_Z cap * 100)%Q else 0%Q in
  Qle 0 e ∧ Qle e 100.
Proof.
  intros H0 Hle. simpl. destruct (0 <? cap) eqn:E; [|split; by vm_compute].
  apply Z.ltb_lt in E.
  assert (Qlt 0 (inject_Z cap)) as Hc
    by (change (Qlt (inject_Z 0) (inject_Z cap)); rewrite <- Zlt_Qlt; lia).
  assert (Qle 0 (inject_Z allocated / inject_Z cap)) as Hlo.
  { apply Qle_shift_div_l; [done|]. rewrite Qmult_0_l.
    change (Qle (inject_Z 0) (inject_Z allocated)). rewrite <- Zle_Qle. lia. }
  assert (Qle (inject_Z allocated / inject_Z cap) 1) as Hhi.
  { apply Qle_shift_div_r; [done|]. rewrite Qmult_1_l.
    rewrite <- Zle_Qle. lia. }
  split.
  - apply Qmult_le_0_compat; [done|by vm_compute].
  - apply (Qle_trans _ (1 * 100)); [|by vm_compute].
    apply Qmult_le_compat_r; [done|by vm_compute].
Qed.

(** X3. A click on "Allocate Seats" with a loaded catalog yields an
    allocation and statistics in which the seated students and the students
    of the error records add up to the sizes of the groups that pass the
    filter; when every section of the form passes the filter this is
    [totalStudents]. *)
Theorem stats_students_accounted algorithm roomBlocks sections minChunk :
  roomBlocks ≠ [] → strategyReady algorithm roomBlocks →
  ∃ allocation stats,
    allocateSeats algorithm roomBlocks sections minChunk
    = Some (Allocated allocation stats)
    ∧ allocatedStudents stats + sumZ (map students (errorRecords allocation))
      = sumZ (map s_students (List.filter validGroup sections))
    ∧ (Forall (λ g, validGroup g = true) sections →
       allocatedStudents stats + sumZ (map students (errorRecords allocation))
       = totalStudents stats).
Proof.
  intros Hne Hready. unfold allocateSeats.
  rewrite bool_decide_eq_false_2 by done.
  destruct (run_blocks algorithm roomBlocks sections minChunk Hready)
    as (allRooms & res & Hrun & _ & _ & _).
  rewrite Hrun. cbn [mbind option_bind]. eexists _, _. split; [done|].
  pose proof (total_students_conserved _ _ _ _ _ Hready Hrun) as Htot.
  rewrite (sumZ_filter_split is_error) in Htot.
  assert (allocatedStudents (calcStats roomBlocks sections res)
          + sumZ (map students (errorRecords (result res)))
          = sumZ (map s_students (List.filter validGroup sections))) as Hsum.
  { simpl. unfold errorRecords, nonError. lia. }
  split; [done|]. intros Hall. rewrite Hsum. simpl. f_equal. f_equal.
  clear -Hall. induction Hall as [|g l Hg _ IH]; simpl; [done|]. by rewrite Hg, IH.
Qed.

Lemma stats_students_accounted_witness :
  ∃ allocation stats,
    allocateSeats 1 (tinyCatalog 3) [bigX; smallY] 10
    = Some (Allocated allocation stats)
    ∧ allocatedStudents stats + sumZ (map students (errorRecords allocation))
      = sumZ (map s_students (List.filter validGroup [bigX; smallY]))
    ∧ (Forall (λ g, validGroup g = true) [bigX; smallY] →
       allocatedStudents stats + sumZ (map students (errorRecords allocation))
       = totalStudents stats).
Proof.
  apply (stats_students_accounted 1 (tinyCatalog 3) [bigX; smallY] 10).
  - discriminate.
  - exact I.
Defined.

(** X4. On a loaded catalog with unique room ids, the statistics count as
    [roomsUsed] exactly the entries of the usage map, the capacity counted
    in [totalCapacity] covers the seated students, so that [wastedSeats] is
    never negative, and the efficiency lies between 0 and 100. *)
Theorem stats_within_capacity algorithm roomBlocks sections minChunk :
  roomBlocks ≠ [] → uniqueRoomIds roomBlocks → strategyReady algorithm roomBlocks →
  ∃ res stats,
    runStrategy algorithm roomBlocks sections minChunk = Some res
    ∧ allocateSeats algorithm roomBlocks sections minChunk
      = Some (Allocated (result res) stats)
    ∧ roomsUsed stats = size (roomUsage res)
    ∧ 0 ≤ allocatedStudents stats ≤ totalCapacity stats
    ∧ 0 ≤ wastedSeats stats
    ∧ Qle 0 (efficiency stats) ∧ Qle (efficiency stats) 100.
Proof.
  intros Hne Hu Hready. unfold allocateSeats.
  rewrite bool_decide_eq_false_2 by done.
  destruct (run_full algorithm roomBlocks sections minChunk Hu Hready)
    as (allRooms & res & Hrun & _ & Hin & I & _ & _).
  rewrite Hrun. cbn [mbind option_bind]. eexists _, _. split; [done|]. split; [done|].
  pose proof (allocated_nonneg minChunk allRooms res I) as H0.
  pose proof (allocated_usage_sum minChunk allRooms res I) as Hsum.
  pose proof (usage_sum_le_capacity roomBlocks minChunk allRooms res Hu Hin I
                (map_to_list (roomUsage res))) as Hcap.
  rewrite <- Hsum in Hcap.
  assert (∀ kv, kv ∈ map_to_list (roomUsage res) → roomUsage res !! kv.1 = Some kv.2)
    as Hkv by (intros [k v] H; by apply elem_of_map_to_list).
  specialize (Hcap Hkv).
  split; [|split; [|split]].
  - simpl. rewrite (rooms_used_set minChunk allRooms res I). apply size_dom.
  - simpl. lia.
  - simpl. lia.
  - by apply efficiency_bounds.
Qed.

Lemma stats_within_capacity_witness :
  ∃ res stats,
    runStrategy 3 scnCatalog [scnX; scnY] 10 = Some res
    ∧ allocateSeats 3 scnCatalog [scnX; scnY] 10
      = Some (Allocated (result res) stats)
    ∧ roomsUsed stats = size (roomUsage res)
    ∧ 0 ≤ allocatedStudents stats ≤ totalCapacity stats
    ∧ 0 ≤ wastedSeats stats
    ∧ Qle 0 (efficiency stats) ∧ Qle (efficiency stats) 100.
Proof.
  apply (stats_within_capacity 3 scnCatalog [scnX; scnY] 10).
  - discriminate.
  - by_evaluation.
  - exact I.
Defined.

(** ** The room-wise display *)

Lemma roomAllocations_roomRecords room (allocation : list Allocation) :
  no room ≠ NO_SPACE →
  (∀ a, a ∈ allocation → is_error a = true → roomNo a = NO_SPACE) →
  roomAllocations room allocation = roomRecords (no room) allocation.
Proof.
  intros Hno Herr. unfold roomAllocations, roomRecords, inRoom.
  apply filter_ext_in. intros a Ha. apply list_elem_of_In in Ha.
  destruct (is_error a) eqn:E; simpl; [|done].
  apply String.eqb_neq. rewrite (Herr a Ha E). done.
Qed.

Lemma no_marker_room roomBlocks :
  NO_SPACE ∉ map no (catalogRooms roomBlocks) →
  ∀ room, room ∈ catalogRooms roomBlocks → no room ≠ NO_SPACE.
Proof. intros H room Hroom E. apply H. rewrite <- E. by apply list_elem_of_fmap_2. Qed.

Section DisplayFacts.

Variable roomBlocks : list RoomBlock.
Variable minChunk : Z.
Variable allRooms : list FlatRoom.
Variable res : AllocResult.
Hypothesis unique : uniqueRoomIds roomBlocks.
Hypothesis fromCatalog : ∀ r, r ∈ allRooms → fr_room r ∈ catalogRooms roomBlocks.
Hypothesis inv : Inv minChunk allRooms res.
Hypothesis noMarker : ∀ room, room ∈ catalogRooms roomBlocks → no room ≠ NO_SPACE.

Lemma roomRow_None room :
  room ∈ catalogRooms roomBlocks →
  roomRow (result res) room = None → roomUsage res !! no room = None.
Proof.
  intros Hroom. unfold roomRow.
  rewrite roomAllocations_roomRecords by (by apply noMarker || apply (inv_err inv)).
  case_bool_decide as E; [|done]. intros _.
  destruct (roomUsage res !! no room) as [v|] eqn:Hv; [|done]. exfalso.
  destruct (proj1 (usage_iff_record minChunk allRooms res inv (no room)))
    as (a & Ha & He & Hk); [by eexists|].
  pose proof (record_in_roomRecords res a Ha He) as Hin.
  rewrite Hk, E in Hin. by apply elem_of_nil in Hin.
Qed.

Lemma roomRow_Some room row :
  room ∈ catalogRooms roomBlocks →
  roomRow (result res) room = Some row →
  row_no row = no room ∧ row_capacity row = capacity room
  ∧ roomUsage res !! no room = Some (row_totalUsed row)
  ∧ 0 < row_totalUsed row
  ∧ row_wastedSeats row = capacity room - row_totalUsed row
  ∧ 0 ≤ row_wastedSeats row.
Proof.
  intros Hroom. unfold roomRow.
  rewrite roomAllocations_roomRecords by (by apply noMarker || apply (inv_err inv)).
  case_bool_decide as E; [done|]. intros [= <-]. simpl.
  change (sumZ (map students (roomRecords (no room) (result res))))
    with (roomSum (no room) (result res)).
  rewrite (Inv_roomSum _ _ _ _ inv).
  destruct (roomRecords (no room) (result res)) as [|a l] eqn:Hrec; [done|].
  assert (a ∈ roomRecords (no room) (result res)) as Ha
    by (rewrite Hrec; apply list_elem_of_here).
  unfold roomRecords in Ha. rewrite list_elem_of_In, List.filter_In in Ha.
  destruct Ha as [Ha Hin]. apply list_elem_of_In in Ha.
  unfold inRoom in Hin. apply andb_prop in Hin as [He Hk].
  apply negb_true_iff in He. apply String.eqb_eq in Hk.
  destruct (proj2 (usage_iff_record minChunk allRooms res inv (no room)))
    as [v Hv]; [by exists a|].
  unfold usage. rewrite Hv. simpl.
  pose proof (inv_upos inv _ _ Hv).
  pose proof (usage_le_capacity roomBlocks minChunk allRooms res unique fromCatalog inv
                room v Hroom Hv).
  repeat split; try done; lia.
Qed.

End DisplayFacts.

(** X5. In the room-wise display of a run, on a catalog with unique room
    ids none of which is the error marker, a room of the catalog has a row
    exactly when the usage map has an entry for it; the row's [totalUsed] is
    that entry, it is positive, and the row's [wastedSeats] is the rest of
    the room's capacity and never negative. *)
Theorem room_rows_match_usage algorithm roomBlocks sections minChunk :
  uniqueRoomIds roomBlocks → strategyReady algorithm roomBlocks →
  NO_SPACE ∉ map no (catalogRooms roomBlocks) →
  ∃ res,
    runStrategy algorithm roomBlocks sections minChunk = Some res
    ∧ ∀ room, room ∈ catalogRooms roomBlocks →
        match roomRow (result res) room with
        | None => roomUsage res !! no room = None
        | Some row =>
          row_no row = no room ∧ row_capacity row = capacity room
          ∧ roomUsage res !! no room = Some (row_totalUsed row)
          ∧ 0 < row_totalUsed row
          ∧ row_wastedSeats row = capacity room - row_totalUsed row
          ∧ 0 ≤ row_wastedSeats row
        end.
Proof.
  intros Hu Hready Hno.
  destruct (run_full algorithm roomBlocks sections minChunk Hu Hready)
    as (allRooms & res & Hrun & _ & Hin & I & _ & _).
  exists res. split; [done|]. intros room Hroom.
  pose proof (no_marker_room roomBlocks Hno) as Hno'.
  destruct (roomRow (result res) room) as [row|] eqn:E.
  - by apply (roomRow_Some roomBlocks minChunk allRooms res).
  - by apply (roomRow_None roomBlocks minChunk allRooms res).
Qed.

Lemma room_rows_match_usage_witness :
  ∃ res,
    runStrategy 2 scnCatalogZ [scnX; scnY] 10 = Some res
    ∧ ∀ room, room ∈ catalogRooms scnCatalogZ →
        match roomRow (result res) room with
        | None => roomUsage res !! no room = None
        | Some row =>
          row_no row = no room ∧ row_capacity row = capacity room
          ∧ roomUsage res !! no room = Some (row_totalUsed row)
          ∧ 0 < row_totalUsed row
          ∧ row_wastedSeats row = capacity room - row_totalUsed row
          ∧ 0 ≤ row_wastedSeats row
        end.
Proof.
  apply (room_rows_match_usage 2 scnCatalogZ [scnX; scnY] 10).
  - by_evaluation.
  - exact I.
  - by_evaluation.
Defined.

Lemma sumZ_map_perm {A} (f : A → Z) l1 l2 :
  l1 ≡ₚ l2 → sumZ (map f l1) = sumZ (map f l2).
Proof. induction 1; simpl; lia. Qed.

Lemma sumZ_omap {A B} (g : A → option B) (f : B → Z) (l : list A) :
  sumZ (map f (omap g l)) = sumZ (map (λ x, from_option f 0 (g x)) l).
Proof.
  induction l as [|x l IH]; simpl; [done|].
  change (list_omap A B g l) with (omap g l).
  destruct (g x); simpl; by rewrite IH.
Qed.

Lemma empty_block_rows block (allocation : list Allocation) :
  blockAllocations block allocation = [] →
  omap (roomRow allocation) (rooms block) = [].
Proof.
  intros Hb.
  assert (∀ room, room ∈ rooms block → roomRow allocation room = None) as Hnone.
  { intros room Hroom. unfold roomRow.
    destruct (roomAllocations room allocation) as [|a l] eqn:E; [done|]. exfalso.
    assert (In a (roomAllocations room allocation)) as Ha by (rewrite E; apply in_eq).
    unfold roomAllocations in Ha. apply List.filter_In in Ha as [Ha Hk].
    assert (In a (blockAllocations block allocation)) as Hin; [|by rewrite Hb in Hin].
    unfold blockAllocations. apply List.filter_In. split; [done|].
    apply existsb_exists. exists room. split; [by apply list_elem_of_In|].
    by rewrite String.eqb_sym. }
  induction (rooms block) as [|room l IH]; simpl; [done|].
  rewrite Hnone by apply list_elem_of_here.
  apply IH. intros r Hr. by apply Hnone, list_elem_of_further.
Qed.

Lemma displayedRows_perm roomBlocks (allocation : list Allocation) :
  displayedRows roomBlocks allocation
  ≡ₚ omap (roomRow allocation) (catalogRooms roomBlocks).
Proof.
  unfold displayedRows, roomWiseDisplay, catalogRooms.
  case_bool_decide as Hnone.
  - subst allocation. simpl.
    induction (flat_map rooms roomBlocks) as [|room l IH]; simpl; [done|]. exact IH.
  - induction roomBlocks as [|block l IH]; simpl; [done|].
    rewrite omap_app. unfold blockRows at 1. case_bool_decide as E.
    + rewrite (empty_block_rows _ _ E). simpl. apply IH.
    + simpl. rewrite IH. by rewrite sort_desc_perm.
Qed.

Lemma filter_by_unique_key {A K} `{EqDecision K} (key : A → K) (l : list A) k :
  NoDup (map key l) →
  List.filter (λ a, bool_decide (key a = k)) l
  = match List.find (λ a, bool_decide (key a = k)) l with
    | Some x => [x]
    | None => []
    end.
Proof.
  induction l as [|a l IH]; simpl; [done|]. intros Hnd.
  apply NoDup_cons in Hnd as [Ha Hnd]. case_bool_decide as E.
  - f_equal. clear IH. induction l as [|b l IH]; simpl; [done|].
    rewrite bool_decide_eq_false_2.
    + apply IH; [|by apply NoDup_cons in Hnd as [_ ?]].
      intros H. apply Ha. simpl. by apply list_elem_of_further.
    + intros Hb. apply Ha. simpl. rewrite E, <- Hb. apply list_elem_of_here.
  - by apply IH.
Qed.

Lemma find_usage_entry (u : gmap string Z) k :
  List.find (λ kv : string * Z, bool_decide (kv.1 = k)) (map_to_list u)
  = (λ v, (k, v)) <$> u !! k.
Proof.
  destruct (List.find _ (map_to_list u)) as [[k' v]|] eqn:E.
  - apply find_some in E as [Hin Hk]. apply bool_decide_eq_true_1 in Hk.
    simpl in Hk. subst k'. apply list_elem_of_In, elem_of_map_to_list in Hin.
    by rewrite Hin.
  - destruct (u !! k) as [v|] eqn:Hv; [|done]. exfalso.
    apply elem_of_map_to_list, list_elem_of_In in Hv.
    pose proof (find_none _ _ E _ Hv) as Hf. simpl in Hf.
    by rewrite bool_decide_eq_true_2 in Hf.
Qed.

Lemma find_unique_room roomBlocks room :
  uniqueRoomIds roomBlocks → room ∈ catalogRooms roomBlocks →
  List.find (λ rm, String.eqb (no rm) (no room)) (catalogRooms roomBlocks) = Some room.
Proof.
  intros Hu Hroom.
  destruct (List.find _ (catalogRooms roomBlocks)) as [rm|] eqn:E.
  - apply find_some in E as [Hin Hk]. apply String.eqb_eq in Hk.
    f_equal. apply (NoDup_map_inj no _ _ _ Hu); [by apply list_elem_of_In|done..].
  - apply list_elem_of_In in Hroom. pose proof (find_none _ _ E _ Hroom) as Hf.
    simpl in Hf. by rewrite String.eqb_refl in Hf.
Qed.

Section DisplaySums.

Variable roomBlocks : list RoomBlock.
Variable minChunk : Z.
Variable allRooms : list FlatRoom.
Variable res : AllocResult.
Hypothesis unique : uniqueRoomIds roomBlocks.
Hypothesis fromCatalog : ∀ r, r ∈ allRooms → fr_room r ∈ catalogRooms roomBlocks.
Hypothesis inv : Inv minChunk allRooms res.
Hypothesis noMarker : ∀ room, room ∈ catalogRooms roomBlocks → no room ≠ NO_SPACE.

(** A sum over the entries of the usage map, each looked up in the catalog,
    is a sum over the rooms of the catalog. *)
Lemma usage_sum_by_room (G : Room → Z → Z) :
  sumZ (map (λ kv : string * Z,
               match List.find (λ rm, String.eqb (no rm) kv.1)
                               (catalogRooms roomBlocks) with
               | Some rm => G rm kv.2
               | None => 0
               end) (map_to_list (roomUsage res)))
  = sumZ (map (λ room, match roomUsage res !! no room with
                       | Some v => G room v
                       | None => 0
                       end) (catalogRooms roomBlocks)).
Proof.
  rewrite (sum_by_key fst _ (map no (catalogRooms roomBlocks))).
  - rewrite map_map. apply sumZ_map_ext. intros room Hroom.
    rewrite filter_by_unique_key by apply NoDup_fst_map_to_list.
    rewrite find_usage_entry.
    destruct (roomUsage res !! no room) as [v|]; simpl; [|done].
    rewrite (find_unique_room roomBlocks room unique Hroom). lia.
  - exact unique.
  - intros [k v] Hkv. apply elem_of_map_to_list in Hkv. simpl.
    destruct (inv_keys inv k) as (r & Hr & <-); [by eexists|].
    apply (list_elem_of_fmap_2 no _ (fr_room r)). by apply fromCatalog.
Qed.

Lemma rows_sum (f : RoomRow → Z) (G : Room → Z → Z) :
  (∀ room v, f {| row_no := no room; row_totalUsed := v;
                  row_capacity := capacity room;
                  row_wastedSeats := capacity room - v |} = G room v) →
  sumZ (map f (displayedRows roomBlocks (result res)))
  = sumZ (map (λ room, match roomUsage res !! no room with
                       | Some v => G room v
                       | None => 0
                       end) (catalogRooms roomBlocks)).
Proof.
  intros HfG. rewrite (sumZ_map_perm f _ _ (displayedRows_perm _ _)).
  rewrite sumZ_omap. apply sumZ_map_ext. intros room Hroom.
  destruct (roomRow (result res) room) as [row|] eqn:E; simpl.
  - destruct (roomRow_Some roomBlocks minChunk allRooms res unique fromCatalog inv
                noMarker room row Hroom E) as (Hn & Hc & Hv & _ & Hw & _).
    rewrite Hv, <- HfG. f_equal. destruct row; simpl in *. by subst.
  - by rewrite (roomRow_None roomBlocks minChunk allRooms res inv noMarker room Hroom E).
Qed.

Lemma totalCapacity_sum :
  totalCapacity (calcStats roomBlocks [] res)
  = sumZ (map (λ kv : string * Z,
                 match List.find (λ rm, String.eqb (no rm) kv.1)
                                 (catalogRooms roomBlocks) with
                 | Some rm => capacity rm
                 | None => 0
                 end) (map_to_list (roomUsage res))).
Proof.
  simpl. unfold catalogRooms.
  induction (map_to_list (roomUsage res)) as [|kv l IH]; simpl; [done|].
  rewrite IH. destruct (List.find _ _); lia.
Qed.

Lemma allocated_sum :
  sumZ (map students (nonError (result res)))
  = sumZ (map (λ kv : string * Z,
                 match List.find (λ rm, String.eqb (no rm) kv.1)
                                 (catalogRooms roomBlocks) with
                 | Some rm => kv.2
                 | None => 0
                 end) (map_to_list (roomUsage res))).
Proof.
  rewrite (allocated_usage_sum minChunk allRooms res inv).
  apply sumZ_map_ext. intros [k v] Hkv. apply elem_of_map_to_list in Hkv. simpl.
  by destruct (find_catalog_room roomBlocks minChunk allRooms res unique fromCatalog
                 inv k v Hkv) as (rm & -> & _).
Qed.

End DisplaySums.

Lemma rows_wasted roomBlocks (allocation : list Allocation) :
  sumZ (map row_wastedSeats (displayedRows roomBlocks allocation))
  = sumZ (map row_capacity (displayedRows roomBlocks allocation))
    - sumZ (map row_totalUsed (displayedRows roomBlocks allocation)).
Proof.
  rewrite !(sumZ_map_perm _ _ _ (displayedRows_perm _ _)).
  induction (catalogRooms roomBlocks) as [|room l IH]; simpl; [done|].
  unfold roomRow at 1 4 7.
  case_bool_decide; simpl;
    change (list_omap Room RoomRow (roomRow allocation) l)
      with (omap (roomRow allocation) l); lia.
Qed.

(** X6. The rows of the room-wise display add up to the statistics of the
    same run: their [totalUsed] to [allocatedStudents], their capacities to
    [totalCapacity] and their [wastedSeats] to [wastedSeats], on a catalog
    with unique room ids none of which is the error marker. *)
Theorem display_adds_up_to_stats algorithm roomBlocks sections minChunk :
  roomBlocks ≠ [] → uniqueRoomIds roomBlocks → strategyReady algorithm roomBlocks →
  NO_SPACE ∉ map no (catalogRooms roomBlocks) →
  ∃ allocation stats,
    allocateSeats algorithm roomBlocks sections minChunk
    = Some (Allocated allocation stats)
    ∧ sumZ (map row_totalUsed (displayedRows roomBlocks allocation))
      = allocatedStudents stats
    ∧ sumZ (map row_capacity (displayedRows roomBlocks allocation))
      = totalCapacity stats
    ∧ sumZ (map row_wastedSeats (displayedRows roomBlocks allocation))
      = wastedSeats stats.
Proof.
  intros Hne Hu Hready Hno. unfold allocateSeats.
  rewrite bool_decide_eq_false_2 by done.
  destruct (run_full algorithm roomBlocks sections minChunk Hu Hready)
    as (allRooms & res & Hrun & _ & Hin & I & _ & _).
  rewrite Hrun. cbn [mbind option_bind]. eexists _, _. split; [done|].
  pose proof (no_marker_room roomBlocks Hno) as Hno'.
  assert (sumZ (map row_totalUsed (displayedRows roomBlocks (result res)))
          = sumZ (map students (nonError (result res)))) as Hused.
  { rewrite (rows_sum roomBlocks minChunk allRooms res Hu Hin I Hno' _ (λ _ v, v))
      by done.
    rewrite (allocated_sum roomBlocks minChunk allRooms res Hu Hin I).
    symmetry. apply (usage_sum_by_room roomBlocks minChunk allRooms res Hu Hin I
                       (λ _ v, v)). }
  assert (sumZ (map row_capacity (displayedRows roomBlocks (result res)))
          = totalCapacity (calcStats roomBlocks [] res)) as Hcap.
  { rewrite (rows_sum roomBlocks minChunk allRooms res Hu Hin I Hno' _
               (λ room _, capacity room)) by done.
    rewrite totalCapacity_sum.
    symmetry. apply (usage_sum_by_room roomBlocks minChunk allRooms res Hu Hin I
                       (λ room _, capacity room)). }
  split; [exact Hused|]. split; [exact Hcap|].
  rewrite rows_wasted, Hused, Hcap. done.
Qed.

Lemma display_adds_up_to_stats_witness :
  ∃ allocation stats,
    allocateSeats 3 scnCatalogZ [scnX; scnY] 10
    = Some (Allocated allocation stats)
    ∧ sumZ (map row_totalUsed (displayedRows scnCatalogZ allocation))
      = allocatedStudents stats
    ∧ sumZ (map row_capacity (displayedRows scnCatalogZ allocation))
      = totalCapacity stats
    ∧ sumZ (map row_wastedSeats (displayedRows scnCatalogZ allocation))
      = wastedSeats stats.
Proof.
  apply (display_adds_up_to_stats 3 scnCatalogZ [scnX; scnY] 10).
  - discriminate.
  - by_evaluation.
  - exact I.
  - by_evaluation.
Defined.

(** ** Editing the sections *)

(** The strategies read the form only through the filter. *)
Lemma runStrategy_valid_only algorithm roomBlocks sections sections' minChunk :
  List.filter validGroup sections = List.filter validGroup sections' →
  runStrategy algorithm roomBlocks sections minChunk
  = runStrategy algorithm roomBlocks sections' minChunk.
Proof.
  intros E.
  unfold runStrategy, allocateSimpleGreedy, allocateGreedyMinChunk, greedyRun,
    allocateGreedyLookahead, allocateBestFitFFD, ffdRun, sectionLeft0.
  by rewrite E.
Qed.

Lemma filter_addSection sections :
  List.filter validGroup (addSection sections) = List.filter validGroup sections.
Proof. unfold addSection. rewrite List.filter_app. simpl. apply app_nil_r. Qed.

(** X7. A section row that was added and left blank changes nothing in
    the allocation, nor in the statistics except [totalStudents], which
    counts its 50 students. *)
Theorem blank_section_counted_not_seated algorithm roomBlocks sections minChunk
    allocation stats :
  allocateSeats algorithm roomBlocks sections minChunk
  = Some (Allocated allocation stats) →
  allocateSeats algorithm roomBlocks (addSection sections) minChunk
  = Some (Allocated allocation
            {| totalStudents := totalStudents stats + 50;
               allocatedStudents := allocatedStudents stats;
               roomsUsed := roomsUsed stats;
               blocksUsed := blocksUsed stats;
               totalCapacity := totalCapacity stats;
               wastedSeats := wastedSeats stats;
               efficiency := efficiency stats |}).
Proof.
  unfold allocateSeats. case_bool_decide; [done|].
  rewrite (runStrategy_valid_only _ _ (addSection sections) sections)
    by apply filter_addSection.
  destruct (runStrategy algorithm roomBlocks sections minChunk) as [res|]; [|done].
  cbn [mbind option_bind]. intros [= <- <-]. do 2 f_equal.
  unfold calcStats. f_equal. unfold addSection.
  rewrite map_app, sumZ_app. simpl. lia.
Qed.

Lemma blank_section_counted_not_seated_witness :
  ∃ allocation stats,
    allocateSeats 3 scnCatalog [scnX; scnY] 10 = Some (Allocated allocation stats)
    ∧ allocateSeats 3 scnCatalog (addSection [scnX; scnY]) 10
      = Some (Allocated allocation
                {| totalStudents := totalStudents stats + 50;
                   allocatedStudents := allocatedStudents stats;
                   roomsUsed := roomsUsed stats;
                   blocksUsed := blocksUsed stats;
                   totalCapacity := totalCapacity stats;
                   wastedSeats := wastedSeats stats;
                   efficiency := efficiency stats |}).
Proof.
  eexists _, _.
  split; [vm_compute; reflexivity|].
  apply (blank_section_counted_not_seated 3 scnCatalog [scnX; scnY] 10).
  vm_compute. reflexivity.
Defined.

Lemma max_id_bound sections s :
  s ∈ sections → s_id s ≤ foldr Z.max 0 (map s_id sections).
Proof.
  induction sections as [|x l IH]; simpl; intros Hs; [by apply elem_of_nil in Hs|].
  apply elem_of_cons in Hs as [->|Hs]; [lia|]. specialize (IH Hs). lia.
Qed.

(** X8. The id that [addSection] gives to the new row is positive and
    differs from every id in the form, so unique ids stay unique, and
    removing the new row gives back the form as it was. *)
Theorem added_section_fresh sections :
  0 < newSectionId sections
  ∧ (newSectionId sections ∉ map s_id sections)
  ∧ (NoDup (map s_id sections) → NoDup (map s_id (addSection sections)))
  ∧ removeSection (newSectionId sections) (addSection sections) = sections.
Proof.
  assert (∀ s, s ∈ sections → s_id s < newSectionId sections) as Hlt.
  { intros s Hs. pose proof (max_id_bound sections s Hs). unfold newSectionId. lia. }
  assert (newSectionId sections ∉ map s_id sections) as Hfresh.
  { intros Hin. apply list_elem_of_fmap in Hin as (s & E & Hs).
    specialize (Hlt s Hs). lia. }
  split; [|split; [done|split]].
  - unfold newSectionId.
    assert (0 ≤ foldr Z.max 0 (map s_id sections)); [|lia].
    clear. induction sections; simpl; lia.
  - intros Hnd. unfold addSection. rewrite map_app. simpl.
    apply NoDup_app. split; [done|]. split; [|apply NoDup_singleton].
    intros x Hx Hx'. apply list_elem_of_singleton in Hx'. by subst.
  - unfold removeSection, addSection. rewrite List.filter_app. simpl.
    rewrite Z.eqb_refl. simpl. rewrite app_nil_r.
    clear Hfresh. induction sections as [|s l IH]; simpl; [done|].
    assert ((s_id s =? newSectionId (s :: l)) = false) as ->.
    { apply Z.eqb_neq. specialize (Hlt s (list_elem_of_here _ _)). lia. }
    simpl. f_equal.
    assert (∀ n, (∀ x, x ∈ l → s_id x < n) →
                 List.filter (λ x, negb (s_id x =? n)) l = l) as Hall.
    { clear. intros n. induction l as [|x l IH]; simpl; intros H; [done|].
      assert ((s_id x =? n) = false) as ->
        by (apply Z.eqb_neq; specialize (H x (list_elem_of_here _ _)); lia).
      simpl. f_equal. apply IH. intros y Hy. by apply H, list_elem_of_further. }
    apply Hall. intros x Hx. by apply Hlt, list_elem_of_further.
Qed.

Lemma filter_invalid_edit parseInt id field value sections :
  match field with
  | FieldBranch | FieldSection => value = ""
  | FieldStudents => default 0 (parseInt value) ≤ 0
  end →
  List.filter validGroup (updateSection parseInt id field value sections)
  = List.filter validGroup (removeSection id sections).
Proof.
  intros Hbad. unfold updateSection, removeSection.
  induction sections as [|s l IH]; simpl; [done|].
  destruct (s_id s =? id); simpl; [|by rewrite IH].
  assert (validGroup
            match field with
            | FieldBranch =>
              {| s_id := s_id s; s_branch := value; s_section := s_section s;
                 s_students := s_students s |}
            | FieldSection =>
              {| s_id := s_id s; s_branch := s_branch s; s_section := value;
                 s_students := s_students s |}
            | FieldStudents =>
              {| s_id := s_id s; s_branch := s_branch s; s_section := s_section s;
                 s_students := default 0 (parseInt value) |}
            end = false) as ->; [|done].
  unfold validGroup. destruct field; simpl.
  - by rewrite Hbad.
  - rewrite Hbad. simpl. by rewrite andb_false_r.
  - assert ((0 <? default 0 (parseInt value)) = false) as ->
      by (apply Z.ltb_ge; lia).
    by rewrite andb_false_r.
Qed.

(** X9. An edit that empties the branch or the section label of a row, or
    sets its student count to text that [parseInt] does not read as a
    positive number, has the same effect on every strategy as removing the
    row; the edit itself keeps the ids of the form in place. *)
Theorem invalid_edit_drops_section parseInt id field value algorithm roomBlocks
    sections minChunk :
  match field with
  | FieldBranch | FieldSection => value = ""
  | FieldStudents => default 0 (parseInt value) ≤ 0
  end →
  map s_id (updateSection parseInt id field value sections) = map s_id sections
  ∧ runStrategy algorithm roomBlocks
      (updateSection parseInt id field value sections) minChunk
    = runStrategy algorithm roomBlocks (removeSection id sections) minChunk.
Proof.
  intros Hbad. split.
  - unfold updateSection. rewrite map_map. apply map_ext. intros s.
    destruct (s_id s =? id); [|done]. by destruct field.
  - by apply runStrategy_valid_only, filter_invalid_edit.
Qed.

Lemma invalid_edit_drops_section_witness :
  map s_id (updateSection (λ _, None) 1 FieldStudents "abc" [scnX; scnY])
  = map s_id [scnX; scnY]
  ∧ runStrategy 3 scnCatalog
      (updateSection (λ _, None) 1 FieldStudents "abc" [scnX; scnY]) 10
    = runStrategy 3 scnCatalog (removeSection 1 [scnX; scnY]) 10.
Proof.
  apply (invalid_edit_drops_section (λ _, None) 1 FieldStudents "abc" 3 scnCatalog
           [scnX; scnY] 10).
  simpl. lia.
Defined.

(** ** The results grouped by section *)

Lemma pushGrouped_keys key item acc :
  map fst (pushGrouped key item acc)
  = if bool_decide (key ∈ map fst acc) then map fst acc else map fst acc ++ [key].
Proof.
  induction acc as [|[k items] acc IH]; simpl; [done|].
  destruct (String.eqb k key) eqn:E; simpl.
  - apply String.eqb_eq in E. subst.
    by rewrite bool_decide_eq_true_2 by apply list_elem_of_here.
  - apply String.eqb_neq in E. rewrite IH. case_bool_decide as Hin.
    + by rewrite bool_decide_eq_true_2 by (by apply list_elem_of_further).
    + rewrite bool_decide_eq_false_2; [done|].
      intros H. apply elem_of_cons in H as [->|H]; done.
Qed.

Lemma pushGrouped_NoDup key item acc :
  NoDup (map fst acc) → NoDup (map fst (pushGrouped key item acc)).
Proof.
  intros Hnd. rewrite pushGrouped_keys. case_bool_decide as Hin; [done|].
  apply NoDup_app. split; [done|]. split; [|apply NoDup_singleton].
  intros x Hx Hx'. apply list_elem_of_singleton in Hx'. by subst.
Qed.

Lemma pushGrouped_elem key item acc k items :
  NoDup (map fst acc) →
  (k, items) ∈ pushGrouped key item acc
  ↔ (k ≠ key ∧ (k, items) ∈ acc)
    ∨ (k = key ∧ ∃ old, (key, old) ∈ acc ∧ items = old ++ [item])
    ∨ (k = key ∧ (key ∉ map fst acc) ∧ items = [item]).
Proof.
  induction acc as [|[k' items'] acc IH]; simpl; intros Hnd.
  - rewrite list_elem_of_singleton. split.
    + intros [= -> ->]. right. right. split; [done|]. split; [|done].
      apply not_elem_of_nil.
    + intros [[_ H]|[(_ & old & H & _)|(-> & _ & ->)]]; [| |done];
        by apply elem_of_nil in H.
  - apply NoDup_cons in Hnd as [Hk' Hnd].
    assert (∀ x, (k', x) ∈ acc → False) as Hout.
    { intros x Hx. apply Hk'. by apply (list_elem_of_fmap_2 fst _ (k', x)). }
    destruct (String.eqb k' key) eqn:E.
    + apply String.eqb_eq in E. subst k'. setoid_rewrite elem_of_cons.
      clear IH Hk'. split.
      * intros [[= -> ->]|H]; [|left; split; [intros ->; eauto|by right]].
        right. left. split; [done|]. exists items'. split; [by left|done].
      * intros [[Hne [[= ? ?]|H]]|[(-> & old & [[= <-]|H] & ->)|(-> & Hnot & _)]];
          [done|by right|by left|by destruct (Hout old)|].
        destruct Hnot. by left.
    + apply String.eqb_neq in E. rewrite elem_of_cons, (IH Hnd).
      setoid_rewrite elem_of_cons. clear IH Hk'. split.
      * intros [[= -> ->]|[[Hne H]|[(-> & old & H & ->)|(-> & Hnot & ->)]]].
        -- left. split; [done|by left].
        -- left. split; [done|by right].
        -- right. left. split; [done|]. exists old. split; [by right|done].
        -- right. right. split; [done|]. split; [|done].
           intros [H|H]; [by subst|done].
      * intros [[Hne [[= -> ->]|H]]|[(-> & old & [[= ? ?]|H] & ->)|(-> & Hnot & ->)]].
        -- by left.
        -- right. left. by split.
        -- by subst.
        -- right. right. left. split; [done|]. by exists old.
        -- right. right. right. split; [done|]. split; [|done].
           intros H. apply Hnot. by right.
Qed.

Lemma groupedAllocation_snoc allocation item :
  groupedAllocation (allocation ++ [item])
  = pushGrouped (sectionKey item) item (groupedAllocation allocation).
Proof. unfold groupedAllocation. by rewrite foldl_app. Qed.

Lemma groupedAllocation_spec allocation :
  NoDup (map fst (groupedAllocation allocation))
  ∧ ∀ k items,
      (k, items) ∈ groupedAllocation allocation
      ↔ items ≠ []
        ∧ items = List.filter (λ a, String.eqb (sectionKey a) k) allocation.
Proof.
  induction allocation as [|item allocation [IHnd IH]] using rev_ind.
  - split; [apply NoDup_nil_2|]. intros k items. simpl. split.
    + intros H. by apply elem_of_nil in H.
    + by intros [? ->].
  - rewrite groupedAllocation_snoc. split; [by apply pushGrouped_NoDup|].
    intros k items. rewrite (pushGrouped_elem _ _ _ _ _ IHnd).
    rewrite List.filter_app. simpl.
    assert (sectionKey item ∉ map fst (groupedAllocation allocation)
            ↔ List.filter (λ a, String.eqb (sectionKey a) (sectionKey item))
                          allocation = []) as Hfresh.
    { split.
      - intros Hnot.
        destruct (List.filter _ allocation) as [|x l] eqn:E; [done|]. exfalso.
        apply Hnot. apply (list_elem_of_fmap_2 fst _ (sectionKey item, x :: l)).
        apply IH. by rewrite E.
      - intros Hnil Hin. apply list_elem_of_fmap in Hin as ([k' old] & Hk & Hin).
        simpl in Hk. subst k'. apply IH in Hin as [Hne Hold]. congruence. }
    destruct (String.eqb (sectionKey item) k) eqn:E.
    + apply String.eqb_eq in E. subst k. split.
      * intros [[Hne _]|[(_ & old & Hold & ->)|(_ & Hnot & ->)]]; [done|..].
        -- apply IH in Hold as [_ <-]. split; [|done]. by destruct old.
        -- apply Hfresh in Hnot. by rewrite Hnot.
      * intros [_ ->].
        destruct (List.filter _ allocation) as [|x l] eqn:Eold.
        -- right. right. split; [done|]. split; [|done]. by apply Hfresh.
        -- right. left. split; [done|]. exists (x :: l). split; [|done].
           apply IH. by rewrite Eold.
    + apply String.eqb_neq in E. rewrite app_nil_r. split.
      * intros [[_ H]|[(-> & _)|(-> & _)]]; [by apply IH|done..].
      * intros H. left. split; [done|]. by apply IH.
Qed.

(** X10. [groupedAllocation] partitions the records by their key: no key
    is listed twice, and a key is listed with a list of records exactly
    when that list is not empty and holds, in their order, the records of
    the allocation with this key. *)
Theorem grouped_allocation_partition allocation :
  NoDup (map fst (groupedAllocation allocation))
  ∧ (∀ k items,
       (k, items) ∈ groupedAllocation allocation
       ↔ items ≠ []
         ∧ items = List.filter (λ a, String.eqb (sectionKey a) k) allocation)
  ∧ ∀ a, a ∈ allocation → sectionKey a ∈ map fst (groupedAllocation allocation).
Proof.
  destruct (groupedAllocation_spec allocation) as [Hnd Hspec].
  split; [done|]. split; [done|]. intros a Ha.
  apply (list_elem_of_fmap_2 fst _
           (sectionKey a,
            List.filter (λ x, String.eqb (sectionKey x) (sectionKey a)) allocation)).
  apply Hspec. split; [|done]. intros Hnil.
  assert (In a (List.filter (λ x, String.eqb (sectionKey x) (sectionKey a)) allocation))
    as Hin; [|by rewrite Hnil in Hin].
  apply List.filter_In. split; [by apply list_elem_of_In|apply String.eqb_refl].
Qed.

Lemma splitDash_dashFree s : dashFree s = true → splitDash s = [s].
Proof.
  induction s as [|c s IH]; simpl; [done|]. intros H.
  apply andb_prop in H as [Hc Hs]. apply negb_true_iff in Hc.
  by rewrite Hc, (IH Hs).
Qed.

Lemma splitDash_parts s : Forall (λ part, dashFree part = true) (splitDash s).
Proof.
  induction s as [|c s IH]; simpl; [by repeat constructor|].
  destruct (Ascii.eqb c "-") eqn:E; [by constructor|].
  destruct (splitDash s) as [|h t]; [by repeat constructor; simpl; rewrite E|].
  apply Forall_cons in IH as [Hh Ht]. constructor; [|done]. simpl. by rewrite E.
Qed.

Lemma splitDash_key b s :
  dashFree b = true → splitDash (b +:+ "-" +:+ s) = b :: splitDash s.
Proof.
  induction b as [|c b IH]; simpl; [done|]. intros H.
  apply andb_prop in H as [Hc Hb]. apply negb_true_iff in Hc.
  rewrite Hc. by rewrite (IH Hb).
Qed.

(** X11. The header of a group of results shows the branch and the
    section of its records exactly when neither holds a ["-"]: the key is
    split at every dash, so a dash in a name cuts the name short. *)
Theorem shown_identity_round_trip a :
  shownIdentity (sectionKey a) = (Some (branch a), Some (section a))
  ↔ dashFree (branch a) = true ∧ dashFree (section a) = true.
Proof.
  unfold shownIdentity, sectionKey. split.
  - intros [= H0 H1].
    pose proof (splitDash_parts (branch a +:+ "-" +:+ section a)) as Hparts.
    rewrite Forall_lookup in Hparts. split; [by apply (Hparts 0%nat)|by apply (Hparts 1%nat)].
  - intros [Hb Hs]. by rewrite splitDash_key, (splitDash_dashFree _ Hs).
Qed.

Lemma sectionKey_of_identity a g :
  identity g = recordIdentity a → sectionKey a = groupKey g.
Proof. unfold identity, recordIdentity, sectionKey, groupKey. by intros [= -> ->]. Qed.

Section Headers.

Variable minChunk : Z.
Variable allRooms : list FlatRoom.
Variable res : AllocResult.
Variable sections : list Group.
Hypothesis inv : Inv minChunk allRooms res.
Hypothesis accounted :
  ∀ i, groupSum i (result res) = demand i (List.filter validGroup sections).
Hypothesis uniqueKeys : NoDup (map groupKey (List.filter validGroup sections)).

Lemma uniqueKeys_identities : NoDup (map identity (List.filter validGroup sections)).
Proof.
  apply (NoDup_fmap_1 (λ i : string * string, i.1 +:+ "-" +:+ i.2)).
  change (NoDup (map (λ i : string * string, i.1 +:+ "-" +:+ i.2)
                     (map identity (List.filter validGroup sections)))).
  by rewrite map_map.
Qed.

Lemma records_of_key g :
  g ∈ sections → validGroup g = true →
  List.filter (λ a, String.eqb (sectionKey a) (groupKey g)) (result res)
  = List.filter (ofGroup (identity g)) (result res).
Proof.
  intros Hg Hv. apply filter_ext_in. intros a Ha. apply list_elem_of_In in Ha.
  rewrite ofGroup_recordIdentity.
  destruct (record_group minChunk allRooms res sections a inv accounted Ha)
    as (g' & Hg' & Hv' & Hid).
  destruct (String.eqb (sectionKey a) (groupKey g)) eqn:E; symmetry.
  - apply String.eqb_eq in E. apply bool_decide_eq_true_2.
    rewrite (sectionKey_of_identity a g' Hid) in E.
    assert (g' = g) as <-; [|done].
    apply (NoDup_map_inj groupKey _ _ _ uniqueKeys); [| |done];
      apply list_elem_of_In, List.filter_In; split; try done; by apply list_elem_of_In.
  - apply String.eqb_neq in E. apply bool_decide_eq_false_2. intros Heq.
    apply E. by apply sectionKey_of_identity.
Qed.

Lemma shownTotal_of_key g :
  g ∈ sections → validGroup g = true →
  shownTotal (List.filter (λ a, String.eqb (sectionKey a) (groupKey g)) (result res))
  = s_students g.
Proof.
  intros Hg Hv. rewrite (records_of_key g Hg Hv).
  change (groupSum (identity g) (result res) = s_students g).
  rewrite accounted. apply demand_unique; [apply uniqueKeys_identities|].
  apply list_elem_of_In, List.filter_In. split; [by apply list_elem_of_In|done].
Qed.

Lemma header_records k items :
  (k, items) ∈ groupedAllocation (result res) →
  ∃ g, g ∈ sections ∧ validGroup g = true ∧ k = groupKey g
       ∧ items = List.filter (ofGroup (identity g)) (result res).
Proof.
  intros Hin. destruct (groupedAllocation_spec (result res)) as [_ Hspec].
  apply Hspec in Hin as [Hne ->].
  destruct (List.filter (λ a, String.eqb (sectionKey a) k) (result res))
    as [|a l] eqn:E; [done|].
  assert (In a (List.filter (λ a, String.eqb (sectionKey a) k) (result res))) as Ha
    by (rewrite E; apply in_eq).
  apply List.filter_In in Ha as [Ha Hk]. apply String.eqb_eq in Hk.
  apply list_elem_of_In in Ha.
  destruct (record_group minChunk allRooms res sections a inv accounted Ha)
    as (g & Hg & Hv & Hid).
  exists g. rewrite (sectionKey_of_identity a g Hid) in Hk. subst k.
  split; [done|]. split; [done|]. split; [done|].
  rewrite <- E. by apply records_of_key.
Qed.

Lemma header_group k items :
  (k, items) ∈ groupedAllocation (result res) →
  ∃ g, g ∈ sections ∧ validGroup g = true ∧ k = groupKey g
       ∧ shownTotal items = s_students g
       ∧ ∀ a, a ∈ items → a ∈ result res.
Proof.
  intros Hin. destruct (groupedAllocation_spec (result res)) as [_ Hspec].
  apply Hspec in Hin as [Hne ->].
  destruct (List.filter (λ a, String.eqb (sectionKey a) k) (result res))
    as [|a l] eqn:E; [done|].
  assert (In a (List.filter (λ a, String.eqb (sectionKey a) k) (result res))) as Ha
    by (rewrite E; apply in_eq).
  apply List.filter_In in Ha as [Ha Hk]. apply String.eqb_eq in Hk.
  apply list_elem_of_In in Ha.
  destruct (record_group minChunk allRooms res sections a inv accounted Ha)
    as (g & Hg & Hv & Hid).
  exists g. rewrite (sectionKey_of_identity a g Hid) in Hk. subst k.
  split; [done|]. split; [done|]. split; [done|]. rewrite <- E. split.
  - by apply shownTotal_of_key.
  - intros x Hx. apply list_elem_of_In, List.filter_In in Hx as [Hx _].
    by apply list_elem_of_In.
Qed.

End Headers.

Lemma hasError_unseated (items : list Allocation) :
  (∀ a, a ∈ items → 0 < students a) →
  sumZ (map students (nonError items)) ≤ shownTotal items
  ∧ (hasError items = true ↔ sumZ (map students (nonError items)) < shownTotal items).
Proof.
  unfold shownTotal, hasError, nonError.
  induction items as [|a l IH]; simpl; intros Hpos; [split; [done|]; split; [done|lia]|].
  assert (0 < students a) as Ha by apply Hpos, list_elem_of_here.
  destruct IH as [IH1 IH2]; [intros x Hx; by apply Hpos, list_elem_of_further|].
  destruct (is_error a); simpl.
  - split; [lia|]. split; [lia|done].
  - split; [lia|]. rewrite IH2. lia.
Qed.

(** X12. In the results grouped by section, when the groups that pass
    the filter have pairwise distinct keys, every header stands for one
    such group and shows its full size as the number of students, whether
    or not all of them were seated; and every such group has its header. *)
Theorem header_shows_group_size algorithm roomBlocks sections minChunk :
  uniqueRoomIds roomBlocks → strategyReady algorithm roomBlocks →
  NoDup (map groupKey (List.filter validGroup sections)) →
  ∃ res,
    runStrategy algorithm roomBlocks sections minChunk = Some res
    ∧ (∀ k items,
         (k, items) ∈ groupedAllocation (result res) →
         ∃ g, g ∈ sections ∧ validGroup g = true ∧ k = groupKey g
              ∧ shownTotal items = s_students g)
    ∧ (∀ g, g ∈ sections → validGroup g = true →
         ∃ items, (groupKey g, items) ∈ groupedAllocation (result res)
                  ∧ shownTotal items = s_students g).
Proof.
  intros Hu Hready Hkeys.
  destruct (run_full algorithm roomBlocks sections minChunk Hu Hready)
    as (allRooms & res & Hrun & _ & _ & I & _ & Hacc).
  exists res. split; [done|].
  destruct (groupedAllocation_spec (result res)) as [_ Hspec]. split.
  - intros k items Hin.
    destruct (header_group minChunk allRooms res sections I Hacc Hkeys k items Hin)
      as (g & Hg & Hv & Hk & Htot & _).
    by exists g.
  - intros g Hg Hv.
    pose proof (shownTotal_of_key minChunk allRooms res sections I Hacc Hkeys g Hg Hv)
      as Htot.
    eexists. split; [|exact Htot]. apply Hspec. split; [|done].
    intros Hnil. rewrite Hnil in Htot. pose proof (validGroup_pos g Hv).
    unfold shownTotal in Htot. simpl in Htot. lia.
Qed.

Lemma header_shows_group_size_witness :
  ∃ res,
    runStrategy 1 (tinyCatalog 3) [bigX; smallY] 10 = Some res
    ∧ (∀ k items,
         (k, items) ∈ groupedAllocation (result res) →
         ∃ g, g ∈ [bigX; smallY] ∧ validGroup g = true ∧ k = groupKey g
              ∧ shownTotal items = s_students g)
    ∧ (∀ g, g ∈ [bigX; smallY] → validGroup g = true →
         ∃ items, (groupKey g, items) ∈ groupedAllocation (result res)
                  ∧ shownTotal items = s_students g).
Proof.
  apply (header_shows_group_size 1 (tinyCatalog 3) [bigX; smallY] 10).
  - by_evaluation.
  - exact I.
  - by_evaluation.
Defined.

(** X13. In the results grouped by section, when the groups that pass
    the filter have pairwise distinct keys, the error icon of a header is
    shown exactly when the group of the header is not fully seated, that is
    when the students of its seat records are fewer than the group's
    size. *)
Theorem error_icon_iff_unseated algorithm roomBlocks sections minChunk :
  uniqueRoomIds roomBlocks → strategyReady algorithm roomBlocks →
  NoDup (map groupKey (List.filter validGroup sections)) →
  ∃ res,
    runStrategy algorithm roomBlocks sections minChunk = Some res
    ∧ ∀ k items,
        (k, items) ∈ groupedAllocation (result res) →
        ∃ g, g ∈ sections ∧ validGroup g = true ∧ k = groupKey g
             ∧ (hasError items = true
                ↔ sumZ (map students (nonError items)) < s_students g).
Proof.
  intros Hu Hready Hkeys.
  destruct (run_full algorithm roomBlocks sections minChunk Hu Hready)
    as (allRooms & res & Hrun & _ & _ & I & _ & Hacc).
  exists res. split; [done|]. intros k items Hin.
  destruct (header_group minChunk allRooms res sections I Hacc Hkeys k items Hin)
    as (g & Hg & Hv & Hk & Htot & Hsub).
  exists g. split; [done|]. split; [done|]. split; [done|].
  rewrite <- Htot. apply hasError_unseated.
  intros a Ha. by apply (inv_pos I), Hsub.
Qed.

Lemma error_icon_iff_unseated_witness :
  ∃ res,
    runStrategy 2 scnCatalog [scnX; mkGroup 2 "Y" "1" 75] 10 = Some res
    ∧ ∀ k items,
        (k, items) ∈ groupedAllocation (result res) →
        ∃ g, g ∈ [scnX; mkGroup 2 "Y" "1" 75] ∧ validGroup g = true ∧ k = groupKey g
             ∧ (hasError items = true
                ↔ sumZ (map students (nonError items)) < s_students g).
Proof.
  apply (error_icon_iff_unseated 2 scnCatalog [scnX; mkGroup 2 "Y" "1" 75] 10).
  - by_evaluation.
  - exact I.
  - by_evaluation.
Defined.

(** ** Strategy 4: the blocks are filled in the order of the table *)

Lemma fold_insert_keys (i : nat) (rns : list string) (m : gmap string nat) k :
  is_Some (m !! k) ∨ k ∈ rns →
  is_Some (foldl (λ m' roomNo, <[roomNo := i]> m') m rns !! k).
Proof.
  revert m. induction rns as [|rn rns IH]; intros m; simpl.
  - intros [H|H]; [done|by apply elem_of_nil in H].
  - intros H. apply IH. rewrite lookup_insert_is_Some.
    destruct (decide (rn = k)) as [->|Hne]; [left; by left|].
    destruct H as [H|H]; [left; right; by split|].
    apply elem_of_cons in H as [->|H]; [done|by right].
Qed.

Lemma fold_blocks_keys (l : list (nat * list string)) (m : gmap string nat) k :
  is_Some (m !! k) ∨ (∃ ib, ib ∈ l ∧ k ∈ ib.2) →
  is_Some (foldl (λ m ib, foldl (λ m' roomNo, <[roomNo := ib.1]> m') m ib.2) m l !! k).
Proof.
  revert m. induction l as [|ib l IH]; intros m; simpl.
  - intros [H|(ib & H & _)]; [done|by apply elem_of_nil in H].
  - intros H. apply IH.
    destruct H as [H|(ib' & Hin & Hk)].
    + left. apply fold_insert_keys. by left.
    + apply elem_of_cons in Hin as [->|Hin].
      * left. apply fold_insert_keys. by right.
      * right. by exists ib'.
Qed.

Lemma roomToBlockIdx_is_Some blocks k :
  k ∈ concat blocks → is_Some (roomToBlockIdx blocks !! k).
Proof.
  intros Hk. apply list_elem_of_In, in_concat in Hk as (rns & Hrns & Hk).
  apply list_elem_of_In, list_elem_of_lookup in Hrns as [i Hi].
  unfold roomToBlockIdx. apply fold_blocks_keys. right.
  exists (i, rns). split; [|by apply list_elem_of_In].
  by apply (elem_of_lookup_imap_2 pair).
Qed.

Lemma ffdRooms_indexed blocks roomBlocks allRooms r :
  ffdRooms blocks roomBlocks = Some allRooms → r ∈ allRooms →
  is_Some (roomToBlockIdx blocks !! fr_no r).
Proof.
  unfold ffdRooms. intros H Hr. apply mapM_Some in H.
  apply list_elem_of_lookup in Hr as [i Hi].
  destruct (Forall2_lookup_r _ _ _ _ _ H Hi) as (k & Hk & Hfind).
  apply findRoom_spec in Hfind as [_ ->].
  apply roomToBlockIdx_is_Some. by eapply list_elem_of_lookup_2.
Qed.

Section BlockOrder.

Variable blocks : list (list string).
Variable minChunk : Z.
Variable allRooms : list FlatRoom.
Hypothesis indexed : ∀ r, r ∈ allRooms → is_Some (roomToBlockIdx blocks !! fr_no r).

(** What the run maintains: the blocks are taken in order and no usage is
    negative. *)
Local Abbreviation orderInv st :=
  (blocksInOrder blocks st ∧ ∀ k, 0 ≤ usage (roomUsage (f_out st)) k).

Lemma orderInv_init : orderInv ffdInit.
Proof.
  split; [split|].
  - intros a Ha. by apply elem_of_nil in Ha.
  - simpl. intros i rns rn Hi. lia.
  - intros k. unfold usage. simpl. by rewrite lookup_empty.
Qed.

Lemma unlocked_index cursor room :
  room ∈ allRooms → blockLocked blocks cursor room = false →
  ∃ j, roomToBlockIdx blocks !! fr_no room = Some j ∧ (j ≤ cursor)%nat.
Proof.
  intros Hroom. unfold blockLocked. destruct (indexed room Hroom) as [j Hj].
  rewrite Hj. intros H. exists j. split; [done|]. apply Nat.ltb_ge in H. lia.
Qed.

Lemma placeFfd_order st s room n part st' :
  placeFfd blocks st (seatRecord s room (usage (roomUsage (f_out st)) (fr_no room)) n part)
           (fr_no room) (usage (roomUsage (f_out st)) (fr_no room) + n) = Some st' →
  room ∈ allRooms → blockLocked blocks (maxBlockIdx st) room = false → 0 < n →
  orderInv st → orderInv st'.
Proof.
  unfold placeFfd. intros Hplace Hroom Hopen Hn [[Hrec Hfull] Hpos].
  destruct (unlock _ _ _) as [c|] eqn:Eu; [|done].
  simpl in Hplace. injection Hplace as <-. simpl.
  pose proof (Hpos (fr_no room)) as Hused.
  assert (∀ k, usage (roomUsage (f_out st)) k
               ≤ usage (<[fr_no room := usage (roomUsage (f_out st)) (fr_no room) + n]>
                          (roomUsage (f_out st))) k) as Hgrow.
  { intros k. rewrite usage_insert. destruct (decide (fr_no room = k)) as [<-|]; lia. }
  pose proof (unlock_mono blocks _ _ _ Eu) as [Hmono _].
  split; [split|]; simpl.
  - intros a Ha He. apply elem_of_app in Ha as [Ha|Ha].
    + destruct (Hrec a Ha He) as (j & Hj & Hle). exists j. split; [done|lia].
    + apply list_elem_of_singleton in Ha as ->. simpl.
      destruct (unlocked_index _ _ Hroom Hopen) as (j & Hj & Hle).
      exists j. split; [done|lia].
  - intros i rns rn Hi Hrns Hrn.
    destruct (decide (i < maxBlockIdx st)%nat) as [Hlt|Hge].
    + specialize (Hfull i rns rn Hlt Hrns Hrn). specialize (Hgrow rn). lia.
    + unfold unlock in Eu. simpl in Eu.
      destruct (blocks !! maxBlockIdx st) as [b|] eqn:Eb; [|done]. simpl in Eu.
      destruct (forallb _ b && (maxBlockIdx st <? length blocks - 1)%nat) eqn:Et;
        injection Eu as <-; [|lia].
      assert (i = maxBlockIdx st) as -> by lia.
      rewrite Eb in Hrns. injection Hrns as <-.
      apply andb_prop in Et as [Et _]. rewrite forallb_forall in Et.
      apply list_elem_of_In in Hrn. specialize (Et rn Hrn). simpl in Et. lia.
  - intros k. specialize (Hgrow k). specialize (Hpos k). lia.
Qed.

Lemma bestFitScan_unlocked cursor u remaining todo i best space j :
  bestFitScan blocks cursor u remaining todo i best space = Some j →
  best = Some j
  ∨ ∃ room, todo !! (j - i)%nat = Some room ∧ (i ≤ j)%nat
            ∧ blockLocked blocks cursor room = false.
Proof.
  revert i best space. induction todo as [|room rest IH]; intros i best space; simpl.
  - intros ->. by left.
  - assert (∀ best' space',
      bestFitScan blocks cursor u remaining rest (S i) best' space' = Some j →
      best' = Some j ∨ ∃ room0, (room :: rest) !! (j - i)%nat = Some room0 ∧ (i ≤ j)%nat
        ∧ blockLocked blocks cursor room0 = false) as Hnext.
    { intros best' space' H. apply IH in H as [H|(room0 & H1 & H2 & H3)]; [by left|].
      right. exists room0. split; [|split; [lia|done]].
      replace (j - i)%nat with (S (j - S i)) by lia. done. }
    destruct (blockLocked blocks cursor room) eqn:El; [apply Hnext|].
    destruct (_ && _) eqn:E; [|apply Hnext].
    intros H. apply Hnext in H as [[= <-]|H]; [|by right].
    right. exists room. rewrite Nat.sub_diag. by split.
Qed.

Lemma firstFitScan_order s st remaining todo st' remaining' :
  firstFitScan blocks minChunk allRooms s st remaining todo = Some (Placed st' remaining') →
  todo ⊆ allRooms → 0 < remaining → orderInv st → orderInv st'.
Proof.
  intros Hscan Hsub Hrem Hinv. induction todo as [|room rest IH]; simpl in Hscan; [done|].
  apply cons_subseteq_inv in Hsub as [Hroom Hrest].
  destruct (blockLocked blocks (maxBlockIdx st) room) eqn:El; [by apply IH|].
  destruct (fr_capacity room - usage (roomUsage (f_out st)) (fr_no room) <=? 0) eqn:Eav;
    [by apply IH|].
  destruct (guardSkips _ _ _ _ _ _); [by apply IH|].
  destruct (placeFfd _ _ _ _ _) as [st1|] eqn:Ep; [|done].
  simpl in Hscan. injection Hscan as <- _.
  apply (placeFfd_order _ _ _ _ _ _ Ep); [done|done|lia|done].
Qed.

Lemma ffdTurn_order s st remaining st' remaining' :
  ffdTurn blocks minChunk allRooms s st remaining = Some (Placed st' remaining') →
  0 < remaining → orderInv st → orderInv st'.
Proof.
  unfold ffdTurn. intros Hturn Hrem Hinv.
  destruct (bestFitScan _ _ _ _ _ _ _ _) as [j|] eqn:Eb;
    [|by apply (firstFitScan_order s st remaining allRooms st' remaining')].
  apply bestFitScan_unlocked in Eb as [?|(room & Hj & _ & Hopen)]; [done|].
  rewrite Nat.sub_0_r in Hj. rewrite Hj in Hturn. simpl in Hturn.
  assert (room ∈ allRooms) as Hroom by (by eapply list_elem_of_lookup_2).
  match type of Hturn with context [if ?c then Some Break else _] => destruct c end;
    [done|].
  destruct (placeFfd _ _ _ _ _) as [st1|] eqn:Ep; [|done].
  simpl in Hturn. injection Hturn as <- _.
  by apply (placeFfd_order _ _ _ _ _ _ Ep).
Qed.

Lemma ffdWhile_order s fuel st remaining r :
  ffdWhile blocks fuel minChunk allRooms s st remaining = Some r →
  orderInv st → orderInv r.1.
Proof.
  revert st remaining. induction fuel as [|fuel IH]; intros st remaining; simpl.
  - destruct (0 <? remaining); simpl; [done|]. by intros [= <-].
  - destruct (0 <? remaining) eqn:E; simpl; [|by intros [= <-]].
    destruct (ffdTurn _ _ _ _ _ _) as [[st1 remaining1|]|] eqn:Et; simpl; [| |done].
    + intros H Hinv. apply (IH _ _ H). apply (ffdTurn_order _ _ _ _ _ Et); [lia|done].
    + by intros [= <-].
Qed.

Lemma ffdSection_order s st st' :
  ffdSection blocks minChunk allRooms st s = Some st' → orderInv st → orderInv st'.
Proof.
  unfold ffdSection. destruct (ffdWhile _ _ _ _ _ _ _) as [r|] eqn:E; [|done].
  simpl. intros [= <-] Hinv. pose proof (ffdWhile_order _ _ _ _ _ E Hinv) as [[H1 H2] H3].
  destruct (0 <? r.2); [|done]. split; [split|]; simpl; [|done..].
  intros a Ha He. apply elem_of_app in Ha as [Ha|Ha]; [by apply H1|].
  apply list_elem_of_singleton in Ha as ->. done.
Qed.

Lemma ffdSections_order todo st st' :
  ffdSections blocks minChunk allRooms todo st = Some st' → orderInv st → orderInv st'.
Proof.
  revert st. induction todo as [|s rest IH]; intros st; simpl; [by intros [= <-]|].
  destruct (ffdSection _ _ _ _ _) as [st1|] eqn:E; [|done]. simpl.
  intros H Hinv. apply (IH _ H). by apply (ffdSection_order _ _ _ E).
Qed.

End BlockOrder.

Lemma ffdRun_order roomBlocks sections minChunk :
  catalogCovers orderedRoomBlocks roomBlocks →
  ∃ allRooms final,
    ffdRooms orderedRoomBlocks roomBlocks = Some allRooms
    ∧ ffdRun orderedRoomBlocks roomBlocks sections minChunk = Some final
    ∧ runStrategy 4 roomBlocks sections minChunk = Some (f_out final)
    ∧ blocksInOrder orderedRoomBlocks final.
Proof.
  intros Hcov.
  destruct (ffd_ok orderedRoomBlocks roomBlocks sections minChunk)
    as (allRooms & final & Hrooms & Hrun & _ & _); [simpl; lia|done|].
  exists allRooms, final. split; [done|]. split; [done|]. split.
  - unfold runStrategy, allocateBestFitFFD. simpl. by rewrite Hrun.
  - unfold ffdRun in Hrun. rewrite Hrooms in Hrun. cbn [mbind option_bind] in Hrun.
    apply (ffdSections_order orderedRoomBlocks minChunk allRooms) in Hrun as [H _].
    + done.
    + intros r Hr. by apply (ffdRooms_indexed _ roomBlocks allRooms).
    + apply orderInv_init.
Qed.

(** X14. The Best-Fit/FFD strategy takes the blocks of its table in
    order: in the state that a run ends in, every placement is in a room
    that the table puts in a block up to the cursor, and every room of the
    blocks before the cursor holds at least one student. *)
Theorem ffd_takes_blocks_in_order roomBlocks sections minChunk :
  catalogCovers orderedRoomBlocks roomBlocks →
  ∃ final,
    ffdRun orderedRoomBlocks roomBlocks sections minChunk = Some final
    ∧ runStrategy 4 roomBlocks sections minChunk = Some (f_out final)
    ∧ blocksInOrder orderedRoomBlocks final.
Proof.
  intros Hcov.
  destruct (ffdRun_order roomBlocks sections minChunk Hcov)
    as (allRooms & final & _ & Hrun & Hres & Hord).
  by exists final.
Qed.

Lemma ffd_takes_blocks_in_order_witness :
  ∃ final,
    ffdRun orderedRoomBlocks (demoCatalog 30) [mkGroup 1 "X" "1" 340] 10 = Some final
    ∧ runStrategy 4 (demoCatalog 30) [mkGroup 1 "X" "1" 340] 10 = Some (f_out final)
    ∧ blocksInOrder orderedRoomBlocks final.
Proof.
  apply (ffd_takes_blocks_in_order (demoCatalog 30) [mkGroup 1 "X" "1" 340] 10).
  by_evaluation.
Defined.

(** X15. A room of the table that can take no one keeps the cursor of
    the Best-Fit/FFD strategy on its block: when a room of block [i] has
    capacity 0 or less, no student is placed in a block after [i], however
    many seats those blocks have. *)
Theorem dead_room_locks_later_blocks roomBlocks sections minChunk room i rns :
  uniqueRoomIds roomBlocks → catalogCovers orderedRoomBlocks roomBlocks →
  room ∈ catalogRooms roomBlocks → capacity room ≤ 0 →
  orderedRoomBlocks !! i = Some rns → no room ∈ rns →
  ∃ res,
    runStrategy 4 roomBlocks sections minChunk = Some res
    ∧ ∀ a, a ∈ result res → is_error a = false →
           ∃ j, roomToBlockIdx orderedRoomBlocks !! roomNo a = Some j ∧ (j ≤ i)%nat.
Proof.
  intros Hu Hcov Hroom Hcap Hi Hrn.
  destruct (ffdRun_order roomBlocks sections minChunk Hcov)
    as (allRooms & final & _ & _ & Hres & Hrec & Hfull).
  destruct (run_full 4 roomBlocks sections minChunk Hu Hcov)
    as (allRooms' & res & Hrun & _ & Hin & I & _ & _).
  rewrite Hres in Hrun. injection Hrun as <-.
  exists (f_out final). split; [done|]. intros a Ha He.
  destruct (Hrec a Ha He) as (j & Hj & Hle). exists j. split; [done|].
  destruct (decide (i < maxBlockIdx final)%nat) as [Hlt|]; [|lia].
  specialize (Hfull i rns (no room) Hlt Hi Hrn).
  pose proof (no_usage_without_capacity roomBlocks minChunk allRooms' (f_out final)
                Hu Hin I room Hroom Hcap) as Hnone.
  unfold usage in Hfull. rewrite Hnone in Hfull. simpl in Hfull. lia.
Qed.

Lemma dead_room_locks_later_blocks_witness :
  ∃ res,
    runStrategy 4 deadRoomCatalog [mkGroup 1 "X" "1" 340] 10 = Some res
    ∧ ∀ a, a ∈ result res → is_error a = false →
           ∃ j, roomToBlockIdx orderedRoomBlocks !! roomNo a = Some j ∧ (j ≤ 0)%nat.
Proof.
  apply (dead_room_locks_later_blocks deadRoomCatalog [mkGroup 1 "X" "1" 340] 10
           (mkRoom "APJ-3" 0 []) 0
           ["APJ-1";"APJ-2";"APJ-3";"APJ-4";"APJ-5";"APJ-6";"APJ-7";"APJ-8";"APJ-9";
            "APJ-10";"APJ-11"]).
  - by_evaluation.
  - by_evaluation.
  - simpl. repeat constructor.
  - simpl. lia.
  - reflexivity.
  - simpl. repeat constructor.
Defined.

(** ** With the threshold at 1 or below no seat is left free *)

Lemma errorRecords_app l1 l2 :
  errorRecords (l1 ++ l2) = errorRecords l1 ++ errorRecords l2.
Proof. apply List.filter_app. Qed.

Section NoFreeSeat.

Variable minChunk : Z.
Variable allRooms : list FlatRoom.
Hypothesis lowThreshold : minChunk ≤ 1.

(** Every room of a list is full. *)
Local Abbreviation roomsFull todo u :=
  (∀ room : FlatRoom, room ∈ todo → fr_capacity room ≤ usage u (fr_no room)).

Lemma guard_open u used toAllocate remaining :
  0 < toAllocate → guardSkips minChunk allRooms u used toAllocate remaining = false.
Proof.
  intros H. unfold guardSkips.
  replace (toAllocate <? minChunk) with false by lia.
  by rewrite andb_false_r.
Qed.

Lemma greedyRooms_full s todo st remaining st' remaining' :
  0 ≤ remaining →
  greedyRooms minChunk allRooms s todo st remaining = (st', remaining') →
  (∀ k, usage (roomUsage st) k ≤ usage (roomUsage st') k)
  ∧ errorRecords (result st') = errorRecords (result st)
  ∧ 0 ≤ remaining' ≤ remaining
  ∧ (0 < remaining' → roomsFull todo (roomUsage st')).
Proof.
  revert st remaining. induction todo as [|room rest IH]; intros st remaining Hrem; simpl.
  - intros [= <- <-]. repeat split; try done.
    intros _ room Hroom. by apply elem_of_nil in Hroom.
  - destruct (remaining =? 0) eqn:E0.
    { intros [= <- <-]. repeat split; try done. lia. }
    destruct (fr_capacity room - usage (roomUsage st) (fr_no room) <=? 0) eqn:Eav.
    { intros H. destruct (IH _ _ Hrem H) as (Hgrow & Herr & Hle & Hfull).
      repeat split; try done; try lia. intros Hpos r Hr.
      apply elem_of_cons in Hr as [->|Hr]; [|by apply Hfull].
      specialize (Hgrow (fr_no room)). lia. }
    rewrite guard_open by lia.
    intros H. apply IH in H as (Hgrow & Herr & Hle & Hfull); [|lia].
    simpl in Hgrow, Herr.
    assert (∀ k, usage (roomUsage st) k ≤ usage (roomUsage st') k) as Hgrow'.
    { intros k. specialize (Hgrow k). rewrite usage_insert in Hgrow.
      destruct (decide (fr_no room = k)) as [<-|]; lia. }
    repeat split; try done; try lia.
    + rewrite Herr, errorRecords_app. simpl. apply app_nil_r.
    + intros Hpos r Hr. apply elem_of_cons in Hr as [->|Hr]; [|by apply Hfull].
      specialize (Hgrow (fr_no room)). rewrite usage_insert, decide_True in Hgrow by done.
      lia.
Qed.

Lemma greedySection_full st s :
  0 ≤ s_students s →
  (errorRecords (result st) ≠ [] → roomsFull allRooms (roomUsage st)) →
  errorRecords (result (greedySection minChunk allRooms st s)) ≠ [] →
  roomsFull allRooms (roomUsage (greedySection minChunk allRooms st s)).
Proof.
  intros Hs Hinv. unfold greedySection.
  destruct (greedyRooms minChunk allRooms s allRooms st (s_students s))
    as [st1 remaining1] eqn:E.
  apply greedyRooms_full in E as (Hgrow & Herr & Hle & Hfull); [|done].
  destruct (0 <? remaining1) eqn:Epos; simpl.
  - intros _. apply Hfull. lia.
  - rewrite Herr. intros Hne room Hroom.
    specialize (Hinv Hne room Hroom). specialize (Hgrow (fr_no room)). lia.
Qed.

Lemma greedy_foldl_full l st :
  Forall (λ s, 0 < s_students s) l →
  (errorRecords (result st) ≠ [] → roomsFull allRooms (roomUsage st)) →
  errorRecords (result (foldl (greedySection minChunk allRooms) st l)) ≠ [] →
  roomsFull allRooms (roomUsage (foldl (greedySection minChunk allRooms) st l)).
Proof.
  revert st. induction l as [|s l IH]; intros st Hpos Hinv; simpl; [done|].
  apply Forall_cons in Hpos as [Hs Hpos]. apply IH; [done|].
  apply greedySection_full; [lia|done].
Qed.

End NoFreeSeat.

Section NoFreeSeatLookahead.

Variable minChunk : Z.
Variable allRooms : list FlatRoom.
Hypothesis lowThreshold : minChunk ≤ 1.

Local Abbreviation positive l := (Forall (λ s : Group, 0 < s_students s) l).
Local Abbreviation seated l := (Forall (λ a : Allocation, is_error a = false) l).

(** With the threshold at 1 or below the loop that fills a room only ends
    when the room is full or no section is left. *)
Lemma lookaheadFill_full fuel u room fs fs' :
  lookaheadFill fuel minChunk allRooms u room fs = Some fs' →
  positive (sectionLeft fs) → seated (allocationsForRoom fs) →
  (allocationsForRoom fs = [] → seatsLeft fs = fr_capacity room) →
  (sectionLeft fs' = [] ∨ seatsLeft fs' ≤ 0)
  ∧ positive (sectionLeft fs')
  ∧ seated (allocationsForRoom fs')
  ∧ (allocationsForRoom fs' = [] → seatsLeft fs' = fr_capacity room)
  ∧ (sectionLeft fs = [] → sectionLeft fs' = []).
Proof.
  revert fs. induction fuel as [|fuel IH]; intros fs; simpl.
  - destruct (negb _) eqn:Econd; [|done]. intros [= <-] Hpos Hseat Hempty.
    split; [|done]. apply negb_true_iff, andb_false_iff in Econd as [E|E].
    + right. lia.
    + left. apply negb_false_iff in E. by apply bool_decide_eq_true_1 in E.
  - destruct (negb _) eqn:Econd.
    { intros [= <-] Hpos Hseat Hempty.
      split; [|done]. apply negb_true_iff, andb_false_iff in Econd as [E|E].
      - right. lia.
      - left. apply negb_false_iff in E. by apply bool_decide_eq_true_1 in E. }
    apply negb_false_iff, andb_prop in Econd as [Hseats Hpool].
    apply negb_true_iff, bool_decide_eq_false_1 in Hpool.
    destruct (bestWhole (seatsLeft fs) (sectionLeft fs) 0 None 0) as [bestIdx|].
    + destruct (sectionLeft fs !! bestIdx) as [s|] eqn:Es; [|done]. simpl.
      intros Hrun Hpos Hseat Hempty.
      assert (0 < s_students s) as Hs
        by (by apply (Forall_lookup_1 _ _ _ _ Hpos Es)).
      replace (s_students s <? minChunk) with false in Hrun by lia.
      rewrite andb_false_r in Hrun. simpl in Hrun.
      apply IH in Hrun as (H1 & H0 & H2 & H3 & H4); simpl.
      * repeat split; try done.
      * by apply Forall_delete.
      * apply Forall_app. split; [done|]. by repeat constructor.
      * intros H. by destruct (allocationsForRoom fs).
    + destruct (head (sort_desc s_students (sectionLeft fs))) as [s|] eqn:Es; [|done].
      simpl. intros Hrun Hpos Hseat Hempty.
      assert (positive (sort_desc s_students (sectionLeft fs))) as Hsorted
        by (by rewrite sort_desc_perm).
      destruct (sort_desc s_students (sectionLeft fs)) as [|s0 rest] eqn:Esort; [done|].
      simpl in Es. injection Es as ->.
      apply Forall_cons in Hsorted as [Hs Hrest].
      replace ((0 <? s_students s - seatsLeft fs)
               && (s_students s - seatsLeft fs <? minChunk)
               && (seatsLeft fs <? minChunk)) with false in Hrun
        by (destruct (0 <? s_students s - seatsLeft fs) eqn:E1; simpl; [|done];
            replace (s_students s - seatsLeft fs <? minChunk) with false by lia; done).
      replace (Z.min (seatsLeft fs) (s_students s) <? minChunk) with false in Hrun by lia.
      rewrite andb_false_r in Hrun. simpl in Hrun.
      apply IH in Hrun as (H1 & H0 & H2 & H3 & H4); simpl.
      * repeat split; try done.
      * destruct (s_students s - Z.min (seatsLeft fs) (s_students s) =? 0) eqn:E0;
          [done|]. apply Forall_cons. split; [simpl; lia|done].
      * apply Forall_app. split; [done|]. by repeat constructor.
      * intros H. by destruct (allocationsForRoom fs).
Qed.

Lemma lookaheadRoom_full st room st' :
  lookaheadRoom minChunk allRooms st room = Some st' →
  positive (l_sectionLeft st) →
  roomUsage (l_out st) !! fr_no room = None →
  (l_sectionLeft st' = []
   ∨ fr_capacity room ≤ usage (roomUsage (l_out st')) (fr_no room))
  ∧ positive (l_sectionLeft st')
  ∧ (∀ k, k ≠ fr_no room → roomUsage (l_out st') !! k = roomUsage (l_out st) !! k)
  ∧ errorRecords (result (l_out st')) = errorRecords (result (l_out st))
  ∧ (l_sectionLeft st = [] → l_sectionLeft st' = []).
Proof.
  unfold lookaheadRoom. intros Hrun Hpos Hfresh.
  destruct (perfectFit room (l_sectionLeft st)) as [fs0|] eqn:Ep; [|done].
  cbn [mbind option_bind] in Hrun.
  destruct (lookaheadFill _ _ _ _ _ fs0) as [fs|] eqn:Ef; [|done].
  cbn [mbind option_bind] in Hrun. injection Hrun as <-. simpl.
  assert (positive (sectionLeft fs0) ∧ seated (allocationsForRoom fs0)
          ∧ (allocationsForRoom fs0 = [] → seatsLeft fs0 = fr_capacity room)
          ∧ (l_sectionLeft st = [] → sectionLeft fs0 = [])) as (P1 & P2 & P3 & P4).
  { unfold perfectFit in Ep.
    destruct (findIndex _ (l_sectionLeft st)) as [i|].
    - destruct (l_sectionLeft st !! i) as [s|] eqn:Es; [|done].
      simpl in Ep. injection Ep as <-. simpl.
      split; [by apply Forall_delete|]. split; [by repeat constructor|].
      split; [done|]. intros H. by rewrite H in Es.
    - injection Ep as <-. simpl. by repeat split. }
  apply lookaheadFill_full in Ef as (H1 & Hpos' & H2 & H3 & H4); [|done..].
  split; [|split; [done|split; [|split]]].
  - destruct H1 as [H1|H1]; [by left|]. right. case_bool_decide as E.
    + unfold usage. rewrite Hfresh. simpl. rewrite <- (H3 E). done.
    + rewrite usage_insert, decide_True by done. lia.
  - intros k Hk. case_bool_decide; [done|]. by rewrite lookup_insert_ne.
  - rewrite errorRecords_app.
    assert (errorRecords (allocationsForRoom fs) = []) as ->; [|apply app_nil_r].
    clear -H2. induction H2 as [|a l Ha _ IH]; simpl; [done|]. by rewrite Ha.
  - intros H. by apply H4, P4.
Qed.

Lemma lookaheadRooms_full todo st st' :
  lookaheadRooms minChunk allRooms todo st = Some st' →
  positive (l_sectionLeft st) → NoDup (map fr_no todo) →
  (∀ room, room ∈ todo → roomUsage (l_out st) !! fr_no room = None) →
  (l_sectionLeft st' ≠ [] →
   ∀ room, room ∈ todo → fr_capacity room ≤ usage (roomUsage (l_out st')) (fr_no room))
  ∧ (∀ k, k ∉ map fr_no todo → roomUsage (l_out st') !! k = roomUsage (l_out st) !! k)
  ∧ errorRecords (result (l_out st')) = errorRecords (result (l_out st))
  ∧ (l_sectionLeft st = [] → l_sectionLeft st' = []).
Proof.
  revert st. induction todo as [|room rest IH]; intros st; simpl.
  - intros [= <-] _ _ _. repeat split; try done.
    intros _ room Hroom. by apply elem_of_nil in Hroom.
  - destruct (lookaheadRoom minChunk allRooms st room) as [st1|] eqn:E1; [|done].
    cbn [mbind option_bind]. intros Hrun Hpos Hnd Hfresh.
    apply NoDup_cons in Hnd as [Hroom Hnd].
    apply lookaheadRoom_full in E1 as (F1 & F2 & F3 & F4 & F5);
      [|done|apply Hfresh, list_elem_of_here].
    apply IH in Hrun as (G1 & G2 & G3 & G4); [|done|done|].
    + repeat split.
      * intros Hne r Hr. apply elem_of_cons in Hr as [->|Hr]; [|by apply G1].
        destruct F1 as [F1|F1]; [by destruct Hne; apply G4|].
        unfold usage in *. by rewrite (G2 _ Hroom).
      * intros k Hk. apply not_elem_of_cons in Hk as [Hk1 Hk2].
        rewrite (G2 k Hk2). by apply F3.
      * congruence.
      * intros H. by apply G4, F5.
    + intros r Hr. rewrite F3.
      * by apply Hfresh, list_elem_of_further.
      * intros E. apply Hroom. rewrite <- E. by apply list_elem_of_fmap_2.
Qed.

End NoFreeSeatLookahead.

(** X16. With the threshold at 1 or below, strategies 1 to 3 leave no
    seat free while they report students as unseated: when the output holds
    an error record, every room of the catalog is filled to its capacity
    (a catalog with unique room ids). *)
Theorem no_free_seat_left algorithm roomBlocks sections minChunk :
  1 ≤ algorithm ≤ 3 → uniqueRoomIds roomBlocks → minChunk ≤ 1 →
  ∃ res,
    runStrategy algorithm roomBlocks sections minChunk = Some res
    ∧ (errorRecords (result res) ≠ [] →
       ∀ room, room ∈ catalogRooms roomBlocks →
               capacity room ≤ usage (roomUsage res) (no room)).
Proof.
  intros Halg Hu Hmc.
  assert (∀ res,
    (errorRecords (result res) ≠ [] →
     ∀ r, r ∈ sortedRooms roomBlocks →
          fr_capacity r ≤ usage (roomUsage res) (fr_no r)) →
    errorRecords (result res) ≠ [] →
    ∀ room, room ∈ catalogRooms roomBlocks →
            capacity room ≤ usage (roomUsage res) (no room)) as Hcat.
  { intros res H Hne room Hroom.
    destruct (catalog_in_sortedRooms roomBlocks room Hroom) as (r & Hr & <-).
    by apply H. }
  assert (∀ res,
    greedyRun roomBlocks sections minChunk = res →
    errorRecords (result res) ≠ [] →
    ∀ r, r ∈ sortedRooms roomBlocks →
         fr_capacity r ≤ usage (roomUsage res) (fr_no r)) as Hgreedy.
  { intros res <-. unfold greedyRun.
    apply greedy_foldl_full; [done|apply sectionLeft0_pos|done]. }
  unfold runStrategy.
  destruct (algorithm =? 1) eqn:E1.
  { eexists. split; [done|]. apply Hcat. by apply Hgreedy. }
  destruct (algorithm =? 2) eqn:E2.
  { eexists. split; [done|]. apply Hcat. by apply Hgreedy. }
  replace (algorithm =? 3) with true by lia.
  destruct (lookahead_ok roomBlocks sections minChunk) as (res & Hrun & _).
  exists res. split; [done|]. apply Hcat.
  unfold allocateGreedyLookahead in Hrun.
  destruct (lookaheadRooms _ _ _ _) as [st|] eqn:Erooms; [|done].
  cbn [mbind option_bind] in Hrun. injection Hrun as <-. simpl.
  apply lookaheadRooms_full in Erooms as (G1 & _ & G3 & _); simpl;
    [|done|apply sectionLeft0_pos|by apply sortedRooms_NoDup|done].
  simpl in G3. intros Hne. apply G1. intros Hnil.
  apply Hne. rewrite errorRecords_app, G3, Hnil. done.
Qed.

Lemma no_free_seat_left_witness :
  ∃ res,
    runStrategy 3 scnCatalog [scnX; mkGroup 2 "Y" "1" 75] 1 = Some res
    ∧ (errorRecords (result res) ≠ [] →
       ∀ room, room ∈ catalogRooms scnCatalog →
               capacity room ≤ usage (roomUsage res) (no room)).
Proof.
  apply (no_free_seat_left 3 scnCatalog [scnX; mkGroup 2 "Y" "1" 75] 1).
  - lia.
  - by_evaluation.
  - lia.
Defined.

(** ** The scans that choose a room or a section *)

Lemma bestFitScan_tightest blocks cursor u remaining todo i best space j :
  bestFitScan blocks cursor u remaining todo i best space = Some j →
  (best = Some j
   ∧ ∀ k room, todo !! k = Some room → fitsWhole blocks cursor u remaining room →
               ∃ sp, space = Some sp ∧ sp ≤ spare u room)
  ∨ ∃ room, todo !! (j - i)%nat = Some room ∧ (i ≤ j)%nat
            ∧ fitsWhole blocks cursor u remaining room
            ∧ (∀ sp, space = Some sp → spare u room < sp)
            ∧ ∀ k room', todo !! k = Some room' →
                fitsWhole blocks cursor u remaining room' →
                spare u room ≤ spare u room'
                ∧ (spare u room' = spare u room → (j - i ≤ k)%nat).
Proof.
  revert i best space. induction todo as [|room rest IH]; intros i best space; simpl.
  - intros ->. left. split; [done|]. intros k room Hk. done.
  - fold (spare u room).
    destruct (blockLocked blocks cursor room) eqn:El;
      [|destruct ((remaining <=? spare u room)
                  && match space with None => true | Some b => spare u room <? b end)
          eqn:Ebetter].
    + intros H. apply IH in H as [[-> Hall]|(r & Hr & Hle & Hfit & Hsp & Hmin)].
      * left. split; [done|]. intros [|k] room' Hk Hfits; [|by apply (Hall k)].
        injection Hk as <-. destruct Hfits as [Hopen _]. congruence.
      * right. exists r. replace (j - i)%nat with (S (j - S i)) by lia.
        split; [done|]. split; [lia|]. split; [done|]. split; [done|].
        intros [|k] room' Hk Hfits.
        -- injection Hk as <-. destruct Hfits as [Hopen _]. congruence.
        -- destruct (Hmin k room' Hk Hfits). split; [done|lia].
    + apply andb_prop in Ebetter as [Efit Esp].
      assert (fitsWhole blocks cursor u remaining room) as Hroom by (split; [done|lia]).
      intros H. apply IH in H as [[[= <-] Hall]|(r & Hr & Hle & Hfit & Hsp & Hmin)].
      * right. exists room. rewrite Nat.sub_diag. split; [done|]. split; [done|].
        split; [done|]. split; [intros sp ->; lia|].
        intros [|k] room' Hk Hfits.
        -- injection Hk as <-. done.
        -- destruct (Hall k room' Hk Hfits) as (sp & [= <-] & Hle). split; [done|lia].
      * right. exists r. replace (j - i)%nat with (S (j - S i)) by lia.
        specialize (Hsp _ eq_refl).
        split; [done|]. split; [lia|]. split; [done|].
        split; [intros sp ->; lia|].
        intros [|k] room' Hk Hfits.
        -- injection Hk as <-. split; lia.
        -- destruct (Hmin k room' Hk Hfits). split; [done|lia].
    + intros H.
      assert (fitsWhole blocks cursor u remaining room →
              ∃ sp, space = Some sp ∧ sp ≤ spare u room) as Hworse.
      { intros [_ Hfits]. apply andb_false_iff in Ebetter as [E|E]; [lia|].
        destruct space as [sp|]; [|done]. exists sp. split; [done|lia]. }
      apply IH in H as [[-> Hall]|(r & Hr & Hle & Hfit & Hsp & Hmin)].
      * left. split; [done|]. intros [|k] room' Hk Hfits; [|by apply (Hall k)].
        injection Hk as <-. by apply Hworse.
      * right. exists r. replace (j - i)%nat with (S (j - S i)) by lia.
        split; [done|]. split; [lia|]. split; [done|]. split; [done|].
        intros [|k] room' Hk Hfits.
        -- injection Hk as <-. destruct (Hworse Hfits) as (sp & Hspace & Hle').
           specialize (Hsp _ Hspace). split; lia.
        -- destruct (Hmin k room' Hk Hfits). split; [done|lia].
Qed.

Lemma bestFitScan_none blocks cursor u remaining todo i room :
  bestFitScan blocks cursor u remaining todo i None None = None → room ∈ todo →
  ¬ fitsWhole blocks cursor u remaining room.
Proof.
  revert i. induction todo as [|room0 rest IH]; intros i; simpl; intros H Hroom;
    [by apply elem_of_nil in Hroom|].
  destruct (blockLocked blocks cursor room0) eqn:El.
  - apply elem_of_cons in Hroom as [->|Hroom]; [|by eapply IH].
    intros [Hopen _]. congruence.
  - rewrite andb_true_r in H.
    destruct (remaining <=? fr_capacity room0 - usage u (fr_no room0)) eqn:E.
    + destruct (bestFitScan_keeps blocks cursor u remaining rest (S i) i
                  (Some (fr_capacity room0 - usage u (fr_no room0)))) as [j' Hj].
      congruence.
    + apply elem_of_cons in Hroom as [->|Hroom]; [|by eapply IH].
      intros [_ Hfits]. unfold spare in Hfits. lia.
Qed.

(** X17. The best-fit scan of strategy 4 picks the tightest room: among
    the rooms of unlocked blocks that can take all the remaining students
    it returns the first one with the fewest free seats, and it returns
    nothing exactly when no such room exists. *)
Theorem best_fit_picks_tightest_room blocks cursor u remaining allRooms :
  match bestFitScan blocks cursor u remaining allRooms 0 None None with
  | Some j =>
    ∃ room, allRooms !! j = Some room
            ∧ fitsWhole blocks cursor u remaining room
            ∧ ∀ k room', allRooms !! k = Some room' →
                fitsWhole blocks cursor u remaining room' →
                spare u room ≤ spare u room'
                ∧ (spare u room' = spare u room → (j ≤ k)%nat)
  | None => ∀ room, room ∈ allRooms → ¬ fitsWhole blocks cursor u remaining room
  end.
Proof.
  destruct (bestFitScan blocks cursor u remaining allRooms 0 None None) as [j|] eqn:E.
  - apply bestFitScan_tightest in E as [[? _]|(room & Hj & _ & Hfit & _ & Hmin)]; [done|].
    rewrite Nat.sub_0_r in Hj, Hmin. by exists room.
  - intros room. by apply (bestFitScan_none blocks cursor u remaining allRooms 0).
Qed.

Lemma bestWhole_largest seats todo i best chunk j :
  bestWhole seats todo i best chunk = Some j →
  (best = Some j
   ∧ ∀ k s, todo !! k = Some s → s_students s ≤ seats → s_students s ≤ chunk)
  ∨ ∃ s, todo !! (j - i)%nat = Some s ∧ (i ≤ j)%nat
         ∧ s_students s ≤ seats ∧ chunk < s_students s
         ∧ ∀ k s', todo !! k = Some s' → s_students s' ≤ seats →
             s_students s' ≤ s_students s
             ∧ (s_students s' = s_students s → (j - i ≤ k)%nat).
Proof.
  revert i best chunk. induction todo as [|s0 rest IH]; intros i best chunk; simpl.
  - intros ->. left. split; [done|]. intros k s Hk. done.
  - destruct ((s_students s0 <=? seats) && (chunk <? s_students s0)) eqn:E; intros H.
    + apply andb_prop in E as [E1 E2].
      apply IH in H as [[[= <-] Hall]|(s & Hs & Hle & Hfit & Hgt & Hmax)].
      * right. exists s0. rewrite Nat.sub_diag. split; [done|]. split; [done|].
        split; [lia|]. split; [lia|].
        intros [|k] s' Hk Hfits.
        -- injection Hk as <-. done.
        -- specialize (Hall k s' Hk Hfits). split; lia.
      * right. exists s. replace (j - i)%nat with (S (j - S i)) by lia.
        split; [done|]. split; [lia|]. split; [done|]. split; [lia|].
        intros [|k] s' Hk Hfits.
        -- injection Hk as <-. split; lia.
        -- destruct (Hmax k s' Hk Hfits). split; [done|lia].
    + apply andb_false_iff in E.
      apply IH in H as [[-> Hall]|(s & Hs & Hle & Hfit & Hgt & Hmax)].
      * left. split; [done|]. intros [|k] s' Hk Hfits; [|by apply (Hall k)].
        injection Hk as <-. lia.
      * right. exists s. replace (j - i)%nat with (S (j - S i)) by lia.
        split; [done|]. split; [lia|]. split; [done|]. split; [done|].
        intros [|k] s' Hk Hfits.
        -- injection Hk as <-. split; lia.
        -- destruct (Hmax k s' Hk Hfits). split; [done|lia].
Qed.

(** X18. The scan of Greedy Lookahead that looks for a section to seat
    whole picks the largest one: among the sections left that fit in the
    free seats of the room it returns the first of the largest size, and
    it returns nothing exactly when none fits. *)
Theorem lookahead_picks_largest_fitting seatsLeft (pending : list Group) :
  match bestWhole seatsLeft pending 0 None 0 with
  | Some j =>
    ∃ s, pending !! j = Some s ∧ 0 < s_students s ≤ seatsLeft
         ∧ ∀ k s', pending !! k = Some s' → s_students s' ≤ seatsLeft →
             s_students s' ≤ s_students s
             ∧ (s_students s' = s_students s → (j ≤ k)%nat)
  | None => ∀ s, s ∈ pending → ¬ (0 < s_students s ≤ seatsLeft)
  end.
Proof.
  destruct (bestWhole seatsLeft pending 0 None 0) as [j|] eqn:E.
  - apply bestWhole_largest in E as [[? _]|(s & Hj & _ & Hfit & Hpos & Hmax)]; [done|].
    rewrite Nat.sub_0_r in Hj, Hmax. exists s. split; [done|]. split; [lia|done].
  - intros s Hs. pose proof (bestWhole_none seatsLeft pending 0 0 s E Hs). lia.
Qed.

(** ** A form without any section to seat *)

Lemma lookaheadRooms_idle minChunk allRooms todo :
  lookaheadRooms minChunk allRooms todo {| l_sectionLeft := []; l_out := emptyResult |}
  = Some {| l_sectionLeft := []; l_out := emptyResult |}.
Proof.
  induction todo as [|room rest IH]; simpl; [done|].
  unfold lookaheadRoom, perfectFit. simpl.
  rewrite andb_false_r. simpl. exact IH.
Qed.

Lemma nothing_to_run algorithm roomBlocks sections minChunk :
  strategyReady algorithm roomBlocks →
  List.filter validGroup sections = [] →
  runStrategy algorithm roomBlocks sections minChunk = Some emptyResult.
Proof.
  intros Hready Hnone.
  unfold strategyReady in Hready.
  unfold runStrategy, allocateSimpleGreedy, allocateGreedyMinChunk, greedyRun,
    allocateGreedyLookahead, allocateBestFitFFD, ffdRun, sectionLeft0.
  rewrite Hnone. simpl.
  destruct (algorithm =? 1); [done|]. destruct (algorithm =? 2); [done|].
  destruct (algorithm =? 3).
  - by rewrite lookaheadRooms_idle.
  - simpl in Hready. destruct (ffdRooms_is_Some _ _ Hready) as [allRooms ->]. done.
Qed.

(** X19. When no section of the form passes the filter, a click on
    "Allocate Seats" with a loaded catalog gives an empty allocation and
    statistics that are all zero except [totalStudents], which still adds
    up the student counts typed in the form. *)
Theorem nothing_to_seat algorithm roomBlocks sections minChunk :
  roomBlocks ≠ [] → strategyReady algorithm roomBlocks →
  List.filter validGroup sections = [] →
  allocateSeats algorithm roomBlocks sections minChunk
  = Some (Allocated []
            {| totalStudents := sumZ (map s_students sections);
               allocatedStudents := 0; roomsUsed := 0; blocksUsed := 0;
               totalCapacity := 0; wastedSeats := 0; efficiency := 0 |}).
Proof.
  intros Hne Hready Hnone. unfold allocateSeats.
  rewrite bool_decide_eq_false_2 by done.
  by rewrite (nothing_to_run _ _ _ _ Hready Hnone).
Qed.

Lemma nothing_to_seat_witness :
  allocateSeats 3 scnCatalog (addSection (addSection [])) 10
  = Some (Allocated []
            {| totalStudents := sumZ (map s_students (addSection (addSection [])));
               allocatedStudents := 0; roomsUsed := 0; blocksUsed := 0;
               totalCapacity := 0; wastedSeats := 0; efficiency := 0 |}).
Proof.
  apply (nothing_to_seat 3 scnCatalog (addSection (addSection [])) 10).
  - discriminate.
  - exact I.
  - reflexivity.
Defined.

(** ** The partial flag *)

Section Flags.

Variable minChunk : Z.
Variable allRooms : list FlatRoom.
Variable size : string * string → Z.

Local Abbreviation flagInv := (flagsOk size).

Lemma flagOk_mono res l a : flagOk size res a → flagOk size (res ++ l) a.
Proof.
  unfold flagOk. intros H He. specialize (H He).
  destruct (flaggedPartial a); [done|].
  destruct H as [H|(b & Hb & Hid & Hf)]; [by left|right].
  exists b. split; [|done]. apply elem_of_app. by left.
Qed.

Lemma flagInv_snoc res a :
  flagInv res → flagOk size (res ++ [a]) a → flagInv (res ++ [a]).
Proof.
  intros Hinv Ha x Hx. apply elem_of_app in Hx as [Hx|Hx].
  - by apply flagOk_mono, Hinv.
  - by apply list_elem_of_singleton in Hx as ->.
Qed.

Lemma flagInv_error res s n : flagInv res → flagInv (res ++ [errorRecord s n]).
Proof. intros Hinv. apply flagInv_snoc; [done|]. intros He. done. Qed.

Lemma splitOn_mono i res l : splitOn res i → splitOn (res ++ l) i.
Proof.
  intros (b & Hb & Hid & Hf). exists b. split; [|done]. apply elem_of_app. by left.
Qed.

(** The record of a scan that takes [n] of the [remaining] students. *)
Lemma scan_flagOk res s room used n remaining :
  size (identity s) = s_students s → n ≤ remaining → remaining ≤ s_students s →
  flagOk size (res ++ [seatRecord s room used n (partialFlag s n)])
         (seatRecord s room used n (partialFlag s n)).
Proof.
  intros Hsize Hn Hrem _. unfold flaggedPartial, recordIdentity. simpl.
  fold (identity s). rewrite Hsize.
  destruct (n =? s_students s) eqn:E; simpl; [left|]; lia.
Qed.

Lemma greedyRooms_flags s todo st remaining st' remaining' :
  size (identity s) = s_students s → 0 ≤ remaining ≤ s_students s →
  greedyRooms minChunk allRooms s todo st remaining = (st', remaining') →
  flagInv (result st) → flagInv (result st').
Proof.
  intros Hsize. revert st remaining.
  induction todo as [|room rest IH]; intros st remaining Hrem; simpl.
  - by intros [= <- <-].
  - destruct (remaining =? 0); [by intros [= <- <-]|].
    destruct (fr_capacity room - usage (roomUsage st) (fr_no room) <=? 0) eqn:Eav;
      [by apply IH|].
    destruct (guardSkips _ _ _ _ _ _); [by apply IH|].
    intros H Hinv. eapply IH; [|exact H|]; [lia|]. simpl.
    apply flagInv_snoc; [done|]. apply (scan_flagOk _ _ _ _ _ remaining); lia.
Qed.

Lemma greedySection_flags st s :
  size (identity s) = s_students s → 0 ≤ s_students s →
  flagInv (result st) → flagInv (result (greedySection minChunk allRooms st s)).
Proof.
  intros Hsize Hs Hinv. unfold greedySection.
  destruct (greedyRooms minChunk allRooms s allRooms st (s_students s))
    as [st1 remaining1] eqn:E.
  apply greedyRooms_flags in E; [|done|lia|done].
  destruct (0 <? remaining1); [|done]. simpl. by apply flagInv_error.
Qed.

Lemma greedy_foldl_flags l st :
  Forall (λ s, size (identity s) = s_students s ∧ 0 < s_students s) l →
  flagInv (result st) →
  flagInv (result (foldl (greedySection minChunk allRooms) st l)).
Proof.
  revert st. induction l as [|s l IH]; intros st Hl Hinv; simpl; [done|].
  apply Forall_cons in Hl as [[Hsize Hs] Hl]. apply IH; [done|].
  apply greedySection_flags; [done|lia|done].
Qed.

End Flags.

Section FfdFlags.

Variable blocks : list (list string).
Variable minChunk : Z.
Variable allRooms : list FlatRoom.
Variable size : string * string → Z.

Local Abbreviation flagInv := (flagsOk size).


Lemma firstFitScan_flags s st remaining todo st' remaining' :
  size (identity s) = s_students s →
  firstFitScan blocks minChunk allRooms s st remaining todo
  = Some (Placed st' remaining') →
  (∀ room, room ∈ todo →
     ¬ fitsWhole blocks (maxBlockIdx st) (roomUsage (f_out st)) remaining room) →
  0 < remaining ≤ s_students s → flagInv (result (f_out st)) →
  flagInv (result (f_out st')) ∧ 0 ≤ remaining' ≤ s_students s
  ∧ splitOn (result (f_out st')) (identity s).
Proof.
  intros Hsize Hscan Hnofit Hrem Hinv.
  induction todo as [|room rest IH]; simpl in Hscan; [done|].
  assert (∀ r, r ∈ rest →
            ¬ fitsWhole blocks (maxBlockIdx st) (roomUsage (f_out st)) remaining r)
    as Hrest by (intros r Hr; by apply Hnofit, list_elem_of_further).
  destruct (blockLocked blocks (maxBlockIdx st) room) eqn:El; [by apply IH|].
  destruct (fr_capacity room - usage (roomUsage (f_out st)) (fr_no room) <=? 0) eqn:Eav;
    [by apply IH|].
  destruct (guardSkips _ _ _ _ _ _); [by apply IH|].
  destruct (placeFfd _ _ _ _ _) as [st1|] eqn:Ep; [|done].
  simpl in Hscan. injection Hscan as <- <-.
  apply placeFfd_out in Ep. rewrite Ep. simpl.
  assert (fr_capacity room - usage (roomUsage (f_out st)) (fr_no room) < remaining)
    as Hless.
  { destruct (decide (remaining
                      ≤ fr_capacity room - usage (roomUsage (f_out st)) (fr_no room)))
      as [Hfit|]; [|lia].
    destruct (Hnofit room (list_elem_of_here _ _)). by split. }
  split; [|split; [lia|]].
  - apply flagInv_snoc; [done|]. apply (scan_flagOk _ _ _ _ _ _ remaining); lia.
  - eexists. split; [apply elem_of_app; right; apply list_elem_of_here|].
    split; [done|]. unfold flaggedPartial. simpl.
    replace (_ =? s_students s) with false by lia. done.
Qed.

Lemma ffdTurn_flags s st remaining st' remaining' :
  size (identity s) = s_students s →
  ffdTurn blocks minChunk allRooms s st remaining = Some (Placed st' remaining') →
  0 < remaining → whileFlags size s st remaining → whileFlags size s st' remaining'.
Proof.
  unfold ffdTurn. intros Hsize Hturn Hpos (Hinv & Hrem & Hsplit).
  destruct (bestFitScan _ _ _ _ _ _ _ _) as [j|] eqn:Eb.
  - destruct (allRooms !! j) as [room|]; [|done]. simpl in Hturn.
    match type of Hturn with context [if ?c then Some Break else _] => destruct c end;
      [done|].
    destruct (placeFfd _ _ _ _ _) as [st1|] eqn:Ep; [|done].
    simpl in Hturn. injection Hturn as <- <-.
    apply placeFfd_out in Ep. unfold whileFlags. rewrite Ep. simpl.
    split; [|split; [lia|intros; lia]].
    apply flagInv_snoc; [done|]. intros _. unfold flaggedPartial, recordIdentity. simpl.
    fold (identity s). rewrite Hsize.
    destruct (Hsplit Hpos) as [H|(b & Hb & Hid & Hf)]; [by left|right].
    exists b. split; [|done]. apply elem_of_app. by left.
  - apply firstFitScan_flags in Hturn as (H1 & H2 & H3); [|done| |lia|done].
    + split; [done|]. split; [done|]. intros _. by right.
    + intros room Hroom.
      by apply (bestFitScan_none blocks _ _ _ allRooms 0%nat room Eb).
Qed.

Lemma ffdWhile_flags s fuel st remaining r :
  size (identity s) = s_students s →
  ffdWhile blocks fuel minChunk allRooms s st remaining = Some r →
  whileFlags size s st remaining → flagInv (result (f_out r.1)).
Proof.
  intros Hsize. revert st remaining.
  induction fuel as [|fuel IH]; intros st remaining; simpl.
  - destruct (0 <? remaining); simpl; [done|]. by intros [= <-] [? _].
  - destruct (0 <? remaining) eqn:E; simpl; [|by intros [= <-] [? _]].
    destruct (ffdTurn _ _ _ _ _ _) as [[st1 remaining1|]|] eqn:Et; simpl; [| |done].
    + intros H Hw. apply (IH _ _ H). apply (ffdTurn_flags _ _ _ _ _ Hsize Et); [lia|done].
    + by intros [= <-] [? _].
Qed.

Lemma ffdSection_flags s st st' :
  size (identity s) = s_students s → 0 ≤ s_students s →
  ffdSection blocks minChunk allRooms st s = Some st' →
  flagInv (result (f_out st)) → flagInv (result (f_out st')).
Proof.
  unfold ffdSection. intros Hsize Hs.
  destruct (ffdWhile _ _ _ _ _ _ _) as [r|] eqn:E; [|done].
  simpl. intros [= <-] Hinv.
  apply (ffdWhile_flags _ _ _ _ _ Hsize) in E; [|split; [done|]; split; [lia|by left]].
  destruct (0 <? r.2); [|done]. simpl. by apply flagInv_error.
Qed.

Lemma ffdSections_flags todo st st' :
  Forall (λ s, size (identity s) = s_students s ∧ 0 < s_students s) todo →
  ffdSections blocks minChunk allRooms todo st = Some st' →
  flagInv (result (f_out st)) → flagInv (result (f_out st')).
Proof.
  revert st. induction todo as [|s rest IH]; intros st Hl; simpl; [by intros [= <-]|].
  apply Forall_cons in Hl as [[Hsize Hs] Hl].
  destruct (ffdSection _ _ _ _ _) as [st1|] eqn:E; [|done]. simpl.
  intros H Hinv. apply (IH _ Hl H). apply (ffdSection_flags _ _ _ Hsize) in E; [done|lia|done].
Qed.

End FfdFlags.

Section LookFlags.

Variable minChunk : Z.
Variable allRooms : list FlatRoom.
Variable size : string * string → Z.

Local Abbreviation flagInv := (flagsOk size).

Lemma pendingOk_mono res l s : pendingOk size res s → pendingOk size (res ++ l) s.
Proof.
  intros [H1 [H2|H2]]; (split; [done|]); [by left|right]. by apply splitOn_mono.
Qed.

Lemma pending_mono res l pending :
  Forall (pendingOk size res) pending → Forall (pendingOk size (res ++ l)) pending.
Proof.
  intros H. eapply Forall_impl; [exact H|]. intros s. apply pendingOk_mono.
Qed.

(** A record that seats all the students that a pending section has. *)
Lemma whole_flagOk res s a :
  pendingOk size res s → recordIdentity a = identity s →
  students a = s_students s → flaggedPartial a = false →
  flagOk size (res ++ [a]) a.
Proof.
  intros [_ Hs] Hid Hn Hf _. rewrite Hf, Hid, Hn.
  destruct Hs as [Hs|Hs]; [by left|right].
  destruct (splitOn_mono _ _ [a] Hs) as (b & Hb & Hbid & Hbf).
  exists b. split; [done|]. split; [congruence|done].
Qed.

Lemma lookaheadFill_flags fuel u room base fs fs' :
  lookaheadFill fuel minChunk allRooms u room fs = Some fs' →
  Forall (pendingOk size (base ++ allocationsForRoom fs)) (sectionLeft fs) →
  flagInv (base ++ allocationsForRoom fs) →
  Forall (pendingOk size (base ++ allocationsForRoom fs')) (sectionLeft fs')
  ∧ flagInv (base ++ allocationsForRoom fs').
Proof.
  revert fs. induction fuel as [|fuel IH]; intros fs; simpl.
  - destruct (negb _); [|done]. by intros [= <-].
  - destruct (negb _) eqn:Econd; [by intros [= <-]|].
    apply negb_false_iff, andb_prop in Econd as [Hseats _].
    destruct (bestWhole (seatsLeft fs) (sectionLeft fs) 0 None 0) as [bestIdx|] eqn:Eb.
    + destruct (sectionLeft fs !! bestIdx) as [s|] eqn:Es; [|done]. simpl.
      match goal with |- context [if ?c then Some fs else _] => destruct c end;
        [by intros [= <-]|].
      intros Hrun Hpool Hinv. apply IH in Hrun; [done| |]; simpl; rewrite app_assoc.
      * apply pending_mono. by apply Forall_delete.
      * apply flagInv_snoc; [done|].
        by apply (whole_flagOk _ s); [apply (Forall_lookup_1 _ _ _ _ Hpool Es)|..].
    + intros Hrun Hpool Hinv.
      assert (Forall (pendingOk size (base ++ allocationsForRoom fs))
                     (sort_desc s_students (sectionLeft fs))) as Hsorted
        by (by rewrite sort_desc_perm).
      destruct (sort_desc s_students (sectionLeft fs)) as [|s rest] eqn:Esort; [done|].
      simpl in Hrun.
      destruct (_ && _ && _); [by injection Hrun as <-|].
      match type of Hrun with context [if ?c then Some _ else _] => destruct c end;
        [by injection Hrun as <-|].
      apply Forall_cons in Hsorted as [[Hs Hsplit] Hrest].
      assert (seatsLeft fs < s_students s) as Hbig.
      { assert (s ∈ sectionLeft fs) as Hin
          by (rewrite <- (sort_desc_perm s_students), Esort; apply list_elem_of_here).
        pose proof (bestWhole_none _ _ _ _ s Eb Hin). lia. }
      replace (Z.min (seatsLeft fs) (s_students s)) with (seatsLeft fs) in Hrun by lia.
      apply IH in Hrun; [done| |]; simpl; rewrite app_assoc.
      * assert (Forall (pendingOk size
                   ((base ++ allocationsForRoom fs)
                    ++ [seatRecord s room (fr_capacity room - seatsLeft fs)
                          (seatsLeft fs) (Some true)])) rest) as Hrest'
          by (by apply pending_mono).
        destruct (s_students s - seatsLeft fs =? 0); [done|].
        apply Forall_cons. split; [|done]. split; [simpl; unfold identity; simpl|].
        -- unfold identity in Hs. lia.
        -- right. eexists. split; [apply elem_of_app; right; apply list_elem_of_here|].
           by split.
      * apply flagInv_snoc; [done|]. intros _.
        unfold flaggedPartial, recordIdentity. simpl. fold (identity s). lia.
Qed.

Lemma perfectFit_flags room pending fs0 base :
  perfectFit room pending = Some fs0 →
  Forall (pendingOk size base) pending → flagInv base →
  Forall (pendingOk size (base ++ allocationsForRoom fs0)) (sectionLeft fs0)
  ∧ flagInv (base ++ allocationsForRoom fs0).
Proof.
  unfold perfectFit. intros Hfit Hpool Hinv.
  destruct (findIndex _ pending) as [i|] eqn:Ei.
  - destruct (pending !! i) as [s|] eqn:Es; [|done]. simpl in Hfit.
    injection Hfit as <-. simpl.
    apply findIndex_spec in Ei as (x & Hx & Heq). rewrite Es in Hx. injection Hx as <-.
    split.
    + apply pending_mono. by apply Forall_delete.
    + apply flagInv_snoc; [done|].
      apply (whole_flagOk _ s);
        [apply (Forall_lookup_1 _ _ _ _ Hpool Es)|done|simpl; lia|done].
  - injection Hfit as <-. simpl. by rewrite app_nil_r.
Qed.

Lemma lookaheadRoom_flags st room st' :
  lookaheadRoom minChunk allRooms st room = Some st' →
  Forall (pendingOk size (result (l_out st))) (l_sectionLeft st) →
  flagInv (result (l_out st)) →
  Forall (pendingOk size (result (l_out st'))) (l_sectionLeft st')
  ∧ flagInv (result (l_out st')).
Proof.
  unfold lookaheadRoom. intros Hrun Hpool Hinv.
  destruct (perfectFit room (l_sectionLeft st)) as [fs0|] eqn:Ep; [|done].
  cbn [mbind option_bind] in Hrun.
  destruct (lookaheadFill _ _ _ _ _ fs0) as [fs|] eqn:Ef; [|done].
  cbn [mbind option_bind] in Hrun. injection Hrun as <-. simpl.
  apply (perfectFit_flags _ _ _ _ Ep) in Hinv as [H1 H2]; [|done].
  by apply (lookaheadFill_flags _ _ _ _ _ _ Ef).
Qed.

Lemma lookaheadRooms_flags todo st st' :
  lookaheadRooms minChunk allRooms todo st = Some st' →
  Forall (pendingOk size (result (l_out st))) (l_sectionLeft st) →
  flagInv (result (l_out st)) →
  flagInv (result (l_out st')).
Proof.
  revert st. induction todo as [|room rest IH]; intros st; simpl.
  - by intros [= <-].
  - destruct (lookaheadRoom minChunk allRooms st room) as [st1|] eqn:E1; [|done].
    cbn [mbind option_bind]. intros Hrun Hpool Hinv.
    apply (lookaheadRoom_flags _ _ _ E1) in Hinv as [H1 H2]; [|done].
    by apply (IH _ Hrun).
Qed.

Lemma flagInv_errors res pending : flagInv res → flagInv (res ++ leftoverErrors pending).
Proof.
  intros Hinv a Ha. apply elem_of_app in Ha as [Ha|Ha].
  - by apply flagOk_mono, Hinv.
  - unfold leftoverErrors in Ha. apply list_elem_of_fmap in Ha as (s & -> & _).
    intros He. done.
Qed.

End LookFlags.

Lemma run_flags algorithm roomBlocks sections minChunk res :
  NoDup (map identity (List.filter validGroup sections)) →
  runStrategy algorithm roomBlocks sections minChunk = Some res →
  flagsOk (λ i, demand i (List.filter validGroup sections)) (result res).
Proof.
  intros Hnd.
  set (size := λ i, demand i (List.filter validGroup sections)).
  assert (Forall (λ s, size (identity s) = s_students s ∧ 0 < s_students s)
                 (sectionLeft0 sections)) as Hsizes.
  { apply Forall_forall. intros s Hs. pose proof Hs as Hs'.
    apply sectionLeft0_valid in Hs as [Hin Hv]. split; [|by apply validGroup_pos].
    apply demand_unique; [done|].
    apply list_elem_of_In, List.filter_In. split; [by apply list_elem_of_In|done]. }
  assert (flagsOk size []) as Hnil by (intros a Ha; by apply elem_of_nil in Ha).
  unfold runStrategy, allocateSimpleGreedy, allocateGreedyMinChunk, greedyRun.
  destruct (algorithm =? 1); [intros [= <-]; by apply greedy_foldl_flags|].
  destruct (algorithm =? 2); [intros [= <-]; by apply greedy_foldl_flags|].
  destruct (algorithm =? 3).
  - unfold allocateGreedyLookahead.
    destruct (lookaheadRooms _ _ _ _) as [st|] eqn:E; [|done].
    cbn [mbind option_bind]. intros [= <-]. simpl.
    apply flagInv_errors. apply (lookaheadRooms_flags _ _ _ _ _ _ E); simpl; [|done].
    eapply Forall_impl; [exact Hsizes|]. intros s [Hsize Hpos].
    split; [lia|by left].
  - unfold allocateBestFitFFD, ffdRun.
    destruct (ffdRooms orderedRoomBlocks roomBlocks) as [allRooms|]; [|done].
    cbn [mbind option_bind].
    destruct (ffdSections _ _ _ _ _) as [st|] eqn:E; [|done].
    simpl. intros [= <-].
    by apply (ffdSections_flags _ _ _ _ _ _ _ Hsizes E).
Qed.

Lemma existsb_false_elem {A} (p : A → bool) (l : list A) x :
  existsb p l = false → x ∈ l → p x = false.
Proof.
  intros H Hx. destruct (p x) eqn:E; [|done].
  assert (existsb p l = true) as Ht; [|congruence].
  apply existsb_exists. exists x. split; [by apply list_elem_of_In|done].
Qed.

(** X20. In the results grouped by section, when the groups that pass
    the filter have pairwise distinct keys, a header shows the green check
    (neither a partial flag nor an error among its records) exactly when
    its group is seated whole in one room: the group has a single record,
    a seat record with all its students. *)
Theorem green_check_iff_whole_in_one_room algorithm roomBlocks sections minChunk :
  uniqueRoomIds roomBlocks → strategyReady algorithm roomBlocks →
  NoDup (map groupKey (List.filter validGroup sections)) →
  ∃ res,
    runStrategy algorithm roomBlocks sections minChunk = Some res
    ∧ ∀ k items,
        (k, items) ∈ groupedAllocation (result res) →
        ∃ g, g ∈ sections ∧ validGroup g = true ∧ k = groupKey g
             ∧ ((hasPartial items = false ∧ hasError items = false)
                ↔ ∃ a, items = [a] ∧ is_error a = false
                       ∧ students a = s_students g).
Proof.
  intros Hu Hready Hkeys.
  destruct (run_full algorithm roomBlocks sections minChunk Hu Hready)
    as (allRooms & res & Hrun & _ & _ & I & _ & Hacc).
  exists res. split; [done|]. intros k items Hin.
  pose proof (uniqueKeys_identities sections Hkeys) as Hids.
  pose proof (run_flags _ _ _ _ _ Hids Hrun) as Hflags.
  destruct (header_records minChunk allRooms res sections I Hacc Hkeys k items Hin)
    as (g & Hg & Hv & Hk & Hitems).
  destruct (header_group minChunk allRooms res sections I Hacc Hkeys k items Hin)
    as (g' & _ & _ & Hk' & Htot & Hsub).
  assert (shownTotal items = s_students g) as Htotal.
  { rewrite Hitems. change (groupSum (identity g) (result res) = s_students g).
    rewrite Hacc. apply demand_unique; [done|].
    apply list_elem_of_In, List.filter_In. split; [by apply list_elem_of_In|done]. }
  clear g' Hk' Htot.
  assert (demand (identity g) (List.filter validGroup sections) = s_students g) as Hsize.
  { apply demand_unique; [done|].
    apply list_elem_of_In, List.filter_In. split; [by apply list_elem_of_In|done]. }
  assert (∀ a, a ∈ items → recordIdentity a = identity g) as Hident.
  { intros a Ha. rewrite Hitems in Ha. apply list_elem_of_In, List.filter_In in Ha as [_ Ha].
    rewrite ofGroup_recordIdentity in Ha. by apply bool_decide_eq_true_1 in Ha. }
  exists g. split; [done|]. split; [done|]. split; [done|]. split.
  - intros [Hp He].
    destruct items as [|a rest] eqn:E.
    { pose proof (validGroup_pos g Hv). unfold shownTotal in Htotal. simpl in Htotal. lia. }
    rewrite <- E in *.
    assert (a ∈ items) as Ha by (rewrite E; apply list_elem_of_here).
    pose proof (existsb_false_elem _ _ _ He Ha) as Herr.
    pose proof (existsb_false_elem _ _ _ Hp Ha) as Hflag.
    pose proof (Hflags a (Hsub a Ha) Herr) as Hok. rewrite Hflag in Hok.
    assert (students a = s_students g) as Hall.
    { rewrite (Hident a Ha), Hsize in Hok.
      destruct Hok as [Hok|(b & Hb & Hbid & Hbf)]; [done|]. exfalso.
      assert (b ∈ items) as Hbin.
      { rewrite Hitems. apply list_elem_of_In, List.filter_In.
        split; [by apply list_elem_of_In|].
        rewrite ofGroup_recordIdentity. by apply bool_decide_eq_true_2. }
      pose proof (existsb_false_elem _ _ _ Hp Hbin). congruence. }
    exists a. split; [|done]. rewrite E. f_equal.
    rewrite E in Htotal, Hsub. unfold shownTotal in Htotal. simpl in Htotal.
    apply sum_pos_nil; [|lia].
    intros x Hx. apply (inv_pos I), Hsub. by apply list_elem_of_further.
  - intros (a & -> & Herr & Hall). unfold hasPartial, hasError. simpl.
    rewrite Herr, !orb_false_r. split; [|done].
    assert (a ∈ [a]) as Ha by apply list_elem_of_here.
    pose proof (Hflags a (Hsub a Ha) Herr) as Hok.
    destruct (flaggedPartial a); [|done].
    rewrite (Hident a Ha), Hsize in Hok. lia.
Qed.

Lemma green_check_iff_whole_in_one_room_witness :
  ∃ res,
    runStrategy 4 (demoCatalog 30) [scnX; mkGroup 2 "Y" "1" 25] 10 = Some res
    ∧ ∀ k items,
        (k, items) ∈ groupedAllocation (result res) →
        ∃ g, g ∈ [scnX; mkGroup 2 "Y" "1" 25] ∧ validGroup g = true ∧ k = groupKey g
             ∧ ((hasPartial items = false ∧ hasError items = false)
                ↔ ∃ a, items = [a] ∧ is_error a = false
                       ∧ students a = s_students g).
Proof.
  apply (green_check_iff_whole_in_one_room 4 (demoCatalog 30)
           [scnX; mkGroup 2 "Y" "1" 25] 10).
  - by_evaluation.
  - change (catalogCovers orderedRoomBlocks (demoCatalog 30)). by_evaluation.
  - by_evaluation.
Defined.
